(** * opencode-damage-control: the decision engine and its configuration overlay

    A shallow embedding of [src/patterns.ts] (pattern matcher, path classifier,
    shell operation classifier, protection evaluator), of [src/config.ts]
    (validation, merge, loading and application of configuration overlays)
    and of the two hooks of [src/index.ts], followed by the properties the
    specification states about them and by further properties of the
    program.

    Conventions of the embedding.
    - A JavaScript string is a sequence of code units; the development works
      with the 8-bit code units of Rocq's [ascii] (the Latin-1 range), which
      covers every rule of the repository.  Record fields hold [string];
      character-level primitives work on [list ascii].
    - [new RegExp(src, flags)] is the function [RegExp.compile]: a parser for
      the regular-expression syntax the rule data and [globToRegex] use,
      returning [None] where the constructor raises a [SyntaxError] (and for
      syntax outside that fragment: braces quantifiers, back-references,
      look-behind, hexadecimal and unicode escapes).  Matching follows the
      backtracking semantics of ECMAScript: greedy and lazy quantifiers in
      priority order, the refusal of empty iterations, look-ahead.
    - A function that can raise returns in the [result] type.
    - A JavaScript object used as a dictionary is a [gmap string _] of its own
      properties; keys that name a member of [Object.prototype] (such as
      [constructor]) are outside the dictionaries considered here. *)

From Stdlib Require Import Ascii String List Bool Arith ZArith Lia.
From stdpp Require Import gmap strings list fin_maps pretty relations.
Import ListNotations.

Set Warnings "-register-all".

(* ===================================================================== *)
(** ** Results of computations that can raise *)
(* ===================================================================== *)

Inductive exn : Type :=
| SyntaxError (pattern : string)   (* raised by [new RegExp] *)
| TypeError (what : string).       (* raised by a failed conversion *)

Inductive result (A : Type) : Type :=
| Ok (a : A)
| Throw (e : exn).
Arguments Ok {A} a.
Arguments Throw {A} e.

Definition rbind {A B} (x : result A) (f : A -> result B) : result B :=
  match x with
  | Ok a => f a
  | Throw e => Throw e
  end.

Declare Scope result_scope.
Delimit Scope result_scope with result.
Notation "'let*' x ':=' e1 'in' e2" := (rbind e1 (fun x => e2))
  (at level 10, x pattern, e1 at level 100, e2 at level 200) : result_scope.

Definition is_ok {A} (x : result A) : bool :=
  match x with Ok _ => true | Throw _ => false end.

(* ===================================================================== *)
(** ** Code units and the string primitives of the host language *)
(* ===================================================================== *)

Module JsStr.

Definition chars (s : string) : list ascii := list_ascii_of_string s.
Definition str (l : list ascii) : string := string_of_list_ascii l.

Definition code (c : ascii) : nat := nat_of_ascii c.

Definition ceqb (a b : ascii) : bool := Ascii.eqb a b.

Definition in_range (lo hi c : ascii) : bool :=
  (code lo <=? code c) && (code c <=? code hi).

(** [String.prototype.startsWith] on code-unit lists. *)
Fixpoint starts_with (sub s : list ascii) : bool :=
  match sub, s with
  | [], _ => true
  | _ :: _, [] => false
  | a :: sub', b :: s' => ceqb a b && starts_with sub' s'
  end.

(** [String.prototype.includes]: [sub] occurs somewhere in [s]. *)
Fixpoint includes_l (s sub : list ascii) : bool :=
  starts_with sub s ||
  match s with
  | [] => false
  | _ :: s' => includes_l s' sub
  end.

Definition includes (s sub : string) : bool := includes_l (chars s) (chars sub).

(** Split at the first occurrence of [pat]: the text before it and the text
    after it, or [None] when [pat] does not occur. *)
Fixpoint split_first (pat s : list ascii) : option (list ascii * list ascii) :=
  if starts_with pat s then Some ([], skipn (length pat) s)
  else match s with
       | [] => None
       | c :: s' =>
           match split_first pat s' with
           | Some (before, after) => Some (c :: before, after)
           | None => None
           end
       end.

(** The replacement text of [String.prototype.replace] with a string
    pattern (GetSubstitution without captures): [$$] is a dollar sign, [$&]
    the matched text, [$`] the text before the match, [$'] the text after
    it; any other dollar sign stands for itself. *)
Fixpoint get_substitution (matched before after repl : list ascii) : list ascii :=
  match repl with
  | [] => []
  | "$"%char :: "$"%char :: r => "$"%char :: get_substitution matched before after r
  | "$"%char :: "&"%char :: r => matched ++ get_substitution matched before after r
  | "$"%char :: "`"%char :: r => before ++ get_substitution matched before after r
  | "$"%char :: "'"%char :: r => after ++ get_substitution matched before after r
  | c :: r => c :: get_substitution matched before after r
  end.

(** [s.replace(pat, repl)] with a string pattern: only the first occurrence
    is replaced. *)
Definition replace_l (s pat repl : list ascii) : list ascii :=
  match split_first pat s with
  | Some (before, after) => before ++ get_substitution pat before after repl ++ after
  | None => s
  end.

Definition replace (s pat repl : string) : string :=
  str (replace_l (chars s) (chars pat) (chars repl)).

(** [s.lastIndexOf(c)] for a one-character [c]; [-1] when absent. *)
Fixpoint lastIndexOf_from (i : Z) (c : ascii) (s : list ascii) : Z :=
  match s with
  | [] => (-1)%Z
  | d :: s' =>
      let later := lastIndexOf_from (i + 1)%Z c s' in
      if (0 <=? later)%Z then later
      else if ceqb d c then i else (-1)%Z
  end.

Definition lastIndexOf (s : list ascii) (c : ascii) : Z := lastIndexOf_from 0%Z c s.

(** [s.slice(i)] for a non-negative [i]. *)
Definition slice (s : list ascii) (i : Z) : list ascii := skipn (Z.to_nat i) s.

(** White space as [\s] sees it, within the 8-bit range. *)
Definition is_space (c : ascii) : bool :=
  let n := code c in
  ((9 <=? n) && (n <=? 13)) || (n =? 32) || (n =? 160).

Definition is_digit (c : ascii) : bool := in_range "0" "9" c.

(** The word characters of [\w] and [\b]. *)
Definition is_word (c : ascii) : bool :=
  in_range "a" "z" c || in_range "A" "Z" c || is_digit c || ceqb c "_".

Definition is_line_terminator (c : ascii) : bool :=
  (code c =? 10) || (code c =? 13).

(** Canonicalize of a case-insensitive match without the unicode flag: the
    upper-case form when it is a single code unit. In the 8-bit range the
    letters a-z and the accented letters 224-254 (except the division sign)
    move down by 32; [uncanonicalize] is the other direction. *)
Definition canonicalize (c : ascii) : ascii :=
  let n := code c in
  if ((97 <=? n) && (n <=? 122)) ||
     ((224 <=? n) && (n <=? 254) && negb (n =? 247))
  then ascii_of_nat (n - 32) else c.

Definition uncanonicalize (c : ascii) : ascii :=
  let n := code c in
  if ((65 <=? n) && (n <=? 90)) ||
     ((192 <=? n) && (n <=? 222) && negb (n =? 215))
  then ascii_of_nat (n + 32) else c.

(** [s.split(/\s+/)]: the pieces between maximal runs of white space; a run
    at either end leaves an empty piece there. [cur] is the current piece,
    reversed; [in_gap] says that the previous code unit was white space. *)
Fixpoint split_ws_go (in_gap : bool) (cur : list ascii) (s : list ascii)
  : list (list ascii) :=
  match s with
  | [] => [rev cur]
  | c :: s' =>
      if is_space c then
        if in_gap then split_ws_go true cur s'
        else rev cur :: split_ws_go true [] s'
      else split_ws_go false (c :: cur) s'
  end.

Definition split_ws (s : list ascii) : list (list ascii) :=
  split_ws_go false [] s.

End JsStr.

(* ===================================================================== *)
(** ** Regular expressions: syntax, [new RegExp], and matching *)
(* ===================================================================== *)

Module RegExp.
Import JsStr.

(** A member of a character class. *)
Inductive cset : Type :=
| CsChar (c : ascii)
| CsRange (lo hi : ascii)
| CsDigit (negated : bool)      (* \d, \D *)
| CsSpace (negated : bool)      (* \s, \S *)
| CsWord (negated : bool).      (* \w, \W *)

Inductive regex : Type :=
| Eps
| Chr (c : ascii)
| Dot
| Cls (invert : bool) (items : list cset)
| Bol                                  (* ^ *)
| Eol                                  (* $ *)
| WordB (negated : bool)               (* \b, \B *)
| Seq (a b : regex)
| Alt (a b : regex)
| Star (greedy : bool) (a : regex)
| Plus (greedy : bool) (a : regex)
| Opt (greedy : bool) (a : regex)
| Grp (a : regex)                      (* ( ... ) and (?: ... ) *)
| Look (negated : bool) (a : regex).   (* (?= ... ) and (?! ... ) *)

(** *** Parsing a pattern source *)

Local Open Scope char_scope.

(** The escapes that stand for a class of code units, in and out of a class. *)
Definition class_escape (c : ascii) : option cset :=
  match c with
  | "d" => Some (CsDigit false) | "D" => Some (CsDigit true)
  | "s" => Some (CsSpace false) | "S" => Some (CsSpace true)
  | "w" => Some (CsWord false)  | "W" => Some (CsWord true)
  | _ => None
  end.

(** The escapes that stand for one code unit: control escapes, and the
    identity escape of every other character. Digits, [c], [x], [u] and [k]
    start escapes outside the fragment. *)
Definition char_escape (c : ascii) : option ascii :=
  match c with
  | "t" => Some (ascii_of_nat 9)
  | "n" => Some (ascii_of_nat 10)
  | "v" => Some (ascii_of_nat 11)
  | "f" => Some (ascii_of_nat 12)
  | "r" => Some (ascii_of_nat 13)
  | "c" | "x" | "u" | "k" => None
  | _ => if is_digit c then None else Some c
  end.

Definition class_atom (s : list ascii) : option (cset * list ascii) :=
  match s with
  | [] => None
  | "\" :: [] => None
  | "\" :: c :: r =>
      match class_escape c with
      | Some cs => Some (cs, r)
      | None =>
          if ceqb c "b" then Some (CsChar (ascii_of_nat 8), r)
          else match char_escape c with
               | Some d => Some (CsChar d, r)
               | None => None
               end
      end
  | c :: r => Some (CsChar c, r)
  end.

(** The members of a class, after the opening bracket (and caret), up to and
    including the closing bracket. *)
Fixpoint parse_class (n : nat) (s : list ascii) : option (list cset * list ascii) :=
  match n with
  | 0 => None
  | S n' =>
      match s with
      | "]" :: r => Some ([], r)
      | _ =>
          match class_atom s with
          | None => None
          | Some (a, r1) =>
              match r1 with
              | "-" :: "]" :: _ =>
                  match parse_class n' r1 with
                  | Some (items, r2) => Some (a :: items, r2)
                  | None => None
                  end
              | "-" :: r2 =>
                  match class_atom r2 with
                  | None => None
                  | Some (b, r3) =>
                      match parse_class n' r3 with
                      | None => None
                      | Some (items, r4) =>
                          match a, b with
                          | CsChar lo, CsChar hi =>
                              if Nat.leb (code lo) (code hi)
                              then Some (CsRange lo hi :: items, r4)
                              else None
                          | _, _ => Some (a :: CsChar "-" :: b :: items, r4)
                          end
                      end
                  end
              | _ =>
                  match parse_class n' r1 with
                  | Some (items, r2) => Some (a :: items, r2)
                  | None => None
                  end
              end
          end
      end
  end.

(** A quantifier after an atom, if there is one. *)
Definition quantify (a : regex) (s : list ascii) : regex * list ascii :=
  match s with
  | "*" :: "?" :: r => (Star false a, r)
  | "*" :: r => (Star true a, r)
  | "+" :: "?" :: r => (Plus false a, r)
  | "+" :: r => (Plus true a, r)
  | "?" :: "?" :: r => (Opt false a, r)
  | "?" :: r => (Opt true a, r)
  | _ => (a, s)
  end.

Fixpoint seq_of (ts : list regex) : regex :=
  match ts with
  | [] => Eps
  | [t] => t
  | t :: ts' => Seq t (seq_of ts')
  end.

Fixpoint alt_of (alts : list (list regex)) : regex :=
  match alts with
  | [] => Eps
  | [a] => seq_of a
  | a :: alts' => Alt (seq_of a) (alt_of alts')
  end.

Definition cons_term (t : regex) (alts : list (list regex)) : list (list regex) :=
  match alts with
  | [] => [[t]]
  | a :: alts' => (t :: a) :: alts'
  end.

(** [parse_disj] reads a disjunction up to the end of the input or an
    unmatched closing parenthesis, as a list of alternatives, each a list of
    terms; [parse_term] reads one term. A quantifier with nothing to repeat
    (at the start of an alternative, after an assertion or after another
    quantifier) is an error. *)
Fixpoint parse_disj (n : nat) (s : list ascii) {struct n}
  : option (list (list regex) * list ascii) :=
  match n with
  | 0 => None
  | S n' =>
      match s with
      | [] => Some ([[]], [])
      | ")" :: _ => Some ([[]], s)
      | "|" :: r =>
          match parse_disj n' r with
          | Some (alts, rest) => Some ([] :: alts, rest)
          | None => None
          end
      | _ =>
          match parse_term n' s with
          | None => None
          | Some (t, r1) =>
              match parse_disj n' r1 with
              | Some (alts, rest) => Some (cons_term t alts, rest)
              | None => None
              end
          end
      end
  end
with parse_term (n : nat) (s : list ascii) {struct n} : option (regex * list ascii) :=
  match n with
  | 0 => None
  | S n' =>
      let group (wrap : regex -> regex) (quantifiable : bool) (body : list ascii) :=
        match parse_disj n' body with
        | Some (alts, ")" :: r) =>
            if quantifiable then Some (quantify (wrap (alt_of alts)) r)
            else Some (wrap (alt_of alts), r)
        | _ => None
        end in
      match s with
      | [] => None
      | "(" :: "?" :: ":" :: body => group Grp true body
      | "(" :: "?" :: "=" :: body => group (Look false) false body
      | "(" :: "?" :: "!" :: body => group (Look true) false body
      | "(" :: "?" :: _ => None
      | "(" :: body => group Grp true body
      | "[" :: "^" :: r =>
          match parse_class (S (length r)) r with
          | Some (items, r') => Some (quantify (Cls true items) r')
          | None => None
          end
      | "[" :: r =>
          match parse_class (S (length r)) r with
          | Some (items, r') => Some (quantify (Cls false items) r')
          | None => None
          end
      | "\" :: [] => None
      | "\" :: c :: r =>
          match class_escape c with
          | Some cs => Some (quantify (Cls false [cs]) r)
          | None =>
              if ceqb c "b" then Some (WordB false, r)
              else if ceqb c "B" then Some (WordB true, r)
              else match char_escape c with
                   | Some d => Some (quantify (Chr d) r)
                   | None => None
                   end
          end
      | "^" :: r => Some (Bol, r)
      | "$" :: r => Some (Eol, r)
      | "." :: r => Some (quantify Dot r)
      | "*" :: _ | "+" :: _ | "?" :: _ | "{" :: _ | ")" :: _ | "|" :: _ => None
      | c :: r => Some (quantify (Chr c) r)
      end
  end.

(** [new RegExp(src)]: the whole source must be one disjunction. *)
Definition compile_l (src : list ascii) : option regex :=
  match parse_disj (2 * length src + 2) src with
  | Some (alts, []) => Some (alt_of alts)
  | _ => None
  end.

Definition compile (src : string) : option regex := compile_l (chars src).

Local Close Scope char_scope.

(** *** Matching *)

Section Matcher.

(** The [i] flag, and the subject string. *)
Variable ignore_case : bool.
Variable s : list ascii.

Definition char_matches (c d : ascii) : bool :=
  if ignore_case then ceqb (canonicalize c) (canonicalize d) else ceqb c d.

(** The code units a class member has to contain for [d] to match it:
    [d] itself, and with the [i] flag every code unit with the same
    canonical form. *)
Definition candidates (d : ascii) : list ascii :=
  if ignore_case then [d; canonicalize d; uncanonicalize d] else [d].

Definition cset_has (it : cset) (d : ascii) : bool :=
  match it with
  | CsChar c => char_matches c d
  | CsRange lo hi => existsb (in_range lo hi) (candidates d)
  | CsDigit neg => xorb neg (is_digit d)
  | CsSpace neg => xorb neg (is_space d)
  | CsWord neg => xorb neg (is_word d)
  end.

Definition class_matches (invert : bool) (items : list cset) (d : ascii) : bool :=
  xorb invert (existsb (fun it => cset_has it d) items).

Definition word_at (i : nat) : bool :=
  match nth_error s i with
  | Some c => is_word c
  | None => false
  end.

(** A word boundary at [i]: exactly one of the code units before and at
    [i] is a word character. *)
Definition at_boundary (i : nat) : bool :=
  xorb (match i with 0 => false | S j => word_at j end) (word_at i).

Definition step_char (p : ascii -> bool) (i : nat) (k : nat -> option nat) : option nat :=
  match nth_error s i with
  | Some d => if p d then k (S i) else None
  | None => None
  end.

Definition or_else (x : option nat) (y : option nat) : option nat :=
  match x with
  | Some e => Some e
  | None => y
  end.

(** The iterations of a repetition after its minimum is met, at most [n]
    of them: an iteration that consumed nothing is refused, so the length
    of the subject bounds their number. A greedy repetition tries another
    iteration before the continuation, a lazy one after. *)
Fixpoint star_loop (step : nat -> (nat -> option nat) -> option nat)
    (greedy : bool) (k : nat -> option nat) (n i : nat) {struct n} : option nat :=
  match n with
  | 0 => None
  | S n' =>
      let again := step i (fun j => if j =? i then None else star_loop step greedy k n' j) in
      if greedy then or_else again (k i) else or_else (k i) again
  end.

(** [m r i k]: match [r] at position [i] and continue with [k] at the end
    position; the result is the end of the whole match. Alternatives are
    tried in priority order, so the first success is the match the engine
    reports. *)
Fixpoint m (r : regex) (i : nat) (k : nat -> option nat) {struct r} : option nat :=
  match r with
  | Eps => k i
  | Chr c => step_char (char_matches c) i k
  | Dot => step_char (fun d => negb (is_line_terminator d)) i k
  | Cls invert items => step_char (class_matches invert items) i k
  | Bol => if i =? 0 then k i else None
  | Eol => if i =? length s then k i else None
  | WordB neg => if xorb neg (at_boundary i) then k i else None
  | Seq a b => m a i (fun j => m b j k)
  | Alt a b => or_else (m a i k) (m b i k)
  | Grp a => m a i k
  | Look neg a =>
      match m a i Some with
      | Some _ => if neg then None else k i
      | None => if neg then k i else None
      end
  | Star greedy a => star_loop (m a) greedy k (S (length s)) i
  | Plus greedy a => m a i (fun j => star_loop (m a) greedy k (S (length s)) j)
  | Opt greedy a =>
      let once := m a i (fun j => if j =? i then None else k j) in
      if greedy then or_else once (k i) else or_else (k i) once
  end.

(** The first start position, from [i] on, at which [r] matches, with the
    end of that match. *)
Fixpoint search (r : regex) (n i : nat) : option (nat * nat) :=
  match m r i Some with
  | Some e => Some (i, e)
  | None =>
      match n with
      | 0 => None
      | S n' => search r n' (S i)
      end
  end.

(** [RegExp.prototype.exec] without the global and sticky flags. *)
Definition exec (r : regex) : option (nat * nat) := search r (length s) 0.

End Matcher.

(** [regex.test(s)]. *)
Definition test (ignore_case : bool) (r : regex) (s : list ascii) : bool :=
  match exec ignore_case s r with
  | Some _ => true
  | None => false
  end.

(** [s.match(regex)?.[0]]: the matched text, when there is a match. *)
Definition match0 (ignore_case : bool) (r : regex) (s : list ascii) : option (list ascii) :=
  match exec ignore_case s r with
  | Some (i, e) => Some (firstn (e - i) (skipn i s))
  | None => None
  end.

(** [s.replace(regex, '')] for a regex without the global flag: the first
    match is removed. *)
Definition remove_first (r : regex) (s : list ascii) : list ascii :=
  match exec false s r with
  | Some (i, e) => firstn i s ++ skipn e s
  | None => s
  end.

(** A regex literal of the source text. *)
Definition literal (src : string) : regex :=
  match compile src with
  | Some r => r
  | None => Eps
  end.

(** *** What a match is

    The declarative reading of a regex, against which the backtracking
    matcher is checked below: [Matches ic s r i j] says that [r] matches the
    code units of [s] from position [i] up to position [j]. *)

Section Semantics.

Variable ignore_case : bool.
Variable s : list ascii.

Definition one_char (p : ascii -> bool) (i j : nat) : Prop :=
  exists d, nth_error s i = Some d /\ p d = true /\ j = S i.

Fixpoint Matches (r : regex) (i j : nat) {struct r} : Prop :=
  match r with
  | Eps => j = i
  | Chr c => one_char (char_matches ignore_case c) i j
  | Dot => one_char (fun d => negb (is_line_terminator d)) i j
  | Cls invert items => one_char (class_matches ignore_case invert items) i j
  | Bol => i = 0 /\ j = i
  | Eol => i = length s /\ j = i
  | WordB neg => xorb neg (at_boundary s i) = true /\ j = i
  | Seq a b => exists x, Matches a i x /\ Matches b x j
  | Alt a b => Matches a i j \/ Matches b i j
  | Grp a => Matches a i j
  | Look neg a =>
      j = i /\ if neg then ~ (exists e, Matches a i e) else exists e, Matches a i e
  | Star _ a => rtc (Matches a) i j
  | Plus _ a => exists x, Matches a i x /\ rtc (Matches a) x j
  | Opt _ a => Matches a i j \/ j = i
  end.

(** The regex matches somewhere in the subject. *)
Definition matches_anywhere (r : regex) : Prop :=
  exists i j, i <= length s /\ Matches r i j.

End Semantics.

(** The text every case-sensitive match of [r] starts with, and whether a
    match of [r] is exactly that text. *)
Fixpoint literal_prefix (r : regex) : list ascii * bool :=
  match r with
  | Eps | Bol | Eol | WordB _ | Look _ _ => ([], true)
  | Chr c => ([c], true)
  | Seq a b =>
      let (pa, whole_a) := literal_prefix a in
      if whole_a then
        let (pb, whole_b) := literal_prefix b in (pa ++ pb, whole_b)
      else (pa, false)
  | Grp a => literal_prefix a
  | Plus _ a => (fst (literal_prefix a), false)
  | _ => ([], false)
  end.

End RegExp.

(* ===================================================================== *)
(** ** patterns.ts: rules, pattern matcher, path classifier, shell classifier *)
(* ===================================================================== *)

Module Patterns.
Import JsStr.
Local Open Scope string_scope.

Inductive Action : Type := block | ask.

Record Pattern : Type := mkPattern {
  pattern : string;
  reason : string;
  action : Action
}.

Inductive ProtectionLevel : Type := zeroAccess | readOnly | noDelete.

Record ProtectedPath : Type := mkProtectedPath {
  path : string;
  level : ProtectionLevel
}.

Inductive Operation : Type := OpAccess | OpWrite | OpDelete.

(** The pattern sources are the run-time strings: the source text writes each
    backslash twice. *)
Definition DEFAULT_PATTERNS : list Pattern := [
  {| pattern := "rm\s+-rf\s+/"; reason := "Recursive delete from root"; action := block |};
  {| pattern := ":\(\)\ \{:"; reason := "Fork bomb"; action := block |};
  {| pattern := "fork\(\)"; reason := "Fork bomb"; action := block |};
  {| pattern := ">\s*/dev/sd"; reason := "Direct device write"; action := block |};
  {| pattern := "mkfs\."; reason := "Format filesystem"; action := block |};
  {| pattern := "kill\s+-9\s+-1"; reason := "Kill all processes"; action := block |};
  {| pattern := "killall\s+-9"; reason := "Kill all processes"; action := block |};
  {| pattern := "pkill\s+-9"; reason := "pkill -9"; action := block |};
  {| pattern := "shutdown"; reason := "System shutdown"; action := block |};
  {| pattern := "reboot"; reason := "System reboot"; action := block |};
  {| pattern := "init\s+0"; reason := "System halt"; action := block |};
  {| pattern := "format\s+[a-z]:"; reason := "Windows format"; action := block |};
  {| pattern := "dd\s+.*of=/dev/"; reason := "dd writing to device"; action := block |};
  {| pattern := "DROP\s+TABLE"; reason := "SQL DROP TABLE"; action := block |};
  {| pattern := "DROP\s+DATABASE"; reason := "SQL DROP DATABASE"; action := block |};
  {| pattern := "DELETE\s+FROM\s+\w+\s*;"; reason := "SQL DELETE without WHERE clause"; action := block |};
  {| pattern := "DELETE\s+FROM\s+\w+\s*$"; reason := "SQL DELETE without WHERE clause"; action := block |};
  {| pattern := "DELETE\s+\*\s+FROM"; reason := "SQL DELETE * (will delete ALL rows)"; action := block |};
  {| pattern := "TRUNCATE\s+TABLE"; reason := "SQL TRUNCATE TABLE"; action := block |};
  {| pattern := "DELETE\s+FROM\s+\w+\s+WHERE\b"; reason := "SQL DELETE with WHERE clause"; action := ask |};
  {| pattern := "curl.*\|\s*sh"; reason := "Pipe curl to shell"; action := block |};
  {| pattern := "wget.*\|\s*sh"; reason := "Pipe wget to shell"; action := block |};
  {| pattern := "git\s+push\s+.*--force(?!-with-lease)"; reason := "git push --force (use --force-with-lease)"; action := block |};
  {| pattern := "git\s+push\s+(-[^\s]*)*-f\b"; reason := "git push -f (use --force-with-lease)"; action := block |};
  {| pattern := "git\s+stash\s+clear"; reason := "git stash clear (deletes ALL stashes)"; action := block |};
  {| pattern := "git\s+filter-branch"; reason := "git filter-branch (rewrites entire history)"; action := block |};
  {| pattern := "git\s+reflog\s+expire"; reason := "git reflog expire (destroys recovery mechanism)"; action := block |};
  {| pattern := "git\s+gc\s+.*--prune=now"; reason := "git gc --prune=now (can lose dangling commits)"; action := block |};
  {| pattern := "git\s+reset\s+--hard"; reason := "git reset --hard (use --soft or stash)"; action := ask |};
  {| pattern := "git\s+clean\s+(-[^\s]*)*-[fd]"; reason := "git clean with force/directory flags"; action := ask |};
  {| pattern := "git\s+checkout\s+--\s*\."; reason := "Discard all uncommitted changes"; action := ask |};
  {| pattern := "git\s+restore\s+\."; reason := "Discard all uncommitted changes"; action := ask |};
  {| pattern := "git\s+stash\s+drop"; reason := "Permanently deletes a stash"; action := ask |};
  {| pattern := "git\s+branch\s+(-[^\s]*)*-D"; reason := "Force delete branch (even if unmerged)"; action := ask |};
  {| pattern := "git\s+push\s+--delete"; reason := "Delete remote branch"; action := ask |};
  {| pattern := "git\s+push\s+\S+\s+:\S+"; reason := "Delete remote branch (refspec syntax)"; action := ask |};
  {| pattern := "docker\s+rm\s+.*-f.*\$\(docker\s+ps"; reason := "docker rm -f $(docker ps) (force removes containers)"; action := block |};
  {| pattern := "gcloud\s+storage\s+rm\s+.*-r"; reason := "gcloud storage rm -r (recursive delete)"; action := ask |};
  {| pattern := "sudo\s+rm\b"; reason := "sudo rm"; action := block |};
  {| pattern := "\brm\s+(-[^\s]*)*-[rRf]"; reason := "rm with recursive or force flags"; action := ask |};
  {| pattern := "\brm\s+--recursive"; reason := "rm with --recursive flag"; action := ask |};
  {| pattern := "\brm\s+--force"; reason := "rm with --force flag"; action := ask |};
  {| pattern := "\brmdir\s+--ignore-fail-on-non-empty"; reason := "rmdir ignore-fail"; action := ask |};
  {| pattern := "chmod\s+(-[^\s]+\s+)*777"; reason := "chmod 777 (world writable)"; action := ask |};
  {| pattern := "chmod\s+-[Rr].*777"; reason := "Recursive chmod 777"; action := ask |};
  {| pattern := "chown\s+-[Rr]"; reason := "Recursive ownership change"; action := ask |};
  {| pattern := "terraform\s+destroy"; reason := "terraform destroy"; action := block |};
  {| pattern := "pulumi\s+destroy"; reason := "pulumi destroy"; action := block |};
  {| pattern := "aws\s+s3\s+rm\s+.*--recursive"; reason := "aws s3 rm --recursive"; action := block |};
  {| pattern := "aws\s+s3\s+rb\s+.*--force"; reason := "aws s3 rb --force"; action := block |};
  {| pattern := "aws\s+ec2\s+terminate-instances"; reason := "aws ec2 terminate-instances"; action := ask |};
  {| pattern := "aws\s+rds\s+delete-db-instance"; reason := "aws rds delete-db-instance"; action := ask |};
  {| pattern := "aws\s+cloudformation\s+delete-stack"; reason := "aws cloudformation delete-stack"; action := ask |};
  {| pattern := "aws\s+dynamodb\s+delete-table"; reason := "aws dynamodb delete-table"; action := ask |};
  {| pattern := "aws\s+eks\s+delete-cluster"; reason := "aws eks delete-cluster"; action := ask |};
  {| pattern := "aws\s+lambda\s+delete-function"; reason := "aws lambda delete-function"; action := ask |};
  {| pattern := "aws\s+iam\s+delete-role"; reason := "aws iam delete-role"; action := ask |};
  {| pattern := "aws\s+iam\s+delete-user"; reason := "aws iam delete-user"; action := ask |};
  {| pattern := "gcloud\s+projects\s+delete"; reason := "gcloud projects delete"; action := block |};
  {| pattern := "gcloud\s+compute\s+instances\s+delete"; reason := "gcloud compute instances delete"; action := ask |};
  {| pattern := "gcloud\s+sql\s+instances\s+delete"; reason := "gcloud sql instances delete"; action := ask |};
  {| pattern := "gcloud\s+container\s+clusters\s+delete"; reason := "gcloud container clusters delete"; action := ask |};
  {| pattern := "gcloud\s+functions\s+delete"; reason := "gcloud functions delete"; action := ask |};
  {| pattern := "gcloud\s+iam\s+service-accounts\s+delete"; reason := "gcloud iam service-accounts delete"; action := ask |};
  {| pattern := "docker\s+system\s+prune\s+.*-a"; reason := "docker system prune -a"; action := ask |};
  {| pattern := "docker\s+rmi\s+.*-f"; reason := "docker rmi -f (force removes images)"; action := ask |};
  {| pattern := "docker\s+volume\s+rm"; reason := "docker volume rm (data loss)"; action := ask |};
  {| pattern := "docker\s+volume\s+prune"; reason := "docker volume prune"; action := ask |};
  {| pattern := "kubectl\s+delete\s+namespace"; reason := "kubectl delete namespace"; action := ask |};
  {| pattern := "kubectl\s+delete\s+all\s+--all"; reason := "kubectl delete all --all"; action := block |};
  {| pattern := "kubectl\s+delete\s+.*--all\s+--all-namespaces"; reason := "kubectl delete across all namespaces"; action := block |};
  {| pattern := "helm\s+uninstall"; reason := "helm uninstall"; action := ask |};
  {| pattern := "redis-cli\s+FLUSHALL"; reason := "redis FLUSHALL"; action := block |};
  {| pattern := "redis-cli\s+FLUSHDB"; reason := "redis FLUSHDB"; action := ask |};
  {| pattern := "dropdb\b"; reason := "PostgreSQL dropdb"; action := block |};
  {| pattern := "mysqladmin\s+drop"; reason := "MySQL drop database"; action := block |};
  {| pattern := "mongosh.*dropDatabase"; reason := "MongoDB dropDatabase"; action := block |};
  {| pattern := "mongo.*dropDatabase"; reason := "MongoDB dropDatabase (legacy shell)"; action := block |};
  {| pattern := "vercel\s+remove\s+.*--yes"; reason := "vercel remove --yes"; action := ask |};
  {| pattern := "vercel\s+projects\s+rm"; reason := "vercel projects rm"; action := ask |};
  {| pattern := "vercel\s+env\s+rm\s+.*--yes"; reason := "vercel env rm --yes"; action := ask |};
  {| pattern := "netlify\s+sites:delete"; reason := "netlify sites:delete"; action := ask |};
  {| pattern := "netlify\s+functions:delete"; reason := "netlify functions:delete"; action := ask |};
  {| pattern := "heroku\s+apps:destroy"; reason := "heroku apps:destroy"; action := ask |};
  {| pattern := "heroku\s+pg:reset"; reason := "heroku pg:reset"; action := ask |};
  {| pattern := "fly\s+apps\s+destroy"; reason := "fly apps destroy"; action := ask |};
  {| pattern := "fly\s+destroy"; reason := "fly destroy"; action := ask |};
  {| pattern := "wrangler\s+delete"; reason := "wrangler delete (Cloudflare Worker)"; action := ask |};
  {| pattern := "wrangler\s+r2\s+bucket\s+delete"; reason := "wrangler r2 bucket delete"; action := ask |};
  {| pattern := "wrangler\s+kv:namespace\s+delete"; reason := "wrangler kv:namespace delete"; action := ask |};
  {| pattern := "wrangler\s+d1\s+delete"; reason := "wrangler d1 delete"; action := ask |};
  {| pattern := "wrangler\s+queues\s+delete"; reason := "wrangler queues delete"; action := ask |};
  {| pattern := "firebase\s+projects:delete"; reason := "firebase projects:delete"; action := block |};
  {| pattern := "firebase\s+firestore:delete\s+.*--all-collections"; reason := "firebase firestore:delete --all-collections"; action := block |};
  {| pattern := "firebase\s+database:remove"; reason := "firebase database:remove"; action := ask |};
  {| pattern := "firebase\s+hosting:disable"; reason := "firebase hosting:disable"; action := ask |};
  {| pattern := "firebase\s+functions:delete"; reason := "firebase functions:delete"; action := ask |};
  {| pattern := "serverless\s+remove"; reason := "serverless remove (removes stack)"; action := ask |};
  {| pattern := "sls\s+remove"; reason := "sls remove (removes stack)"; action := ask |};
  {| pattern := "sam\s+delete"; reason := "sam delete (deletes SAM application)"; action := ask |};
  {| pattern := "doctl\s+compute\s+droplet\s+delete"; reason := "doctl droplet delete"; action := ask |};
  {| pattern := "doctl\s+databases\s+delete"; reason := "doctl databases delete"; action := ask |};
  {| pattern := "supabase\s+db\s+reset"; reason := "supabase db reset"; action := ask |};
  {| pattern := "npm\s+unpublish"; reason := "npm unpublish"; action := block |};
  {| pattern := "gh\s+repo\s+delete"; reason := "gh repo delete"; action := block |};
  {| pattern := "history\s+-c"; reason := "Clear shell history"; action := ask |}
].

Definition DEFAULT_PROTECTED_PATHS : list ProtectedPath := [
  {| path := "~/.ssh"; level := zeroAccess |};
  {| path := "~/.aws"; level := zeroAccess |};
  {| path := "~/.gnupg"; level := zeroAccess |};
  {| path := "~/.config/gcloud"; level := zeroAccess |};
  {| path := "~/.azure"; level := zeroAccess |};
  {| path := "~/.kube"; level := zeroAccess |};
  {| path := "~/.docker"; level := zeroAccess |};
  {| path := "/etc/passwd"; level := zeroAccess |};
  {| path := "/etc/shadow"; level := zeroAccess |};
  {| path := "~/.config/opencode"; level := zeroAccess |};
  {| path := "~/.netrc"; level := zeroAccess |};
  {| path := "~/.npmrc"; level := zeroAccess |};
  {| path := "~/.pypirc"; level := zeroAccess |};
  {| path := "~/.git-credentials"; level := zeroAccess |};
  {| path := ".git-credentials"; level := zeroAccess |};
  {| path := ".env*"; level := zeroAccess |};
  {| path := "*.pem"; level := zeroAccess |};
  {| path := "*.key"; level := zeroAccess |};
  {| path := "*.p12"; level := zeroAccess |};
  {| path := "*.pfx"; level := zeroAccess |};
  {| path := "*.tfstate*"; level := zeroAccess |};
  {| path := ".terraform/"; level := zeroAccess |};
  {| path := "*-credentials.json"; level := zeroAccess |};
  {| path := "*serviceAccount*.json"; level := zeroAccess |};
  {| path := "*service-account*.json"; level := zeroAccess |};
  {| path := "serviceAccountKey.json"; level := zeroAccess |};
  {| path := "kubeconfig"; level := zeroAccess |};
  {| path := "*-secret.yaml"; level := zeroAccess |};
  {| path := "secrets.yaml"; level := zeroAccess |};
  {| path := ".vercel/"; level := zeroAccess |};
  {| path := ".netlify/"; level := zeroAccess |};
  {| path := "firebase-adminsdk*.json"; level := zeroAccess |};
  {| path := ".supabase/"; level := zeroAccess |};
  {| path := "dump.sql"; level := zeroAccess |};
  {| path := "backup.sql"; level := zeroAccess |};
  {| path := "*.dump"; level := zeroAccess |};
  {| path := "/etc/"; level := readOnly |};
  {| path := "/usr/"; level := readOnly |};
  {| path := "/bin/"; level := readOnly |};
  {| path := "/sbin/"; level := readOnly |};
  {| path := "/boot/"; level := readOnly |};
  {| path := "/root/"; level := readOnly |};
  {| path := "~/.bash_history"; level := readOnly |};
  {| path := "~/.zsh_history"; level := readOnly |};
  {| path := "~/.node_repl_history"; level := readOnly |};
  {| path := "~/.bashrc"; level := readOnly |};
  {| path := "~/.zshrc"; level := readOnly |};
  {| path := "~/.profile"; level := readOnly |};
  {| path := "~/.bash_profile"; level := readOnly |};
  {| path := "package-lock.json"; level := readOnly |};
  {| path := "yarn.lock"; level := readOnly |};
  {| path := "pnpm-lock.yaml"; level := readOnly |};
  {| path := "Gemfile.lock"; level := readOnly |};
  {| path := "Cargo.lock"; level := readOnly |};
  {| path := "poetry.lock"; level := readOnly |};
  {| path := "composer.lock"; level := readOnly |};
  {| path := "go.sum"; level := readOnly |};
  {| path := "Pipfile.lock"; level := readOnly |};
  {| path := "flake.lock"; level := readOnly |};
  {| path := "bun.lockb"; level := readOnly |};
  {| path := "uv.lock"; level := readOnly |};
  {| path := "npm-shrinkwrap.json"; level := readOnly |};
  {| path := "*.lock"; level := readOnly |};
  {| path := "*.lockb"; level := readOnly |};
  {| path := "*.min.js"; level := readOnly |};
  {| path := "*.min.css"; level := readOnly |};
  {| path := "*.bundle.js"; level := readOnly |};
  {| path := "*.chunk.js"; level := readOnly |};
  {| path := "dist/"; level := readOnly |};
  {| path := "build/"; level := readOnly |};
  {| path := "out/"; level := readOnly |};
  {| path := ".next/"; level := readOnly |};
  {| path := ".nuxt/"; level := readOnly |};
  {| path := ".output/"; level := readOnly |};
  {| path := "node_modules/"; level := readOnly |};
  {| path := "__pycache__/"; level := readOnly |};
  {| path := ".venv/"; level := readOnly |};
  {| path := "venv/"; level := readOnly |};
  {| path := "target/"; level := readOnly |};
  {| path := "~/.claude/"; level := noDelete |};
  {| path := "CLAUDE.md"; level := noDelete |};
  {| path := "LICENSE*"; level := noDelete |};
  {| path := "COPYING*"; level := noDelete |};
  {| path := "NOTICE"; level := noDelete |};
  {| path := "PATENTS"; level := noDelete |};
  {| path := "README*"; level := noDelete |};
  {| path := "CONTRIBUTING.md"; level := noDelete |};
  {| path := "CHANGELOG.md"; level := noDelete |};
  {| path := "CODE_OF_CONDUCT.md"; level := noDelete |};
  {| path := "SECURITY.md"; level := noDelete |};
  {| path := ".git/"; level := noDelete |};
  {| path := ".gitignore"; level := noDelete |};
  {| path := ".gitattributes"; level := noDelete |};
  {| path := ".gitmodules"; level := noDelete |};
  {| path := ".github/"; level := noDelete |};
  {| path := ".gitlab-ci.yml"; level := noDelete |};
  {| path := ".circleci/"; level := noDelete |};
  {| path := "Jenkinsfile"; level := noDelete |};
  {| path := ".travis.yml"; level := noDelete |};
  {| path := "azure-pipelines.yml"; level := noDelete |};
  {| path := "Dockerfile*"; level := noDelete |};
  {| path := "docker-compose*.yml"; level := noDelete |};
  {| path := ".dockerignore"; level := noDelete |}
].

(** [x || d] for an optional string [x]: the empty string is falsy. *)
Definition or_default (x : option (list ascii)) (d : string) : string :=
  match x with
  | Some (c :: l) => str (c :: l)
  | Some [] | None => d
  end.

Fixpoint matchPattern (command : string) (patterns : list Pattern)
  : result (option (string * Pattern)) :=
  match patterns with
  | [] => Ok None
  | p :: rest =>
      match RegExp.compile (pattern p) with
      | None => Throw (SyntaxError (pattern p))
      | Some regex =>
          if RegExp.test true regex (chars command)
          then Ok (Some (or_default (RegExp.match0 true regex (chars command)) (pattern p), p))
          else matchPattern command rest
      end
  end.

(** The class [[.+^${}()|[\]\\]] of the first replacement in [globToRegex]. *)
Definition escaped_chars : list ascii := chars ".+^${}()|[]\".

(** [glob.replace(/[.+^${}()|[\]\\]/g, '\\$&')] *)
Definition escape_glob (glob : list ascii) : list ascii :=
  flat_map (fun c => if existsb (ceqb c) escaped_chars then ["\"%char; c] else [c]) glob.

(** [escaped.replace(/\*/g, '.*')] *)
Definition expand_stars (escaped : list ascii) : list ascii :=
  flat_map (fun c => if ceqb c "*" then ["."%char; "*"%char] else [c]) escaped.

Definition glob_source (glob : string) : list ascii :=
  "^"%char :: expand_stars (escape_glob (chars glob)) ++ ["$"%char].

Definition globToRegex (glob : string) : result RegExp.regex :=
  let src := glob_source glob in
  match RegExp.compile_l src with
  | Some r => Ok r
  | None => Throw (SyntaxError (str src))
  end.

Definition isGlobPattern (path : string) : bool := includes path "*".

Definition basename (filePath : list ascii) : list ascii :=
  let trimmed := RegExp.remove_first (RegExp.literal "\/+$") filePath in
  let idx := lastIndexOf trimmed "/" in
  if (idx =? -1)%Z then trimmed else slice trimmed (idx + 1)%Z.

Section Env.

(** [process.env.HOME], possibly unset. *)
Variable HOME : option string.

(** [process.env.HOME || ''] *)
Definition home : string :=
  match HOME with
  | Some h => h
  | None => ""
  end.

Definition expandHome (p : string) : string := replace p "~" home.

Fixpoint checkPathProtection (filePath : string) (protectedPaths : list ProtectedPath)
  : result (option ProtectedPath) :=
  match protectedPaths with
  | [] => Ok None
  | p :: rest =>
      if isGlobPattern (path p) then
        let name := basename (chars filePath) in
        match globToRegex (path p) with
        | Throw e => Throw e
        | Ok regex =>
            if RegExp.test false regex name then Ok (Some p)
            else checkPathProtection filePath rest
        end
      else
        let expandedPath := replace (path p) "~" home in
        if includes filePath expandedPath || includes filePath (path p)
        then Ok (Some p)
        else checkPathProtection filePath rest
  end.

(** Patterns that indicate a shell command writes or modifies files. *)
Definition SHELL_WRITE_OPS_src : list string := [
  "(?:^|[;&|]\s*)(?:>|>>)\s*";
  "\btee\s+(?:-a\s+)?";
  "\bsed\s+(-[^\s]*\s+)*-i";
  "\bsed\s+--in-place";
  "\bcp\s+";
  "\bmv\s+";
  "\bchmod\s+";
  "\bchown\s+";
  "\bln\s+";
  "\binstall\s+";
  "\bpatch\s+";
  "\btruncate\s+";
  "\bdd\s+";
  "\btouch\s+";
  "\bmkdir\s+";
  "\becho\s+.*(?:>|>>)\s*";
  "\bprintf\s+.*(?:>|>>)\s*";
  "\bcat\s+.*(?:>|>>)\s*"
].

Definition SHELL_WRITE_OPS : list RegExp.regex := map RegExp.literal SHELL_WRITE_OPS_src.

(** Patterns that indicate a shell command deletes files. *)
Definition SHELL_DELETE_OPS_src : list string := [
  "\brm\s+";
  "\bunlink\s+";
  "\brmdir\s+";
  "\bshred\s+"
].

Definition SHELL_DELETE_OPS : list RegExp.regex := map RegExp.literal SHELL_DELETE_OPS_src.

(** The loop over the tokens of [commandReferencesPath]:
    [if (name && regex.test(name)) return true]. *)
Fixpoint any_token_matches (regex : RegExp.regex) (tokens : list (list ascii)) : bool :=
  match tokens with
  | [] => false
  | token :: rest =>
      let name := basename token in
      match name with
      | [] => any_token_matches regex rest
      | _ :: _ =>
          if RegExp.test false regex name then true
          else any_token_matches regex rest
      end
  end.

Definition commandReferencesPath (command protPath : string) : result bool :=
  if isGlobPattern protPath then
    match globToRegex protPath with
    | Throw e => Throw e
    | Ok regex => Ok (any_token_matches regex (split_ws (chars command)))
    end
  else
    let expanded := replace protPath "~" home in
    Ok (includes command expanded || includes command protPath).

(** [for (const op of ops) if (op.test(command)) return true; return false] *)
Fixpoint any_op_matches (ops : list RegExp.regex) (command : string) : bool :=
  match ops with
  | [] => false
  | op :: rest =>
      if RegExp.test false op (chars command) then true
      else any_op_matches rest command
  end.

Definition isShellWrite (command protPath : string) : result bool :=
  match commandReferencesPath command protPath with
  | Throw e => Throw e
  | Ok false => Ok false
  | Ok true => Ok (any_op_matches SHELL_WRITE_OPS command)
  end.

Definition isShellDelete (command protPath : string) : result bool :=
  match commandReferencesPath command protPath with
  | Throw e => Throw e
  | Ok false => Ok false
  | Ok true => Ok (any_op_matches SHELL_DELETE_OPS command)
  end.

Fixpoint checkShellPathViolation (command : string) (protectedPaths : list ProtectedPath)
  : result (option (ProtectedPath * Operation)) :=
  match protectedPaths with
  | [] => Ok None
  | p :: rest =>
      match level p with
      | zeroAccess =>
          match commandReferencesPath command (path p) with
          | Throw e => Throw e
          | Ok true => Ok (Some (p, OpAccess))
          | Ok false => checkShellPathViolation command rest
          end
      | readOnly =>
          match isShellWrite command (path p) with
          | Throw e => Throw e
          | Ok true => Ok (Some (p, OpWrite))
          | Ok false =>
              match isShellDelete command (path p) with
              | Throw e => Throw e
              | Ok true => Ok (Some (p, OpDelete))
              | Ok false => checkShellPathViolation command rest
              end
          end
      | noDelete =>
          match isShellDelete command (path p) with
          | Throw e => Throw e
          | Ok true => Ok (Some (p, OpDelete))
          | Ok false => checkShellPathViolation command rest
          end
      end
  end.

End Env.

End Patterns.

(* ===================================================================== *)
(** ** config.ts: validation, merge and application of overlays *)
(* ===================================================================== *)

Module Config.
Import JsStr Patterns.
Local Open Scope string_scope.
Local Open Scope list_scope.

(** *** Configuration types *)

(** [ProtectionLevel | 'none'] *)
Inductive LevelOrNone : Type :=
| Level (l : ProtectionLevel)
| none.

Record PatternsConfig : Type := mkPatternsConfig {
  pc_add : option (list Pattern);
  pc_remove : option (list string);
  pc_override : option (gmap string Action)
}.

Record PathsConfig : Type := mkPathsConfig {
  pathc_add : option (list ProtectedPath);
  pathc_remove : option (list string);
  pathc_override : option (gmap string LevelOrNone)
}.

Record DamageControlConfig : Type := mkConfig {
  cfg_patterns : option PatternsConfig;
  cfg_paths : option PathsConfig
}.

(** The config [{}]. *)
Definition empty_config : DamageControlConfig :=
  {| cfg_patterns := None; cfg_paths := None |}.

(** *** Parsed JSON *)

(** What [JSON.parse] returns. A number is carried as its decimal rendering;
    an object is the list of its own properties in enumeration order. *)
Inductive json : Type :=
| JNull
| JBool (b : bool)
| JNumber (repr : string)
| JString (s : string)
| JArray (items : list json)
| JObject (props : list (string * json)).

(** [o[k]] on the own properties; [None] is [undefined]. *)
Fixpoint lookup_prop (k : string) (props : list (string * json)) : option json :=
  match props with
  | [] => None
  | (k', v) :: rest => if String.eqb k k' then Some v else lookup_prop k rest
  end.

(** [v.k] for a value that passed [isObject]. *)
Definition prop (v : json) (k : string) : option json :=
  match v with
  | JObject props => lookup_prop k props
  | _ => None
  end.

Definition dq : string := String (ascii_of_nat 34) EmptyString.

(** The string conversion of a template literal, [`${v}`]. A primitive has
    its usual text. An array joins the conversions of its elements with
    commas, [null] elements giving the empty string. An object goes through
    OrdinaryToPrimitive: the inherited [toString] gives [[object Object]];
    an own property named [toString] hides it, and since a parsed value is
    never callable and the inherited [valueOf] returns the object itself,
    the conversion raises a [TypeError]. *)
Fixpoint ToString (v : json) : result string :=
  match v with
  | JNull => Ok "null"
  | JBool true => Ok "true"
  | JBool false => Ok "false"
  | JNumber repr => Ok repr
  | JString s => Ok s
  | JArray items =>
      (fix join (first : bool) (l : list json) {struct l} : result string :=
         match l with
         | [] => Ok ""
         | x :: rest =>
             match (match x with JNull => Ok "" | _ => ToString x end) with
             | Throw e => Throw e
             | Ok a =>
                 match join false rest with
                 | Throw e => Throw e
                 | Ok b => Ok ((if first then "" else ",") +:+ a +:+ b)
                 end
             end
         end) true items
  | JObject props =>
      match lookup_prop "toString" props with
      | Some _ => Throw (TypeError "Cannot convert object to primitive value")
      | None => Ok "[object Object]"
      end
  end.

(** [JSON.stringify(key)] for a string: quoted, with the quote, the
    backslash and the control characters escaped. *)
Definition hex_digit (n : nat) : ascii :=
  if Nat.ltb n 10 then ascii_of_nat (48 + n) else ascii_of_nat (87 + n).

Definition quote_char (c : ascii) : list ascii :=
  let n := code c in
  if Nat.eqb n 34 then ["\"%char; c]
  else if Nat.eqb n 92 then ["\"%char; c]
  else if Nat.eqb n 8 then ["\"%char; "b"%char]
  else if Nat.eqb n 9 then ["\"%char; "t"%char]
  else if Nat.eqb n 10 then ["\"%char; "n"%char]
  else if Nat.eqb n 12 then ["\"%char; "f"%char]
  else if Nat.eqb n 13 then ["\"%char; "r"%char]
  else if Nat.ltb n 32 then
    ["\"%char; "u"%char; "0"%char; "0"%char; hex_digit (n / 16); hex_digit (n mod 16)]
  else [c].

Definition JSON_stringify (key : string) : string :=
  dq +:+ str (flat_map quote_char (chars key)) +:+ dq.

(** *** Validation *)

Definition VALID_ACTIONS : list string := ["block"; "ask"].
Definition VALID_LEVELS : list string := ["zeroAccess"; "readOnly"; "noDelete"; "none"].

(** [set.has(v)] for a set of strings and any value. *)
Definition has (set : list string) (v : option json) : bool :=
  match v with
  | Some (JString s) => existsb (String.eqb s) set
  | _ => false
  end.

Definition isObject (v : option json) : bool :=
  match v with
  | Some (JObject _) => true
  | _ => false
  end.

Definition isArray (v : option json) : bool :=
  match v with
  | Some (JArray _) => true
  | _ => false
  end.

(** [typeof v === 'string'] *)
Definition isString (v : option json) : bool :=
  match v with
  | Some (JString _) => true
  | _ => false
  end.

Definition isValidPattern (v : json) : bool :=
  isObject (Some v) &&
  isString (prop v "pattern") &&
  isString (prop v "reason") &&
  has VALID_ACTIONS (prop v "action").

Definition isValidProtectedPath (v : json) : bool :=
  isObject (Some v) &&
  isString (prop v "path") &&
  has VALID_LEVELS (prop v "level") &&
  negb (match prop v "level" with Some (JString "none") => true | _ => false end).

(** The casts [v as string], [v as Action], [v as ProtectionLevel | 'none'],
    used on values that passed the corresponding test. *)
Definition asString (v : option json) : string :=
  match v with
  | Some (JString s) => s
  | _ => ""
  end.

Definition asAction (v : option json) : Action :=
  match v with
  | Some (JString "ask") => ask
  | _ => block
  end.

Definition asLevelOrNone (v : option json) : LevelOrNone :=
  match v with
  | Some (JString "zeroAccess") => Level zeroAccess
  | Some (JString "readOnly") => Level readOnly
  | Some (JString "noDelete") => Level noDelete
  | _ => none
  end.

Definition asLevel (v : option json) : ProtectionLevel :=
  match asLevelOrNone v with
  | Level l => l
  | none => zeroAccess
  end.

Definition asPattern (v : json) : Pattern :=
  {| pattern := asString (prop v "pattern");
     reason := asString (prop v "reason");
     action := asAction (prop v "action") |}.

Definition asProtectedPath (v : json) : ProtectedPath :=
  {| path := asString (prop v "path");
     level := asLevel (prop v "level") |}.

(** The validator appends to [warnings] and can raise: a computation takes
    the warnings so far and returns its value with the warnings after. *)
Definition M (A : Type) : Type := list string -> result (A * list string).

Definition ret {A} (a : A) : M A := fun ws => Ok (a, ws).

Definition bind {A B} (c : M A) (f : A -> M B) : M B :=
  fun ws =>
    match c ws with
    | Ok (a, ws') => f a ws'
    | Throw e => Throw e
    end.

(** [warnings.push(w)] *)
Definition warn (w : string) : M unit := fun ws => Ok (tt, ws ++ [w]).

Definition lift {A} (r : result A) : M A :=
  fun ws =>
    match r with
    | Ok a => Ok (a, ws)
    | Throw e => Throw e
    end.

Declare Scope validate_scope.
Notation "'let!' x ':=' c 'in' k" := (bind c (fun x => k))
  (at level 10, x pattern, c at level 100, k at level 200) : validate_scope.
Notation "'run!' c 'in' k" := (bind c (fun _ => k))
  (at level 10, c at level 100, k at level 200) : validate_scope.
Local Open Scope validate_scope.

(** [valid.length > 0 ? valid : undefined], for the optional fields. *)
Definition nonempty {A} (l : list A) : option (list A) :=
  match l with
  | [] => None
  | _ :: _ => Some l
  end.

(** [Object.keys(valid).length > 0 ? valid : undefined] *)
Definition nonempty_map {V} (valid : gmap string V) : option (gmap string V) :=
  if decide (valid = ∅) then None else Some valid.

Section Validate.

Variable source : string.

(** The loop over [p.add] of the patterns section, from index [i]. *)
Fixpoint validate_patterns_add (i : nat) (items : list json) (valid : list Pattern)
  : M (list Pattern) :=
  match items with
  | [] => ret valid
  | v :: rest =>
      if isValidPattern v then validate_patterns_add (S i) rest (valid ++ [asPattern v])
      else
        run! warn (source +:+ ": " +:+ dq +:+ "patterns.add[" +:+ pretty i +:+ "]" +:+ dq
              +:+ " is invalid (need pattern, reason, action), skipping") in
        validate_patterns_add (S i) rest valid
  end.

Fixpoint validate_paths_add (i : nat) (items : list json) (valid : list ProtectedPath)
  : M (list ProtectedPath) :=
  match items with
  | [] => ret valid
  | v :: rest =>
      if isValidProtectedPath v then validate_paths_add (S i) rest (valid ++ [asProtectedPath v])
      else
        run! warn (source +:+ ": " +:+ dq +:+ "paths.add[" +:+ pretty i +:+ "]" +:+ dq
              +:+ " is invalid (need path, level), skipping") in
        validate_paths_add (S i) rest valid
  end.

(** [p.remove.filter((v) => typeof v === 'string')] and the warning when
    something was filtered out. *)
Definition validate_remove (field : string) (items : list json) : M (option (list string)) :=
  let valid := List.filter (fun v => isString (Some v)) items in
  run! (if Nat.eqb (length valid) (length items) then ret tt
        else warn (source +:+ ": some " +:+ dq +:+ field +:+ dq
                   +:+ " entries are not strings, skipping those")) in
  ret (nonempty (map (fun v => asString (Some v)) valid)).

(** The loop over [Object.entries(p.override)] of the patterns section. *)
Fixpoint validate_patterns_override (entries : list (string * json))
    (valid : gmap string Action) : M (gmap string Action) :=
  match entries with
  | [] => ret valid
  | (key, val) :: rest =>
      if has VALID_ACTIONS (Some val)
      then validate_patterns_override rest (<[key := asAction (Some val)]> valid)
      else
        let! shown := lift (ToString val) in
        run! warn (source +:+ ": " +:+ dq +:+ "patterns.override[" +:+ JSON_stringify key +:+ "]" +:+ dq
              +:+ " has invalid action " +:+ dq +:+ shown +:+ dq +:+ ", skipping") in
        validate_patterns_override rest valid
  end.

Fixpoint validate_paths_override (entries : list (string * json))
    (valid : gmap string LevelOrNone) : M (gmap string LevelOrNone) :=
  match entries with
  | [] => ret valid
  | (key, val) :: rest =>
      if has VALID_LEVELS (Some val)
      then validate_paths_override rest (<[key := asLevelOrNone (Some val)]> valid)
      else
        let! shown := lift (ToString val) in
        run! warn (source +:+ ": " +:+ dq +:+ "paths.override[" +:+ JSON_stringify key +:+ "]" +:+ dq
              +:+ " has invalid level " +:+ dq +:+ shown +:+ dq +:+ ", skipping") in
        validate_paths_override rest valid
  end.

Definition not_an (what kind : string) : string :=
  source +:+ ": " +:+ dq +:+ what +:+ dq +:+ " is not an " +:+ kind +:+ ", ignoring".

(** The block [if (raw.patterns !== undefined) ...]. *)
Definition validate_patterns (raw : json) : M (option PatternsConfig) :=
  match prop raw "patterns" with
  | None => ret None
  | Some (JObject _ as p) =>
      let! add := match prop p "add" with
             | None => ret None
             | Some (JArray items) =>
                 let! valid := validate_patterns_add 0 items [] in ret (nonempty valid)
             | Some _ => run! warn (not_an "patterns.add" "array") in ret None
             end in
      let! remove := match prop p "remove" with
                | None => ret None
                | Some (JArray items) => validate_remove "patterns.remove" items
                | Some _ => run! warn (not_an "patterns.remove" "array") in ret None
                end in
      let! override := match prop p "override" with
                  | None => ret None
                  | Some (JObject entries) =>
                      let! valid := validate_patterns_override entries ∅ in ret (nonempty_map valid)
                  | Some _ => run! warn (not_an "patterns.override" "object") in ret None
                  end in
      ret (Some {| pc_add := add; pc_remove := remove; pc_override := override |})
  | Some _ => run! warn (not_an "patterns" "object") in ret None
  end.

(** The block [if (raw.paths !== undefined) ...]. *)
Definition validate_paths (raw : json) : M (option PathsConfig) :=
  match prop raw "paths" with
  | None => ret None
  | Some (JObject _ as p) =>
      let! add := match prop p "add" with
             | None => ret None
             | Some (JArray items) =>
                 let! valid := validate_paths_add 0 items [] in ret (nonempty valid)
             | Some _ => run! warn (not_an "paths.add" "array") in ret None
             end in
      let! remove := match prop p "remove" with
                | None => ret None
                | Some (JArray items) => validate_remove "paths.remove" items
                | Some _ => run! warn (not_an "paths.remove" "array") in ret None
                end in
      let! override := match prop p "override" with
                  | None => ret None
                  | Some (JObject entries) =>
                      let! valid := validate_paths_override entries ∅ in ret (nonempty_map valid)
                  | Some _ => run! warn (not_an "paths.override" "object") in ret None
                  end in
      ret (Some {| pathc_add := add; pathc_remove := remove; pathc_override := override |})
  | Some _ => run! warn (not_an "paths" "object") in ret None
  end.

(** The final loop over [Object.keys(raw)]. *)
Fixpoint warn_unknown_keys (keys : list string) : M unit :=
  match keys with
  | [] => ret tt
  | key :: rest =>
      run! (if negb (String.eqb key "patterns") && negb (String.eqb key "paths")
               && negb (String.eqb key "$schema")
            then warn (source +:+ ": unknown key " +:+ dq +:+ key +:+ dq +:+ ", ignoring")
            else ret tt) in
      warn_unknown_keys rest
  end.

(** [validateConfig(raw, source)]: the config and the warnings, or the
    exception raised on the way. *)
Definition validateConfig (raw : json) : result (DamageControlConfig * list string) :=
  match raw with
  | JObject props =>
      (let! pats := validate_patterns raw in
       let! pths := validate_paths raw in
       run! warn_unknown_keys (map fst props) in
       ret {| cfg_patterns := pats; cfg_paths := pths |}) []
  | _ => Ok (empty_config, [source +:+ ": config is not an object, ignoring"])
  end.

End Validate.

(** *** Merge *)

(** [x || []] *)
Definition or_nil {A} (x : option (list A)) : list A :=
  match x with
  | Some l => l
  | None => []
  end.

(** [x || {}] *)
Definition or_empty {V} (x : option (gmap string V)) : gmap string V :=
  match x with
  | Some m => m
  | None => ∅
  end.

(** [{ ...g, ...p }]: the properties of [g], then those of [p] over them. *)
Definition spread2 {V} (g p : gmap string V) : gmap string V := p ∪ g.

Definition mergeConfigs (global project : DamageControlConfig) : DamageControlConfig :=
  let gp := cfg_patterns global in
  let pp := cfg_patterns project in
  let merged_patterns :=
    match gp, pp with
    | None, None => None
    | _, _ =>
        let adds := or_nil (gp ≫= pc_add) ++ or_nil (pp ≫= pc_add) in
        let removes := or_nil (gp ≫= pc_remove) ++ or_nil (pp ≫= pc_remove) in
        let overrides := spread2 (or_empty (gp ≫= pc_override)) (or_empty (pp ≫= pc_override)) in
        Some {| pc_add := nonempty adds;
                pc_remove := nonempty removes;
                pc_override := nonempty_map overrides |}
    end in
  let gpaths := cfg_paths global in
  let ppaths := cfg_paths project in
  let merged_paths :=
    match gpaths, ppaths with
    | None, None => None
    | _, _ =>
        let adds := or_nil (gpaths ≫= pathc_add) ++ or_nil (ppaths ≫= pathc_add) in
        let removes := or_nil (gpaths ≫= pathc_remove) ++ or_nil (ppaths ≫= pathc_remove) in
        let overrides :=
          spread2 (or_empty (gpaths ≫= pathc_override)) (or_empty (ppaths ≫= pathc_override)) in
        Some {| pathc_add := nonempty adds;
                pathc_remove := nonempty removes;
                pathc_override := nonempty_map overrides |}
    end in
  {| cfg_patterns := merged_patterns; cfg_paths := merged_paths |}.

(** *** Apply *)

(** [{ ...p, action: newAction }] *)
Definition with_action (p : Pattern) (newAction : Action) : Pattern :=
  {| pattern := pattern p; reason := reason p; action := newAction |}.

(** [{ ...p, level: newLevel }] *)
Definition with_level (p : ProtectedPath) (newLevel : ProtectionLevel) : ProtectedPath :=
  {| path := path p; level := newLevel |}.

(** The loop that fills [afterOverride]. *)
Fixpoint override_paths (override : gmap string LevelOrNone) (paths : list ProtectedPath)
    (afterOverride : list ProtectedPath) : list ProtectedPath :=
  match paths with
  | [] => afterOverride
  | p :: rest =>
      match override !! path p with
      | Some none => override_paths override rest afterOverride
      | Some (Level newLevel) =>
          override_paths override rest (afterOverride ++ [with_level p newLevel])
      | None => override_paths override rest (afterOverride ++ [p])
      end
  end.

Definition applyConfig (config : DamageControlConfig)
    (defaultPatterns : list Pattern) (defaultPaths : list ProtectedPath)
  : list Pattern * list ProtectedPath :=
  let patterns := defaultPatterns in
  let patterns :=
    match cfg_patterns config with
    | None => patterns
    | Some pc =>
        let patterns :=
          match pc_remove pc with
          | None => patterns
          | Some remove =>
              let removeSet : gset string := list_to_set remove in
              filter (fun p => reason p ∉ removeSet) patterns
          end in
        let patterns :=
          match pc_override pc with
          | None => patterns
          | Some override =>
              map (fun p => match override !! reason p with
                            | Some newAction => with_action p newAction
                            | None => p
                            end) patterns
          end in
        match pc_add pc with
        | None => patterns
        | Some add => patterns ++ add
        end
    end in
  let paths := defaultPaths in
  let paths :=
    match cfg_paths config with
    | None => paths
    | Some pathc =>
        let paths :=
          match pathc_remove pathc with
          | None => paths
          | Some remove =>
              let removeSet : gset string := list_to_set remove in
              filter (fun p => path p ∉ removeSet) paths
          end in
        let paths :=
          match pathc_override pathc with
          | None => paths
          | Some override => override_paths override paths []
          end in
        match pathc_add pathc with
        | None => paths
        | Some add => paths ++ add
        end
    end in
  (patterns, paths).

End Config.

(* ===================================================================== *)
(** ** applyConfig on a store of objects *)
(* ===================================================================== *)

(** [applyConfig] once more, this time with arrays and rule objects living
    in a store and handled by reference, as the program has them: a spread,
    [filter] and [map] allocate a new array, [{ ...p, action }] allocates a
    new object, [push] updates an array in place, and an entry that is kept
    is shared with the input. This is the version that can say what happens
    to the caller's arrays. *)
Module ConfigStore.
Import Patterns Config.
Local Open Scope list_scope.

Definition loc : Type := positive.

Inductive obj : Type :=
| OPattern (p : Pattern)
| OPath (p : ProtectedPath)
| OArray (elems : list loc).

Abbreviation store := (gmap loc obj).

(** A computation on the store; [None] is a reference used at the wrong
    type, which a well-typed caller cannot cause. *)
Definition St (A : Type) : Type := store -> option (A * store).

Definition ret {A} (a : A) : St A := fun h => Some (a, h).

Definition bind {A B} (c : St A) (f : A -> St B) : St B :=
  fun h =>
    match c h with
    | Some (a, h') => f a h'
    | None => None
    end.

Declare Scope store_scope.
Notation "'let!' x ':=' c 'in' k" := (bind c (fun x => k))
  (at level 10, x pattern, c at level 100, k at level 200) : store_scope.
Notation "'run!' c 'in' k" := (bind c (fun _ => k))
  (at level 10, c at level 100, k at level 200) : store_scope.
Local Open Scope store_scope.

Definition alloc (o : obj) : St loc :=
  fun h => let l := fresh (dom h) in Some (l, <[l := o]> h).

(** What an object is when it is read at a type. *)
Definition as_array (o : obj) : option (list loc) :=
  match o with
  | OArray elems => Some elems
  | _ => None
  end.

Definition as_pattern (o : obj) : option Pattern :=
  match o with
  | OPattern p => Some p
  | _ => None
  end.

Definition as_path (o : obj) : option ProtectedPath :=
  match o with
  | OPath p => Some p
  | _ => None
  end.

Definition read {A} (view : obj -> option A) (l : loc) : St A :=
  fun h =>
    match h !! l ≫= view with
    | Some a => Some (a, h)
    | None => None
    end.

Definition read_array : loc -> St (list loc) := read as_array.
Definition read_pattern : loc -> St Pattern := read as_pattern.
Definition read_path : loc -> St ProtectedPath := read as_path.

(** [a.push(x)] *)
Definition push (a x : loc) : St unit :=
  fun h =>
    match h !! a with
    | Some (OArray elems) => Some (tt, <[a := OArray (elems ++ [x])]> h)
    | _ => None
    end.

(** The body of [array.filter(keep)]: the references that pass. *)
Fixpoint filter_elems (keep : loc -> St bool) (elems : list loc) : St (list loc) :=
  match elems with
  | [] => ret []
  | l :: rest =>
      let! b := keep l in
      let! kept := filter_elems keep rest in
      ret (if b : bool then l :: kept else kept)
  end.

(** The body of [array.map(f)]. *)
Fixpoint map_elems (f : loc -> St loc) (elems : list loc) : St (list loc) :=
  match elems with
  | [] => ret []
  | l :: rest =>
      let! l' := f l in
      let! mapped := map_elems f rest in
      ret (l' :: mapped)
  end.

(** [for (const p of paths) ...] of the path override step, pushing onto
    the array at [afterOverride]. *)
Fixpoint override_loop (override : gmap string LevelOrNone) (elems : list loc)
    (afterOverride : loc) : St unit :=
  match elems with
  | [] => ret tt
  | l :: rest =>
      let! p := read_path l in
      match override !! path p with
      | Some none => override_loop override rest afterOverride
      | Some (Level newLevel) =>
          let! l' := alloc (OPath (with_level p newLevel)) in
          run! push afterOverride l' in
          override_loop override rest afterOverride
      | None =>
          run! push afterOverride l in
          override_loop override rest afterOverride
      end
  end.

(** A config whose [add] arrays are in the store. *)
Record PatternsRef : Type := mkPatternsRef {
  pr_add : option loc;
  pr_remove : option (list string);
  pr_override : option (gmap string Action)
}.

Record PathsRef : Type := mkPathsRef {
  pathr_add : option loc;
  pathr_remove : option (list string);
  pathr_override : option (gmap string LevelOrNone)
}.

Record ConfigRef : Type := mkConfigRef {
  ref_patterns : option PatternsRef;
  ref_paths : option PathsRef
}.

(** [[...a, ...b]] *)
Definition spread_concat (a b : loc) : St loc :=
  let! ea := read_array a in
  let! eb := read_array b in
  alloc (OArray (ea ++ eb)).

(** The block [-- Patterns --]. *)
Definition apply_patterns (config_patterns : option PatternsRef) (defaultPatterns : loc)
  : St loc :=
  (* let patterns = [...defaultPatterns] *)
  let! elems := read_array defaultPatterns in
  let! patterns := alloc (OArray elems) in
  match config_patterns with
  | None => ret patterns
  | Some pc =>
      let! patterns :=
        match pr_remove pc with
        | None => ret patterns
        | Some remove =>
            let removeSet : gset string := list_to_set remove in
            let! elems := read_array patterns in
            let! kept :=
              filter_elems
                (fun l => let! p := read_pattern l in
                          ret (bool_decide (reason p ∉ removeSet))) elems in
            alloc (OArray kept)
        end in
      let! patterns :=
        match pr_override pc with
        | None => ret patterns
        | Some override =>
            let! elems := read_array patterns in
            let! mapped :=
              map_elems
                (fun l => let! p := read_pattern l in
                          match override !! reason p with
                          | Some newAction => alloc (OPattern (with_action p newAction))
                          | None => ret l
                          end) elems in
            alloc (OArray mapped)
        end in
      match pr_add pc with
      | None => ret patterns
      | Some add => spread_concat patterns add
      end
  end.

(** The block [-- Paths --]. *)
Definition apply_paths (config_paths : option PathsRef) (defaultPaths : loc) : St loc :=
  (* let paths = [...defaultPaths] *)
  let! elems := read_array defaultPaths in
  let! paths := alloc (OArray elems) in
  match config_paths with
  | None => ret paths
  | Some pathc =>
      let! paths :=
        match pathr_remove pathc with
        | None => ret paths
        | Some remove =>
            let removeSet : gset string := list_to_set remove in
            let! elems := read_array paths in
            let! kept :=
              filter_elems
                (fun l => let! p := read_path l in
                          ret (bool_decide (path p ∉ removeSet))) elems in
            alloc (OArray kept)
        end in
      let! paths :=
        match pathr_override pathc with
        | None => ret paths
        | Some override =>
            let! afterOverride := alloc (OArray []) in
            let! elems := read_array paths in
            run! override_loop override elems afterOverride in
            ret afterOverride
        end in
      match pathr_add pathc with
      | None => ret paths
      | Some add => spread_concat paths add
      end
  end.

Definition applyConfig (config : ConfigRef) (defaultPatterns defaultPaths : loc)
  : St (loc * loc) :=
  let! patterns := apply_patterns (ref_patterns config) defaultPatterns in
  let! paths := apply_paths (ref_paths config) defaultPaths in
  ret (patterns, paths).

(** What a reference stands for: the rules an array of rule objects holds. *)
Fixpoint elems_at {A} (view : obj -> option A) (h : store) (elems : list loc)
  : option (list A) :=
  match elems with
  | [] => Some []
  | l :: rest =>
      match h !! l ≫= view, elems_at view h rest with
      | Some p, Some ps => Some (p :: ps)
      | _, _ => None
      end
  end.

Definition array_at {A} (view : obj -> option A) (h : store) (a : loc) : option (list A) :=
  match h !! a ≫= as_array with
  | Some elems => elems_at view h elems
  | None => None
  end.

Definition pattern_array : store -> loc -> option (list Pattern) := array_at as_pattern.
Definition path_array : store -> loc -> option (list ProtectedPath) := array_at as_path.

(** The config a [ConfigRef] stands for in a store. *)
Inductive denotes_patterns (h : store) : option PatternsRef -> option PatternsConfig -> Prop :=
| dp_none : denotes_patterns h None None
| dp_some_add a add rm ov :
    pattern_array h a = Some add ->
    denotes_patterns h
      (Some {| pr_add := Some a; pr_remove := rm; pr_override := ov |})
      (Some {| pc_add := Some add; pc_remove := rm; pc_override := ov |})
| dp_some_noadd rm ov :
    denotes_patterns h
      (Some {| pr_add := None; pr_remove := rm; pr_override := ov |})
      (Some {| pc_add := None; pc_remove := rm; pc_override := ov |}).

Inductive denotes_paths (h : store) : option PathsRef -> option PathsConfig -> Prop :=
| dpa_none : denotes_paths h None None
| dpa_some_add a add rm ov :
    path_array h a = Some add ->
    denotes_paths h
      (Some {| pathr_add := Some a; pathr_remove := rm; pathr_override := ov |})
      (Some {| pathc_add := Some add; pathc_remove := rm; pathc_override := ov |})
| dpa_some_noadd rm ov :
    denotes_paths h
      (Some {| pathr_add := None; pathr_remove := rm; pathr_override := ov |})
      (Some {| pathc_add := None; pathc_remove := rm; pathc_override := ov |}).

Definition denotes (h : store) (r : ConfigRef) (c : DamageControlConfig) : Prop :=
  denotes_patterns h (ref_patterns r) (cfg_patterns c) /\
  denotes_paths h (ref_paths r) (cfg_paths c).

End ConfigStore.

(* ===================================================================== *)
(** ** config.ts: loading the two configuration files *)
(* ===================================================================== *)

Module Loader.
Import JsStr Patterns Config.
Local Open Scope string_scope.
Local Open Scope list_scope.

Section Files.

(** [process.env.HOME]; [join] of [node:path]; and what
    [JSON.parse(readFileSync(path, 'utf-8'))] evaluates to on the file
    system of the call, [None] when it raises (no such file, no JSON). *)
Variable HOME : option string.
Variable join : list string -> string.
Variable parse_file : string -> option json.

Definition globalConfig : string :=
  join [home HOME; ".config"; "opencode"; "damage-control.json"].

Definition projectConfig (directory : string) : string :=
  join [directory; ".opencode"; "damage-control.json"].

(** The parsed value, and [null] when reading or parsing raised. *)
Definition readJsonFile (path : string) : json :=
  match parse_file path with
  | Some v => v
  | None => JNull
  end.

(** One of the two blocks of [loadConfig]: the config of a file and the
    warnings so far with those of the file appended; a file that reads as
    [null] is skipped. *)
Definition load_one (path : string) (warnings : list string)
  : result (DamageControlConfig * list string) :=
  match readJsonFile path with
  | JNull => Ok (empty_config, warnings)
  | raw =>
      match validateConfig path raw with
      | Ok (config, ws) => Ok (config, warnings ++ ws)
      | Throw e => Throw e
      end
  end.

Definition loadConfig (directory : string) : result (DamageControlConfig * list string) :=
  let warnings := [] in
  let globalPath := globalConfig in
  match load_one globalPath warnings with
  | Throw e => Throw e
  | Ok (globalCfg, warnings) =>
      let projectPath := projectConfig directory in
      match load_one projectPath warnings with
      | Throw e => Throw e
      | Ok (projConfig, warnings) => Ok (mergeConfigs globalCfg projConfig, warnings)
      end
  end.

End Files.

End Loader.

(* ===================================================================== *)
(** ** index.ts: the two hooks of the plugin *)
(* ===================================================================== *)

Module Plugin.
Import JsStr Patterns.
Local Open Scope string_scope.
Local Open Scope list_scope.

Record PendingAsk : Type := mkPendingAsk {
  pa_reason : string;
  pa_match : string;
  pa_tool : string
}.

(** The body of a call of [client.app.log]. *)
Record LogBody : Type := mkLogBody {
  log_service : string;
  log_level : string;
  log_message : string;
  log_extra : list (string * string)
}.

(** What the closure of the plugin holds, and what it has sent to the log:
    the map [pendingAsks], keyed by call identifier. *)
Record PluginState : Type := mkPluginState {
  pendingAsks : gmap string PendingAsk;
  logged : list LogBody
}.

(** What a hook can throw: [new Error(message)], or what the matcher
    raised. *)
Inductive thrown : Type :=
| Error (message : string)
| Raised (e : exn).

(** A step of a hook: it goes on with a value, returns from the hook, or
    throws. *)
Inductive flow (A : Type) : Type :=
| Next (a : A)
| Return
| Throws (t : thrown).
Arguments Next {A} a.
Arguments Return {A}.
Arguments Throws {A} t.

Definition Hook (A : Type) : Type := PluginState -> flow A * PluginState.

Definition ret {A} (a : A) : Hook A := fun st => (Next a, st).

Definition bind {A B} (c : Hook A) (f : A -> Hook B) : Hook B :=
  fun st =>
    match c st with
    | (Next a, st') => f a st'
    | (Return, st') => (Return, st')
    | (Throws t, st') => (Throws t, st')
    end.

Definition return_ {A} : Hook A := fun st => (Return, st).
Definition throw {A} (t : thrown) : Hook A := fun st => (Throws t, st).

Declare Scope hook_scope.
Notation "'let!' x ':=' c 'in' k" := (bind c (fun x => k))
  (at level 10, x pattern, c at level 100, k at level 200) : hook_scope.
Notation "'run!' c 'in' k" := (bind c (fun _ => k))
  (at level 10, c at level 100, k at level 200) : hook_scope.
Local Open Scope hook_scope.

(** [await client.app.log({ body })], for a client that takes the entry. *)
Definition log (level message : string) (extra : list (string * string)) : Hook unit :=
  fun st =>
    (Next tt,
     {| pendingAsks := pendingAsks st;
        logged := logged st ++ [ {| log_service := "damage-control"; log_level := level;
                                    log_message := message; log_extra := extra |} ] |}).

(** [pendingAsks.set(callID, pending)] *)
Definition stash (callID : string) (pending : PendingAsk) : Hook unit :=
  fun st =>
    (Next tt, {| pendingAsks := <[callID := pending]> (pendingAsks st); logged := logged st |}).

(** [pendingAsks.delete(callID)] *)
Definition unstash (callID : string) : Hook unit :=
  fun st =>
    (Next tt, {| pendingAsks := delete callID (pendingAsks st); logged := logged st |}).

Definition lift {A} (r : result A) : Hook A :=
  match r with
  | Ok a => ret a
  | Throw e => throw (Raised e)
  end.

Definition nl : string := String (ascii_of_nat 10) EmptyString.

(** [`${prot.level}`] *)
Definition level_name (l : ProtectionLevel) : string :=
  match l with
  | zeroAccess => "zeroAccess"
  | readOnly => "readOnly"
  | noDelete => "noDelete"
  end.

(** [s.slice(0, n)] *)
Definition slice_to (n : nat) (s : string) : string := str (firstn n (chars s)).

(** [output.args], as the casts of the hook type it: [command] and
    [filePath] are strings when present, and the hook returns where one
    it needs is absent or empty ([if (!command) return]). [args_text] is
    [JSON.stringify(args)], which only the debug entry of the log uses. *)
Record ToolArgs : Type := mkToolArgs {
  command : option string;
  filePath : option string;
  args_text : string
}.

Record ToolCall : Type := mkToolCall {
  tool : string;
  callID : string;
  args : ToolArgs
}.

(** The plugin starts with one entry in the log and nothing pending. *)
Definition DamageControl (directory : string) : PluginState :=
  {| pendingAsks := ∅;
     logged := [ {| log_service := "damage-control"; log_level := "info";
                    log_message := "Plugin initialized";
                    log_extra := [("directory", directory)] |} ] |}.

Section Env.

Variable HOME : option string.

(** The loop over the protected paths of the shell branch. *)
Fixpoint check_command_paths (command : string) (paths : list ProtectedPath) : Hook unit :=
  match paths with
  | [] => ret tt
  | prot :: rest =>
      let expandedPath := expandHome HOME (path prot) in
      if includes command expandedPath || includes command (path prot) then
        run! log "warn" "Blocked access to protected path in command"
               [("command", slice_to 100 command); ("path", path prot)] in
        throw (Error ("DAMAGE_CONTROL_BLOCKED: Protected path " +:+ Config.dq +:+ path prot
                      +:+ Config.dq +:+ " cannot be accessed" +:+ nl
                      +:+ "Protection level: " +:+ level_name (level prot)))
      else check_command_paths command rest
  end.

(** [if (tool === 'bash' || tool === 'shell' || tool === 'cmd') ...] *)
Definition shell_branch (call : ToolCall) : Hook unit :=
  let tool := tool call in
  if String.eqb tool "bash" || String.eqb tool "shell" || String.eqb tool "cmd" then
    match command (args call) with
    | None | Some "" => return_
    | Some command =>
        let! result := lift (matchPattern command DEFAULT_PATTERNS) in
        match result with
        | Some (match_, pattern) =>
            match action pattern with
            | block =>
                run! log "warn" "Blocked dangerous command"
                       [("command", slice_to 100 command); ("reason", reason pattern)] in
                throw (Error ("DAMAGE_CONTROL_BLOCKED: " +:+ reason pattern +:+ nl +:+ nl
                              +:+ "Command: " +:+ match_))
            | ask =>
                run! log "warn" "Flagged command for confirmation"
                       [("command", slice_to 100 command); ("reason", reason pattern)] in
                run! stash (callID call)
                       {| pa_reason := reason pattern; pa_match := match_; pa_tool := tool |} in
                return_
            end
        | None => check_command_paths command DEFAULT_PROTECTED_PATHS
        end
    end
  else ret tt.

(** [if (tool === 'read' || tool === 'glob' || tool === 'grep') ...] *)
Definition read_branch (call : ToolCall) : Hook unit :=
  let tool := tool call in
  if String.eqb tool "read" || String.eqb tool "glob" || String.eqb tool "grep" then
    match filePath (args call) with
    | None | Some "" => return_
    | Some filePath =>
        let! prot := lift (checkPathProtection HOME filePath DEFAULT_PROTECTED_PATHS) in
        match prot with
        | Some {| path := p; level := zeroAccess |} =>
            run! log "warn" "Blocked read of protected path"
                   [("filePath", filePath); ("path", p)] in
            throw (Error ("DAMAGE_CONTROL_BLOCKED: Cannot read protected path "
                          +:+ Config.dq +:+ p +:+ Config.dq))
        | _ => ret tt
        end
    end
  else ret tt.

(** [if (tool === 'edit' || tool === 'write' || tool === 'create') ...] *)
Definition write_branch (call : ToolCall) : Hook unit :=
  let tool := tool call in
  if String.eqb tool "edit" || String.eqb tool "write" || String.eqb tool "create" then
    match filePath (args call) with
    | None | Some "" => return_
    | Some filePath =>
        let! prot := lift (checkPathProtection HOME filePath DEFAULT_PROTECTED_PATHS) in
        match prot with
        | Some prot =>
            run! log "warn" ("Blocked " +:+ tool +:+ " on protected path")
                   [("filePath", filePath); ("path", path prot);
                    ("level", level_name (level prot))] in
            throw (Error ("DAMAGE_CONTROL_BLOCKED: Cannot " +:+ tool +:+ " protected path "
                          +:+ Config.dq +:+ path prot +:+ Config.dq +:+ nl
                          +:+ "Protection level: " +:+ level_name (level prot)))
        | None => ret tt
        end
    end
  else ret tt.

(** ['tool.execute.before'] *)
Definition tool_execute_before (call : ToolCall) : Hook unit :=
  run! log "debug" "tool.execute.before"
         [("tool", tool call); ("args", slice_to 200 (args_text (args call)))] in
  run! shell_branch call in
  run! read_branch call in
  write_branch call.

End Env.

(** How a hook has ended: it returned or it threw. *)
Inductive completion : Type :=
| Returned
| Threw (t : thrown).

Definition run {A} (c : Hook A) (st : PluginState) : completion * PluginState :=
  match c st with
  | (Next _, st') | (Return, st') => (Returned, st')
  | (Throws t, st') => (Threw t, st')
  end.

(** ['permission.ask']: the call identifier, possibly absent, and
    [output.status]; the hook sets the status or leaves it. *)
Definition permission_ask (callID : option string) (status : string) (st : PluginState)
  : string * PluginState :=
  match callID with
  | None | Some "" => (status, st)
  | Some callID =>
      match pendingAsks st !! callID with
      | None => (status, st)
      | Some pending =>
          let st := snd (unstash callID st) in
          let st := snd (log "warn" "Forcing confirmation dialog"
                           [("reason", pa_reason pending); ("match", pa_match pending)] st) in
          ("ask", st)
      end
  end.

End Plugin.

(* ===================================================================== *)
(** ** The specification's wording of the rules *)
(* ===================================================================== *)

(** The definitions of this module follow the text of the specification, not
    the program; the theorems below compare the two. *)
Module Spec.
Import JsStr Patterns Config.
Local Open Scope string_scope.
Local Open Scope list_scope.

(** "escape all regex metacharacters in [path] except [*]": the syntax
    characters of a regular expression. *)
Definition regex_metachars : list ascii := chars "^$\.*+?()[]{}|".

Definition escape_all_but_star (glob : list ascii) : list ascii :=
  flat_map (fun c => if existsb (ceqb c) regex_metachars && negb (ceqb c "*")
                     then ["\"%char; c] else [c]) glob.

(** "replace [*] with [.*], anchor with [^...$]" *)
Definition glob_regex_source (glob : string) : list ascii :=
  "^"%char :: expand_stars (escape_all_but_star (chars glob)) ++ ["$"%char].

(** "the final path segment, trailing slashes trimmed" *)
Fixpoint trim_trailing_slashes (l : list ascii) : list ascii :=
  match l with
  | [] => []
  | c :: rest =>
      match trim_trailing_slashes rest with
      | [] => if ceqb c "/" then [] else [c]
      | t => c :: t
      end
  end.

Fixpoint final_segment (l : list ascii) : list ascii :=
  match l with
  | [] => []
  | c :: rest =>
      if existsb (ceqb "/") rest then final_segment rest
      else if ceqb c "/" then rest else l
  end.

Definition basename (filePath : list ascii) : list ascii :=
  final_segment (trim_trailing_slashes filePath).

(** "expand a leading [~] in [path] to the home-directory value" *)
Definition expand_leading_tilde (home path : string) : string :=
  match chars path with
  | "~"%char :: rest => home +:+ str rest
  | _ => path
  end.

(** Does the rule match the file path? [None] when the glob's regular
    expression is not well formed. *)
Definition rule_matches (home : string) (filePath : string) (p : ProtectedPath) : option bool :=
  if includes (path p) "*" then
    match RegExp.compile_l (glob_regex_source (path p)) with
    | Some regex => Some (RegExp.test false regex (basename (chars filePath)))
    | None => None
    end
  else
    Some (includes filePath (expand_leading_tilde home (path p))
          || includes filePath (path p)).

(** The overlay steps of 4.5, each on its own. *)
Definition remove_step {A} (key : A -> string) (removeKeys : list string) (entries : list A)
  : list A :=
  List.filter (fun e => negb (existsb (String.eqb (key e)) removeKeys)) entries.

Definition override_patterns_step (override : gmap string Action) (entries : list Pattern)
  : list Pattern :=
  map (fun p => match override !! reason p with
                | Some a => {| pattern := pattern p; reason := reason p; action := a |}
                | None => p
                end) entries.

Definition override_paths_step (override : gmap string LevelOrNone)
    (entries : list ProtectedPath) : list ProtectedPath :=
  flat_map (fun p => match override !! path p with
                     | Some none => []
                     | Some (Level l) => [{| path := path p; level := l |}]
                     | None => [p]
                     end) entries.

Definition add_step {A} (add : list A) (entries : list A) : list A := entries ++ add.

(** An absent field is an empty one. *)
Definition apply_patterns (pc : option PatternsConfig) (defaults : list Pattern) : list Pattern :=
  add_step (or_nil (pc ≫= pc_add))
    (override_patterns_step (or_empty (pc ≫= pc_override))
       (remove_step reason (or_nil (pc ≫= pc_remove)) defaults)).

Definition apply_paths (pc : option PathsConfig) (defaults : list ProtectedPath)
  : list ProtectedPath :=
  add_step (or_nil (pc ≫= pathc_add))
    (override_paths_step (or_empty (pc ≫= pathc_override))
       (remove_step path (or_nil (pc ≫= pathc_remove)) defaults)).

Section Enforcement.

Variable HOME : option string.
Variable command : string.

(** The enforcement matrix of 4.4: the rule is violated, with this
    operation. *)
Definition violated (p : ProtectedPath) (op : Operation) : Prop :=
  match level p with
  | zeroAccess =>
      commandReferencesPath HOME command (path p) = Ok true /\ op = OpAccess
  | readOnly =>
      (isShellWrite HOME command (path p) = Ok true /\ op = OpWrite) \/
      (isShellWrite HOME command (path p) = Ok false /\
       isShellDelete HOME command (path p) = Ok true /\ op = OpDelete)
  | noDelete =>
      isShellDelete HOME command (path p) = Ok true /\ op = OpDelete
  end.

(** The rule is not violated. *)
Definition respected (p : ProtectedPath) : Prop :=
  match level p with
  | zeroAccess => commandReferencesPath HOME command (path p) = Ok false
  | readOnly =>
      isShellWrite HOME command (path p) = Ok false /\
      isShellDelete HOME command (path p) = Ok false
  | noDelete => isShellDelete HOME command (path p) = Ok false
  end.

End Enforcement.

(** A pattern rule matches the command: its source compiles, and the regex,
    case-insensitive, matches somewhere. *)
Definition pattern_matches (command : string) (p : Pattern) : Prop :=
  exists regex, RegExp.compile (pattern p) = Some regex /\
                RegExp.matches_anywhere true (chars command) regex.

Definition pattern_fails (command : string) (p : Pattern) : Prop :=
  exists regex, RegExp.compile (pattern p) = Some regex /\
                ~ RegExp.matches_anywhere true (chars command) regex.

(** The rule data is well formed: every pattern source compiles. *)
Definition patterns_compile (patterns : list Pattern) : Prop :=
  Forall (fun p => is_Some (RegExp.compile (pattern p))) patterns.

(** Every glob of the list translates to a well-formed regex. *)
Definition globs_compile (paths : list ProtectedPath) : Prop :=
  Forall (fun p => isGlobPattern (path p) = true -> is_ok (globToRegex (path p)) = true) paths.

(** A path rule matches the file path, the way 4.2 selects the strategy by
    the shape of the rule; and the rule does not match. *)
Definition path_matches (HOME : option string) (filePath : string) (p : ProtectedPath) : Prop :=
  if isGlobPattern (path p) then
    exists regex, globToRegex (path p) = Ok regex /\
                  RegExp.test false regex (Patterns.basename (chars filePath)) = true
  else
    includes filePath (replace (path p) "~" (home HOME)) = true \/
    includes filePath (path p) = true.

Definition path_misses (HOME : option string) (filePath : string) (p : ProtectedPath) : Prop :=
  if isGlobPattern (path p) then
    exists regex, globToRegex (path p) = Ok regex /\
                  RegExp.test false regex (Patterns.basename (chars filePath)) = false
  else
    includes filePath (replace (path p) "~" (home HOME)) = false /\
    includes filePath (path p) = false.

(** The text [matchPattern] reports with a rule that matches: the text of
    the match at the leftmost position where the regex matches, and the
    pattern source when that text is empty. *)
Definition reported (command : string) (p : Pattern) (regex : RegExp.regex)
    (matched : string) : Prop :=
  exists i e,
    i <= e <= length (chars command) /\
    RegExp.Matches true (chars command) regex i e /\
    (forall x y, x < i -> ~ RegExp.Matches true (chars command) regex x y) /\
    matched = if Nat.eqb e i then pattern p
              else str (firstn (e - i) (skipn i (chars command))).

(** The tilde expansion of the program, in words: the first [~] of the
    path, wherever it stands, gives way to the home-directory value. *)
Definition expand_first_tilde (home path : string) : string :=
  match split_first ["~"%char] (chars path) with
  | Some (before, after) => str (before ++ chars home ++ after)
  | None => path
  end.

(** The values of the override entries of a section of [raw], the only
    values that [validateConfig] converts to a string. *)
Definition override_entries (raw : json) (section : string) : list (string * json) :=
  match prop raw section with
  | Some section_value =>
      match prop section_value "override" with
      | Some (JObject entries) => entries
      | _ => []
      end
  | None => []
  end.

(** The command words of the write signatures. *)
Definition write_words : list string :=
  ["tee"; "sed"; "cp"; "mv"; "chmod"; "chown"; "ln"; "install"; "patch"; "truncate";
   "dd"; "touch"; "mkdir"; "echo"; "printf"; "cat"].

(** A redirection that the first write signature recognizes: [>] at the
    start of the command, or after one of [;], [&], [|] and white space
    only. *)
Definition redirect_recognized (command : list ascii) : Prop :=
  nth_error command 0 = Some ">"%char \/
  exists i x sep,
    nth_error command i = Some sep /\
    In sep [";"%char; "&"%char; "|"%char] /\
    i < x /\
    (forall k, i < k < x -> exists d, nth_error command k = Some d /\ is_space d = true) /\
    nth_error command x = Some ">"%char.

End Spec.

(* ===================================================================== *)
(** ** Notions used in the statements about the rest of the program *)
(* ===================================================================== *)

Module ConfigNotions.
Import JsStr Patterns Config.
Local Open Scope string_scope.
Local Open Scope list_scope.

(** A config in normal form: a field that is present is not empty. *)
Definition normal_patterns (pc : PatternsConfig) : Prop :=
  pc_add pc <> Some [] /\ pc_remove pc <> Some [] /\ pc_override pc <> Some ∅.

Definition normal_paths (pathc : PathsConfig) : Prop :=
  pathc_add pathc <> Some [] /\ pathc_remove pathc <> Some [] /\ pathc_override pathc <> Some ∅.

Definition normal (config : DamageControlConfig) : Prop :=
  (forall pc, cfg_patterns config = Some pc -> normal_patterns pc) /\
  (forall pathc, cfg_paths config = Some pathc -> normal_paths pathc).

(** The JSON value of a config, field by field as the interface
    [DamageControlConfig] declares them; an absent field is left out. *)
Definition action_name (a : Action) : string :=
  match a with
  | block => "block"
  | ask => "ask"
  end.

Definition level_or_none_name (l : LevelOrNone) : string :=
  match l with
  | Level zeroAccess => "zeroAccess"
  | Level readOnly => "readOnly"
  | Level noDelete => "noDelete"
  | none => "none"
  end.

Definition encode_pattern (p : Pattern) : json :=
  JObject [("pattern", JString (pattern p)); ("reason", JString (reason p));
           ("action", JString (action_name (action p)))].

Definition encode_path (p : ProtectedPath) : json :=
  JObject [("path", JString (path p)); ("level", JString (level_or_none_name (Level (level p))))].

Definition field {A} (key : string) (enc : A -> json) (x : option A) : list (string * json) :=
  match x with
  | Some a => [(key, enc a)]
  | None => []
  end.

Definition encode_override {V} (name : V -> string) (override : gmap string V) : json :=
  JObject (map (fun kv => (kv.1, JString (name kv.2))) (map_to_list override)).

Definition encode_patterns (pc : PatternsConfig) : json :=
  JObject (field "add" (fun l => JArray (map encode_pattern l)) (pc_add pc)
           ++ field "remove" (fun l => JArray (map JString l)) (pc_remove pc)
           ++ field "override" (encode_override action_name) (pc_override pc)).

Definition encode_paths (pathc : PathsConfig) : json :=
  JObject (field "add" (fun l => JArray (map encode_path l)) (pathc_add pathc)
           ++ field "remove" (fun l => JArray (map JString l)) (pathc_remove pathc)
           ++ field "override" (encode_override level_or_none_name) (pathc_override pathc)).

Definition encode (config : DamageControlConfig) : json :=
  JObject (field "patterns" encode_patterns (cfg_patterns config)
           ++ field "paths" encode_paths (cfg_paths config)).

(** The keys of a list of rules. *)
Definition reasons (patterns : list Pattern) : list string := map reason patterns.
Definition paths_of (paths : list ProtectedPath) : list string := map path paths.

(** The keys a patterns section removes or overrides. *)
Definition touched_patterns (pc : option PatternsConfig) (key : string) : Prop :=
  In key (or_nil (pc ≫= pc_remove)) \/ is_Some (or_empty (pc ≫= pc_override) !! key).

Definition touched_paths (pathc : option PathsConfig) (key : string) : Prop :=
  In key (or_nil (pathc ≫= pathc_remove)) \/ is_Some (or_empty (pathc ≫= pathc_override) !! key).

End ConfigNotions.

Module Wildcard.
Import JsStr.
Local Open Scope list_scope.

(** Matching a name against a glob, directly: a star stands for any run of
    code units without a line terminator, every other code unit for
    itself. *)
Fixpoint wildcard (glob name : list ascii) : bool :=
  match glob with
  | [] => match name with [] => true | _ :: _ => false end
  | c :: glob' =>
      if ceqb c "*" then
        existsb (fun k => forallb (fun d => negb (is_line_terminator d)) (firstn k name)
                          && wildcard glob' (skipn k name))
                (seq 0 (S (length name)))
      else
        match name with
        | d :: name' => ceqb c d && wildcard glob' name'
        | [] => false
        end
  end.

(** The regex term of one glob character. *)
Definition glob_term (c : ascii) : RegExp.regex :=
  if ceqb c "*" then RegExp.Star true RegExp.Dot else RegExp.Chr c.

End Wildcard.

Module Letters.
Import JsStr Patterns.
Local Open Scope list_scope.

(** The upper-case form of an ASCII letter; any other code unit is left
    alone. *)
Definition ascii_upper (c : ascii) : ascii :=
  if in_range "a" "z" c then ascii_of_nat (code c - 32) else c.

(** Two commands that differ in the case of ASCII letters only. *)
Definition same_letters (a b : string) : Prop :=
  map ascii_upper (chars a) = map ascii_upper (chars b).

(** The rule of a result of [matchPattern], without the matched text. *)
Definition matched_rule (r : result (option (string * Pattern))) : result (option Pattern) :=
  match r with
  | Ok (Some (_, p)) => Ok (Some p)
  | Ok None => Ok None
  | Throw e => Throw e
  end.

End Letters.

Module Levels.
Import JsStr Patterns.
Local Open Scope list_scope.

(** How much a protection level forbids. *)
Definition strictness (l : ProtectionLevel) : nat :=
  match l with
  | zeroAccess => 2
  | readOnly => 1
  | noDelete => 0
  end.

(** The same path under a level that forbids at least as much. *)
Definition tightened (p q : ProtectedPath) : Prop :=
  path q = path p /\ strictness (level p) <= strictness (level q).

(** No rule of the list is stricter than a rule before it. *)
Fixpoint strict_first (paths : list ProtectedPath) : bool :=
  match paths with
  | [] => true
  | p :: rest =>
      forallb (fun q => Nat.leb (strictness (level q)) (strictness (level p))) rest
      && strict_first rest
  end.

(** The command words of the delete signatures. *)
Definition delete_words : list string := ["rm"; "unlink"; "rmdir"; "shred"]%string.

End Levels.

Module Compose.
Import JsStr Patterns Config.
Local Open Scope list_scope.

(** The first of two results that is not [null]: the second is computed
    only when the first is [Ok None]. *)
Definition or_else_result {A} (first : result (option A)) (second : result (option A))
  : result (option A) :=
  match first with
  | Ok None => second
  | _ => first
  end.

(** The rule with the action an override map gives to its reason. *)
Definition overridden (override : gmap string Action) (p : Pattern) : Pattern :=
  match override !! reason p with
  | Some a => with_action p a
  | None => p
  end.

End Compose.

(* ===================================================================== *)
(** * Properties *)
(* ===================================================================== *)

(** ** The matcher computes the declarative semantics *)

Section MatcherTheory.
Import JsStr RegExp.

Variable ignore_case : bool.
Variable s : list ascii.

Local Abbreviation m := (RegExp.m ignore_case s).
Local Abbreviation Matches := (RegExp.Matches ignore_case s).
Local Abbreviation one_char := (RegExp.one_char s).

Lemma one_char_bounds p i j : one_char p i j -> i <= j <= length s.
Proof.
  intros (d & Hd & _ & ->). assert (i < length s) by (apply nth_error_Some; congruence). lia.
Qed.

Lemma rtc_bounds (R : nat -> nat -> Prop) i j :
  (forall x y, x <= length s -> R x y -> x <= y <= length s) ->
  i <= length s -> rtc R i j -> i <= j <= length s.
Proof.
  intros HR Hi H. induction H as [|x y z Hxy Hyz IH]; [lia|].
  destruct (HR _ _ Hi Hxy). specialize (IH ltac:(lia)). lia.
Qed.

Lemma Matches_bounds r : forall i j, i <= length s -> Matches r i j -> i <= j <= length s.
Proof.
  induction r; simpl; intros i j Hi H;
    try (apply one_char_bounds in H; lia); try lia.
  - destruct H as (x & Ha & Hb). apply IHr1 in Ha; [|lia]. apply IHr2 in Hb; lia.
  - destruct H; eauto.
  - eapply rtc_bounds; eauto.
  - destruct H as (x & Ha & Hb). apply IHr in Ha; [|lia].
    eapply rtc_bounds in Hb; eauto; lia.
  - destruct H as [H| ->]; eauto; lia.
  - eauto.
Qed.

Lemma or_else_Some x y e :
  or_else x y = Some e -> x = Some e \/ (x = None /\ y = Some e).
Proof. destruct x; simpl; intros; [left|right]; auto. Qed.

Lemma or_else_is_Some_l x y : is_Some x -> is_Some (or_else x y).
Proof. intros [e ->]. simpl. eauto. Qed.

Lemma or_else_is_Some_r x y : is_Some y -> is_Some (or_else x y).
Proof. destruct x; simpl; eauto. Qed.

Lemma step_char_sound p i k e :
  step_char s p i k = Some e -> exists j, one_char p i j /\ k j = Some e.
Proof.
  unfold step_char, one_char. destruct (nth_error s i) as [d|] eqn:Hd; [|discriminate].
  destruct (p d) eqn:Hp; [|discriminate]. intros H. exists (S i). eauto.
Qed.

Lemma step_char_complete p i j k :
  one_char p i j -> is_Some (k j) -> is_Some (step_char s p i k).
Proof.
  intros (d & Hd & Hp & ->) Hk. unfold step_char. rewrite Hd, Hp. exact Hk.
Qed.

Section Loop.
Variable step : nat -> (nat -> option nat) -> option nat.
Variable R : nat -> nat -> Prop.
Variable greedy : bool.
Variable k : nat -> option nat.
Hypothesis R_bounds : forall x y, x <= length s -> R x y -> x <= y <= length s.

Lemma star_loop_sound :
  (forall i k' e, i <= length s -> step i k' = Some e ->
                  exists j, R i j /\ k' j = Some e) ->
  forall n i e, i <= length s -> star_loop step greedy k n i = Some e ->
                exists j, rtc R i j /\ k j = Some e.
Proof.
  intros Hstep. induction n as [|n IH]; intros i e Hi H; [discriminate|].
  simpl in H.
  assert (Hagain : forall e,
             step i (fun j => if j =? i then None else star_loop step greedy k n j) = Some e ->
             exists j, rtc R i j /\ k j = Some e).
  { intros e' He'. apply Hstep in He' as (x & Hx & Hk); [|lia].
    destruct (Nat.eqb_spec x i); [discriminate|].
    destruct (R_bounds _ _ Hi Hx).
    apply IH in Hk as (j & Hj & Hk); [|lia].
    exists j. split; [|done]. by eapply rtc_l. }
  destruct greedy; apply or_else_Some in H as [H|[_ H]]; eauto;
    exists i; split; auto; apply rtc_refl.
Qed.

Lemma star_loop_complete :
  (forall i j k', i <= length s -> R i j -> is_Some (k' j) -> is_Some (step i k')) ->
  forall n i j, i <= length s -> length s - i < n -> rtc R i j -> is_Some (k j) ->
                is_Some (star_loop step greedy k n i).
Proof.
  intros Hstep. induction n as [|n IH]; intros i j Hi Hn Hrtc Hk; [lia|].
  induction Hrtc as [x|x y z Hxy Hyz IHrtc].
  - cbn [star_loop]. destruct greedy; [apply or_else_is_Some_r|apply or_else_is_Some_l]; done.
  - destruct (R_bounds _ _ Hi Hxy) as [Hle Hy].
    destruct (decide (y = x)) as [->|Hne]; [by apply IHrtc|].
    cbn [star_loop].
    assert (is_Some (step x (fun j => if j =? x then None else star_loop step greedy k n j))).
    { eapply Hstep; eauto. destruct (Nat.eqb_spec y x); [done|].
      eapply IH; eauto. lia. }
    destruct greedy; [apply or_else_is_Some_l|apply or_else_is_Some_r]; done.
Qed.
End Loop.

Local Arguments star_loop : simpl never.

Theorem m_spec r :
  (forall i k e, i <= length s -> m r i k = Some e ->
                 exists j, Matches r i j /\ k j = Some e) /\
  (forall i j k, i <= length s -> Matches r i j -> is_Some (k j) -> is_Some (m r i k)).
Proof.
  induction r as [|c| |inv items| | |neg|a [IHa1 IHa2] b [IHb1 IHb2]
                 |a [IHa1 IHa2] b [IHb1 IHb2]|g a [IHa1 IHa2]|g a [IHa1 IHa2]
                 |g a [IHa1 IHa2]|a [IHa1 IHa2]|neg a [IHa1 IHa2]]; simpl.
  - split; [intros i k e _ H; eauto|intros i j k _ -> H; done].
  - split; [intros i k e _ H; by apply step_char_sound
           |intros i j k _ H Hk; by eapply step_char_complete].
  - split; [intros i k e _ H; by apply step_char_sound
           |intros i j k _ H Hk; by eapply step_char_complete].
  - split; [intros i k e _ H; by apply step_char_sound
           |intros i j k _ H Hk; by eapply step_char_complete].
  - split.
    + intros i k e _ H. destruct (Nat.eqb_spec i 0); [eauto|discriminate].
    + intros i j k _ [-> ->] H. done.
  - split.
    + intros i k e _ H. destruct (Nat.eqb_spec i (length s)); [eauto|discriminate].
    + intros i j k _ [-> ->] H. by rewrite Nat.eqb_refl.
  - split.
    + intros i k e _ H. destruct (xorb neg (at_boundary s i)) eqn:E; [eauto|discriminate].
    + intros i j k _ [-> ->] H. done.
  - split.
    + intros i k e Hi H. apply IHa1 in H as (x & Hx & H); [|done].
      apply IHb1 in H as (j & Hj & H); [eauto|].
      eapply Matches_bounds in Hx; eauto; lia.
    + intros i j k Hi (x & Hx & Hj) Hk. eapply IHa2; eauto.
      eapply IHb2; eauto. eapply Matches_bounds in Hx; eauto; lia.
  - split.
    + intros i k e Hi H. apply or_else_Some in H as [H|[_ H]].
      * apply IHa1 in H as (j & ? & ?); eauto.
      * apply IHb1 in H as (j & ? & ?); eauto.
    + intros i j k Hi [H|H] Hk.
      * apply or_else_is_Some_l; eauto.
      * apply or_else_is_Some_r; eauto.
  - split.
    + intros i k e Hi H. eapply star_loop_sound in H; eauto using Matches_bounds.
    + intros i j k Hi H Hk. eapply star_loop_complete; eauto using Matches_bounds. lia.
  - split.
    + intros i k e Hi H. apply IHa1 in H as (x & Hx & H); [|done].
      eapply star_loop_sound in H as (j & ? & ?); eauto using Matches_bounds.
      eapply Matches_bounds in Hx; eauto; lia.
    + intros i j k Hi (x & Hx & Hj) Hk. eapply IHa2; eauto.
      eapply star_loop_complete; eauto using Matches_bounds.
      * eapply Matches_bounds in Hx; eauto; lia.
      * lia.
  - split.
    + intros i k e Hi H.
      assert (Honce : m a i (fun j => if j =? i then None else k j) = Some e ->
                      exists j, (Matches a i j \/ j = i) /\ k j = Some e).
      { intros H'. apply IHa1 in H' as (j & ? & H'); [|done].
        destruct (j =? i); [discriminate|]. eauto. }
      destruct g; apply or_else_Some in H as [H|[_ H]]; eauto.
    + intros i j k Hi H Hk.
      assert (Hi' : is_Some (k i) -> is_Some
                (if g then or_else (m a i (fun j => if j =? i then None else k j)) (k i)
                 else or_else (k i) (m a i (fun j => if j =? i then None else k j)))).
      { intros. destruct g; [apply or_else_is_Some_r|apply or_else_is_Some_l]; done. }
      destruct H as [H| ->]; [|by apply Hi'].
      destruct (decide (j = i)) as [->|Hne]; [by apply Hi'|].
      assert (is_Some (m a i (fun j => if j =? i then None else k j))).
      { eapply IHa2; eauto. destruct (Nat.eqb_spec j i); done. }
      destruct g; [apply or_else_is_Some_l|apply or_else_is_Some_r]; done.
  - split; eauto.
  - split.
    + intros i k e Hi H. destruct (m a i Some) as [x|] eqn:E.
      * destruct neg; [discriminate|]. apply IHa1 in E as (j & ? & _); eauto.
      * destruct neg; [|discriminate]. exists i. split; [|done]. split; [done|].
        intros (x & Hx). eapply (IHa2 _ _ Some) in Hx; eauto.
        rewrite E in Hx. by destruct Hx.
    + intros i j k Hi [-> H] Hk. destruct (m a i Some) as [x|] eqn:E.
      * destruct neg; [|done]. destruct H. apply IHa1 in E as (j & ? & _); eauto.
      * destruct neg; [done|]. destruct H as (x & Hx).
        eapply (IHa2 _ _ Some) in Hx; eauto. rewrite E in Hx. by destruct Hx.
Qed.

Lemma search_spec r : forall n i,
  match search ignore_case s r n i with
  | Some (x, e) =>
      i <= x <= i + n /\ m r x Some = Some e /\
      forall y, i <= y < x -> m r y Some = None
  | None => forall y, i <= y <= i + n -> m r y Some = None
  end.
Proof.
  induction n as [|n IH]; intros i; simpl.
  - destruct (m r i Some) as [e|] eqn:E.
    + split; [lia|]. split; [done|]. intros; lia.
    + intros y Hy. by replace y with i by lia.
  - destruct (m r i Some) as [e|] eqn:E.
    + split; [lia|]. split; [done|]. intros; lia.
    + specialize (IH (S i)). destruct (search ignore_case s r n (S i)) as [[x e]|].
      * destruct IH as (Hx & Hm & Hmin). split; [lia|]. split; [done|].
        intros y Hy. destruct (decide (y = i)) as [->|]; [done|]. apply Hmin. lia.
      * intros y Hy. destruct (decide (y = i)) as [->|]; [done|]. apply IH. lia.
Qed.

(** What [exec] returns: the leftmost position at which the regex matches,
    with an end of a match from there; and nothing exactly when the regex
    matches nowhere. *)
Theorem exec_spec r :
  match exec ignore_case s r with
  | Some (i, e) =>
      i <= e <= length s /\ Matches r i e /\
      forall x y, x < i -> ~ Matches r x y
  | None => forall x y, x <= length s -> ~ Matches r x y
  end.
Proof.
  unfold exec. pose proof (search_spec r (length s) 0) as H.
  destruct (m_spec r) as [Hsound Hcomplete].
  destruct (search ignore_case s r (length s) 0) as [[i e]|].
  - destruct H as (Hi & Hm & Hmin). simpl in Hi.
    apply Hsound in Hm as (j & Hj & [= ->]); [|lia].
    split; [|split; [done|]].
    + eapply Matches_bounds in Hj; lia.
    + intros x y Hx Hxy. specialize (Hmin x ltac:(lia)).
      eapply (Hcomplete _ _ Some) in Hxy; [|lia|done].
      rewrite Hmin in Hxy. by destruct Hxy.
  - intros x y Hx Hxy. specialize (H x ltac:(simpl; lia)).
    eapply (Hcomplete _ _ Some) in Hxy; [|lia|done].
    rewrite H in Hxy. by destruct Hxy.
Qed.

Corollary test_spec r :
  test ignore_case r s = true <-> exists i j, i <= length s /\ Matches r i j.
Proof.
  unfold test. pose proof (exec_spec r) as H.
  destruct (exec ignore_case s r) as [[i e]|].
  - split; [|done]. intros _. exists i, e. split; [lia|]. tauto.
  - split; [done|]. intros (i & j & Hi & Hij). by apply H in Hij.
Qed.
End MatcherTheory.

(** ** Strings and path references *)

Section StringFacts.
Import JsStr.

Lemma ceqb_eq a b : ceqb a b = true <-> a = b.
Proof. apply Ascii.eqb_eq. Qed.

Lemma chars_str l : chars (str l) = l.
Proof. apply list_ascii_of_string_of_list_ascii. Qed.

Lemma str_chars s : str (chars s) = s.
Proof. apply string_of_list_ascii_of_string. Qed.

Lemma chars_append a b : chars (a +:+ b) = chars a ++ chars b.
Proof. induction a as [|c a IH]; simpl; [done|]. unfold chars in *. simpl. by rewrite IH. Qed.

Lemma starts_with_spec sub s : starts_with sub s = true <-> exists t, s = sub ++ t.
Proof.
  revert s. induction sub as [|a sub IH]; intros s; simpl.
  - split; eauto.
  - destruct s as [|b s]; [split; [done|intros [t [=]]]|].
    rewrite andb_true_iff, ceqb_eq, IH. split.
    + intros [-> [t ->]]. eauto.
    + intros [t [= -> ->]]. eauto.
Qed.

Lemma includes_l_spec s sub :
  includes_l s sub = true <-> exists a b, s = a ++ sub ++ b.
Proof.
  induction s as [|c s IH]; simpl; rewrite orb_true_iff, starts_with_spec.
  - split.
    + intros [[t Ht]|[=]]. exists [], t. done.
    + intros (a & b & H). left. destruct a; [|done]. exists b. done.
  - rewrite IH. split.
    + intros [[t Ht]|(a & b & ->)]; [exists [], t; done|exists (c :: a), b; done].
    + intros (a & b & H). destruct a as [|c' a]; [left; eauto|right].
      injection H as -> ->. eauto.
Qed.

Lemma includes_l_app_r s a b : includes_l s (a ++ b) = true -> includes_l s b = true.
Proof.
  rewrite !includes_l_spec. intros (x & y & ->). exists (x ++ a), y.
  by rewrite <- !app_assoc.
Qed.

Lemma includes_l_app_l s a b : includes_l s (a ++ b) = true -> includes_l s a = true.
Proof.
  rewrite !includes_l_spec. intros (x & y & ->). exists x, (b ++ y).
  by rewrite <- !app_assoc.
Qed.

(** A leading tilde: whatever the replacement text, the rest of the path
    still follows it. *)
Lemma replace_leading_tilde rest repl :
  exists g, replace_l ("~"%char :: rest) ["~"%char] repl = g ++ rest.
Proof. unfold replace_l. simpl. rewrite drop_0. eauto. Qed.

Lemma includes_replace_leading_tilde f p rest home :
  chars p = "~"%char :: rest ->
  includes_l (chars f) rest = false ->
  includes f (replace p "~" home) = false.
Proof.
  intros Hp Hf. unfold includes, replace. rewrite chars_str, Hp.
  change (chars "~") with ["~"%char].
  destruct (replace_leading_tilde rest (chars home)) as [g ->].
  destruct (includes_l (chars f) (g ++ rest)) eqn:E; [|done].
  apply includes_l_app_r in E. congruence.
Qed.
End StringFacts.

Section PathFacts.
Import JsStr Patterns.
Variable HOME : option string.

Lemma commandReferencesPath_literal command protPath :
  isGlobPattern protPath = false ->
  commandReferencesPath HOME command protPath =
    Ok (includes command (replace protPath "~" (home HOME)) || includes command protPath).
Proof. intros H. unfold commandReferencesPath. by rewrite H. Qed.

Lemma commandReferencesPath_raw command protPath :
  isGlobPattern protPath = false ->
  includes command protPath = true ->
  commandReferencesPath HOME command protPath = Ok true.
Proof.
  intros H1 H2. rewrite commandReferencesPath_literal by done.
  by rewrite H2, orb_true_r.
Qed.
End PathFacts.

Import JsStr Patterns.
Local Open Scope string_scope.


(** ** The scenarios of the specification on the default rules *)

Section Scenarios.
Import JsStr Patterns.
Local Open Scope string_scope.

(** Claim C3. With the single rule [~/.bashrc] (readOnly), whatever the home
    directory: [cat ~/.bashrc] is no violation, [echo x >> ~/.bashrc] is a
    write violation of that rule and [rm ~/.bashrc] a delete violation. *)
Theorem shell_classifier_precision (HOME : option string) :
  let rule := {| path := "~/.bashrc"; level := readOnly |} in
  checkShellPathViolation HOME "cat ~/.bashrc" [rule] = Ok None /\
  checkShellPathViolation HOME "echo x >> ~/.bashrc" [rule] = Ok (Some (rule, OpWrite)) /\
  checkShellPathViolation HOME "rm ~/.bashrc" [rule] = Ok (Some (rule, OpDelete)).
Proof.
  intros rule. unfold checkShellPathViolation, isShellWrite, isShellDelete.
  simpl level. simpl path.
  rewrite !commandReferencesPath_raw by reflexivity.
  repeat split; vm_compute; reflexivity.
Qed.

(** Claim C5. On the default pattern list, [DROP TABLE users] is matched by
    the block rule with reason [SQL DROP TABLE]; [git reset --hard HEAD~1] by
    the ask rule whose reason contains [git reset --hard]; and the force-push
    block rule, a member of the list, does not match
    [git push --force-with-lease origin main]. *)
Theorem default_patterns_scenarios :
  let drop_table :=
    {| pattern := "DROP\s+TABLE"; reason := "SQL DROP TABLE"; action := block |} in
  let reset_hard :=
    {| pattern := "git\s+reset\s+--hard";
       reason := "git reset --hard (use --soft or stash)"; action := ask |} in
  let force_push :=
    {| pattern := "git\s+push\s+.*--force(?!-with-lease)";
       reason := "git push --force (use --force-with-lease)"; action := block |} in
  matchPattern "DROP TABLE users" DEFAULT_PATTERNS = Ok (Some ("DROP TABLE", drop_table)) /\
  matchPattern "git reset --hard HEAD~1" DEFAULT_PATTERNS
    = Ok (Some ("git reset --hard", reset_hard)) /\
  includes (reason reset_hard) "git reset --hard" = true /\
  In force_push DEFAULT_PATTERNS /\
  matchPattern "git push --force-with-lease origin main" [force_push] = Ok None.
Proof.
  cbv zeta; repeat split; try (vm_compute; reflexivity).
  unfold DEFAULT_PATTERNS; do 22 right; left; reflexivity.
Qed.

End Scenarios.

(** ** The protection evaluator returns the first violation *)

Section FirstViolation.
Import JsStr Patterns Spec.
Local Open Scope string_scope.
Local Open Scope list_scope.

Variable HOME : option string.
Variable command : string.

Lemma commandReferencesPath_ok protPath :
  (isGlobPattern protPath = true -> is_ok (globToRegex protPath) = true) ->
  exists b, commandReferencesPath HOME command protPath = Ok b.
Proof.
  intros H. unfold commandReferencesPath.
  destruct (isGlobPattern protPath); [|eauto].
  destruct (globToRegex protPath); [eauto|]. by specialize (H eq_refl).
Qed.

(** One turn of the loop: the rule is respected and the loop goes on, or
    it is violated with exactly one operation and the loop returns it. *)
Lemma checkShellPathViolation_step p rest :
  (isGlobPattern (path p) = true -> is_ok (globToRegex (path p)) = true) ->
  (respected HOME command p /\
   (forall op, ~ violated HOME command p op) /\
   checkShellPathViolation HOME command (p :: rest)
     = checkShellPathViolation HOME command rest) \/
  (exists op, violated HOME command p op /\
              (forall op', violated HOME command p op' -> op' = op) /\
              ~ respected HOME command p /\
              checkShellPathViolation HOME command (p :: rest) = Ok (Some (p, op))).
Proof.
  intros Hglob. destruct (commandReferencesPath_ok _ Hglob) as [refs Hrefs].
  unfold respected, violated. cbn [checkShellPathViolation].
  unfold isShellWrite, isShellDelete. rewrite Hrefs.
  destruct (level p), refs;
    repeat match goal with
      | |- context [any_op_matches ?ops ?c] => destruct (any_op_matches ops c)
      end;
    first [ left; split; [done|]; split; [|done]; intros op; intuition congruence
          | right; eexists; split; [solve [intuition eauto]|];
            split; [intros op'; intuition congruence|];
            split; [intuition congruence|done] ].
Qed.

End FirstViolation.


(** ** First match wins *)

Section FirstMatch.
Import JsStr Patterns Spec.
Local Open Scope string_scope.
Local Open Scope list_scope.

Lemma test_matches_anywhere ic r s :
  RegExp.test ic r s = true <-> RegExp.matches_anywhere ic s r.
Proof. apply test_spec. Qed.

Lemma test_false_matches_anywhere ic r s :
  RegExp.test ic r s = false <-> ~ RegExp.matches_anywhere ic s r.
Proof. rewrite <- test_matches_anywhere. by destruct (RegExp.test ic r s). Qed.

Lemma or_default_reported command p regex :
  RegExp.test true regex (chars command) = true ->
  reported command p regex
    (or_default (RegExp.match0 true regex (chars command)) (pattern p)).
Proof.
  unfold RegExp.test, RegExp.match0, reported.
  pose proof (exec_spec true (chars command) regex) as H.
  destruct (RegExp.exec true (chars command) regex) as [[i e]|]; [|done].
  intros _. destruct H as (Hie & Hm & Hleft). exists i, e.
  split; [done|]. split; [done|]. split; [done|].
  destruct (Nat.eqb_spec e i) as [->|Hne].
  - by rewrite Nat.sub_diag.
  - destruct (firstn (e - i) (skipn i (chars command))) eqn:E; [|done].
    apply (f_equal length) in E. rewrite length_take, length_drop in E.
    simpl in E. lia.
Qed.

Variable command : string.

Lemma matchPattern_step p rest :
  is_Some (RegExp.compile (pattern p)) ->
  (pattern_fails command p /\ ~ pattern_matches command p /\
   matchPattern command (p :: rest) = matchPattern command rest) \/
  (exists regex matched,
      RegExp.compile (pattern p) = Some regex /\
      pattern_matches command p /\ ~ pattern_fails command p /\
      reported command p regex matched /\
      matchPattern command (p :: rest) = Ok (Some (matched, p))).
Proof.
  intros [regex Hc]. unfold pattern_fails, pattern_matches.
  cbn [matchPattern]. rewrite Hc.
  destruct (RegExp.test true regex (chars command)) eqn:Ht.
  - right. exists regex, (or_default (RegExp.match0 true regex (chars command)) (pattern p)).
    pose proof Ht as Ht'. apply test_matches_anywhere in Ht'.
    split; [done|]. split; [eauto|]. split.
    + intros (r' & Hc' & Hn). congruence.
    + split; [by apply or_default_reported|done].
  - left. pose proof Ht as Ht'. apply test_false_matches_anywhere in Ht'.
    split; [eauto|]. split; [|done].
    intros (r' & Hc' & Hn). congruence.
Qed.

Theorem matchPattern_spec (patterns : list Pattern) :
  patterns_compile patterns ->
  (forall matched p,
      matchPattern command patterns = Ok (Some (matched, p)) ->
      exists before after regex,
        patterns = before ++ p :: after /\
        Forall (pattern_fails command) before /\
        RegExp.compile (pattern p) = Some regex /\
        RegExp.matches_anywhere true (chars command) regex /\
        reported command p regex matched) /\
  (forall before p after,
      patterns = before ++ p :: after ->
      Forall (pattern_fails command) before ->
      pattern_matches command p ->
      exists matched, matchPattern command patterns = Ok (Some (matched, p))) /\
  (matchPattern command patterns = Ok None <-> Forall (pattern_fails command) patterns).
Proof.
  unfold patterns_compile. induction 1 as [|q rest Hq Hrest (IH1 & IH2 & IH3)].
  - split; [done|]. split; [|split; [constructor|done]].
    intros before p after H. by destruct before.
  - destruct (matchPattern_step q rest Hq)
      as [(Hfail & Hnm & ->)|(regex & matched & Hc & Hm & Hnf & Hrep & ->)].
    + split; [|split].
      * intros matched p H. apply IH1 in H as (before & after & regex & -> & Hb & Hrest').
        exists (q :: before), after, regex. split; [done|]. split; [by constructor|done].
      * intros before p after Heq Hb Hm. destruct before as [|q' before].
        -- injection Heq as <- <-. done.
        -- injection Heq as <- ->. inversion_clear Hb. eauto.
      * rewrite IH3. split; [by constructor|by inversion 1].
    + split; [|split].
      * intros matched' p [= <- <-]. exists [], rest, regex.
        split; [done|]. split; [constructor|]. split; [done|].
        destruct Hm as (r' & Hc' & Hm). split; [congruence|done].
      * intros before p after Heq Hb Hm'. destruct before as [|q' before].
        -- injection Heq as <- <-. eauto.
        -- injection Heq as <- ->. by inversion_clear Hb.
      * split; [done|]. by inversion 1.
Qed.

Variable HOME : option string.
Variable filePath : string.

Lemma checkPathProtection_step p rest :
  (isGlobPattern (path p) = true -> is_ok (globToRegex (path p)) = true) ->
  (path_misses HOME filePath p /\ ~ path_matches HOME filePath p /\
   checkPathProtection HOME filePath (p :: rest) = checkPathProtection HOME filePath rest) \/
  (path_matches HOME filePath p /\ ~ path_misses HOME filePath p /\
   checkPathProtection HOME filePath (p :: rest) = Ok (Some p)).
Proof.
  intros Hglob. unfold path_misses, path_matches. cbn [checkPathProtection].
  destruct (isGlobPattern (path p)).
  - destruct (globToRegex (path p)) as [regex|]; [|by specialize (Hglob eq_refl)].
    destruct (RegExp.test false regex (Patterns.basename (chars filePath))) eqn:Ht.
    + right. split; [by exists regex|]. split; [|done].
      intros (r' & Hr' & ?). injection Hr' as <-. congruence.
    + left. split; [by exists regex|]. split; [|done].
      intros (r' & Hr' & ?). injection Hr' as <-. congruence.
  - destruct (includes filePath (replace (path p) "~" (home HOME))),
             (includes filePath (path p)); simpl;
      first [ right; split; [by auto|]; split; [|done]; intros [? ?]; congruence
            | left; split; [done|]; split; [|done]; intros [?|?]; congruence ].
Qed.

Theorem checkPathProtection_spec (protectedPaths : list ProtectedPath) :
  globs_compile protectedPaths ->
  (forall r,
      checkPathProtection HOME filePath protectedPaths = Ok (Some r) <->
      exists before after,
        protectedPaths = before ++ r :: after /\
        Forall (path_misses HOME filePath) before /\
        path_matches HOME filePath r) /\
  (checkPathProtection HOME filePath protectedPaths = Ok None <->
   Forall (path_misses HOME filePath) protectedPaths).
Proof.
  unfold globs_compile. induction 1 as [|p rest Hp Hrest [IHsome IHnone]].
  - split.
    + intros r. split; [done|]. intros (before & after & H & _). by destruct before.
    + split; [constructor|done].
  - destruct (checkPathProtection_step p rest Hp) as [(Hmiss & Hnm & ->)|(Hm & Hnmiss & ->)].
    + split.
      * intros r. rewrite IHsome. split.
        -- intros (before & after & -> & Hb & Hv). exists (p :: before), after.
           split; [done|]. split; [by constructor|done].
        -- intros (before & after & Heq & Hb & Hv). destruct before as [|q before].
           ++ injection Heq as <- <-. done.
           ++ injection Heq as <- ->. inversion_clear Hb. eauto.
      * rewrite IHnone. split; [by constructor|by inversion 1].
    + split.
      * intros r. split.
        -- intros [= <-]. exists [], rest. split; [done|]. split; [constructor|done].
        -- intros (before & after & Heq & Hb & Hv). destruct before as [|q before].
           ++ by injection Heq as <- <-.
           ++ injection Heq as <- ->. by inversion_clear Hb.
      * split; [done|]. by inversion 1.
Qed.

Lemma checkPathProtection_skip_tilde p rest :
  isGlobPattern (path p) = false ->
  (match chars (path p) with
   | "~"%char :: r => includes_l (chars filePath) r
   | _ => true
   end || includes filePath (path p)) = false ->
  checkPathProtection HOME filePath (p :: rest) = checkPathProtection HOME filePath rest.
Proof.
  intros Hg H. apply orb_false_iff in H as [H1 H2]. cbn [checkPathProtection].
  rewrite Hg, H2. destruct (chars (path p)) as [|c r] eqn:E; [done|].
  destruct (Ascii.eqb_spec c "~") as [->|]; [|by destruct c as [[] [] [] [] [] [] [] []]].
  by rewrite (includes_replace_leading_tilde _ _ _ _ E H1).
Qed.

Lemma checkPathProtection_hit_raw p rest :
  isGlobPattern (path p) = false ->
  includes filePath (path p) = true ->
  checkPathProtection HOME filePath (p :: rest) = Ok (Some p).
Proof. intros Hg H. cbn [checkPathProtection]. by rewrite Hg, H, orb_true_r. Qed.
End FirstMatch.

Section EtcPasswd.
Import JsStr Patterns Spec.
Local Open Scope string_scope.
Local Open Scope list_scope.

(** Whatever the home directory, [/etc/passwd] is classified by the
    zeroAccess rule [/etc/passwd]. *)
Lemma etc_passwd_zeroAccess HOME :
  checkPathProtection HOME "/etc/passwd" DEFAULT_PROTECTED_PATHS
    = Ok (Some {| path := "/etc/passwd"; level := zeroAccess |}).
Proof.
  unfold DEFAULT_PROTECTED_PATHS.
  do 7 (rewrite checkPathProtection_skip_tilde by reflexivity).
  by rewrite checkPathProtection_hit_raw by reflexivity.
Qed.

(** The readOnly rule [/etc/] comes later in the list and matches too. *)
Lemma etc_readOnly_later HOME :
  exists before after,
    DEFAULT_PROTECTED_PATHS =
      before ++ {| path := "/etc/passwd"; level := zeroAccess |} :: after /\
    In {| path := "/etc/"; level := readOnly |} after /\
    path_matches HOME "/etc/passwd" {| path := "/etc/"; level := readOnly |}.
Proof.
  eexists (firstn 7 DEFAULT_PROTECTED_PATHS), (skipn 8 DEFAULT_PROTECTED_PATHS).
  split; [reflexivity|]. split.
  - cbn [skipn DEFAULT_PROTECTED_PATHS]. do 28 right. left. reflexivity.
  - right. reflexivity.
Qed.

End EtcPasswd.

Lemma patterns_compile_check (patterns : list Patterns.Pattern) :
  forallb (fun p => match RegExp.compile (Patterns.pattern p) with
                    | Some _ => true
                    | None => false
                    end) patterns = true ->
  Spec.patterns_compile patterns.
Proof.
  induction patterns as [|p rest IH]; simpl; intros H; [constructor|].
  apply andb_true_iff in H as [Hp Hrest]. constructor; [|by apply IH].
  destruct (RegExp.compile (Patterns.pattern p)); [eauto|discriminate].
Qed.

Lemma globs_compile_check (paths : list Patterns.ProtectedPath) :
  forallb (fun p => negb (Patterns.isGlobPattern (Patterns.path p))
                    || is_ok (Patterns.globToRegex (Patterns.path p))) paths = true ->
  Spec.globs_compile paths.
Proof.
  induction paths as [|p rest IH]; simpl; intros H; [constructor|].
  apply andb_true_iff in H as [Hp Hrest]. constructor; [|by apply IH].
  intros Hg. by rewrite Hg in Hp.
Qed.


(** ** Path rules: basename, globs and the tilde *)

Section Basename.
Import JsStr RegExp.
Local Open Scope list_scope.

Variable s : list ascii.

Lemma rtc_one_char_elim p x y :
  rtc (one_char s p) x y ->
  x <= y /\ forall k, x <= k < y -> exists d, nth_error s k = Some d /\ p d = true.
Proof.
  induction 1 as [x|x y z (d & Hd & Hp & ->) _ [IHle IH]].
  - split; [lia|]. intros k Hk. lia.
  - split; [lia|]. intros k Hk. destruct (decide (k = x)) as [->|]; [eauto|].
    apply IH. lia.
Qed.

Lemma rtc_one_char_intro p n : forall x,
  (forall k, x <= k < x + n -> exists d, nth_error s k = Some d /\ p d = true) ->
  rtc (one_char s p) x (x + n).
Proof.
  induction n as [|n IH]; intros x H.
  - rewrite Nat.add_0_r. apply rtc_refl.
  - destruct (H x ltac:(lia)) as (d & Hd & Hp).
    apply rtc_l with (S x); [by exists d|].
    replace (x + S n) with (S x + n) by lia. apply IH. intros k Hk. apply H. lia.
Qed.

(** The regex of the literal [/\/+$/]. *)
Local Abbreviation trailing_slashes := (Seq (Plus true (Chr "/")) Eol).

Lemma literal_trailing_slashes : literal "\/+$" = trailing_slashes.
Proof. reflexivity. Qed.

Local Abbreviation is_slash := (ceqb "/"%char).

Lemma Matches_trailing_slashes i e :
  Matches false s trailing_slashes i e <->
  e = length s /\ i < length s /\
  forall k, i <= k < length s -> exists d, nth_error s k = Some d /\ is_slash d = true.
Proof.
  simpl. split.
  - intros (x & (y & (d & Hd & Hp & ->) & Hrtc) & -> & ->).
    apply rtc_one_char_elim in Hrtc as [Hle Hall].
    split; [done|]. split; [lia|].
    intros k Hk. destruct (decide (k = i)) as [->|]; [eauto|]. apply Hall. lia.
  - intros (-> & Hi & Hall). exists (length s). split; [|done].
    destruct (Hall i ltac:(lia)) as (d & Hd & Hp).
    exists (S i). split; [by exists d|].
    replace (length s) with (S i + (length s - S i)) at 1 by lia.
    apply rtc_one_char_intro. intros k Hk. apply Hall. lia.
Qed.

Lemma trim_trailing_slashes_cons c rest :
  Spec.trim_trailing_slashes (c :: rest) =
    match Spec.trim_trailing_slashes rest with
    | [] => if ceqb c "/" then [] else [c]
    | t => c :: t
    end.
Proof. reflexivity. Qed.

(** The subject is its trimmed form followed by slashes only, and the
    trimmed form does not end with a slash. *)
Lemma trim_trailing_slashes_decompose (l : list ascii) :
  exists n,
    l = Spec.trim_trailing_slashes l ++ repeat "/"%char n /\
    forall t c, Spec.trim_trailing_slashes l = t ++ [c] -> is_slash c = false.
Proof.
  induction l as [|c rest (n & Hrest & Hlast)].
  - exists 0. split; [done|]. intros t c H. by destruct t.
  - rewrite trim_trailing_slashes_cons.
    destruct (Spec.trim_trailing_slashes rest) as [|c' t'] eqn:E.
    + destruct (ceqb c "/") eqn:Ec.
      * apply ceqb_eq in Ec as ->. exists (S n). split; [simpl in *; congruence|].
        intros t c H. by destruct t.
      * exists n. split; [simpl in *; congruence|].
        intros t c0 H. destruct t as [|? [|? ?]]; try done.
        injection H as <-.         destruct (ceqb "/" c) eqn:E'; [|done]. apply ceqb_eq in E' as <-. done.
    + exists n. split; [simpl in *; congruence|].
      intros t c0 H. destruct t as [|c1 t]; [done|].
      injection H as <- H. eauto.
Qed.
End Basename.

Section Basename2.
Import JsStr RegExp.
Local Open Scope list_scope.

Local Abbreviation trailing_slashes := (Seq (Plus true (Chr "/")) Eol).
Local Abbreviation is_slash := (ceqb "/"%char).

Lemma nth_error_repeat_slash (t : list ascii) n k :
  length t <= k < length t + n ->
  nth_error (t ++ repeat "/"%char n) k = Some "/"%char.
Proof.
  intros Hk. rewrite nth_error_app2 by lia.
  apply nth_error_repeat. lia.
Qed.

Lemma Matches_trailing_slashes_trimmed (t : list ascii) n i e :
  (forall t' c, t = t' ++ [c] -> is_slash c = false) ->
  Matches false (t ++ repeat "/"%char n) trailing_slashes i e <->
  e = length t + n /\ length t <= i < length t + n.
Proof.
  intros Hlast. rewrite Matches_trailing_slashes, length_app, repeat_length.
  split.
  - intros (-> & Hi & Hall). split; [done|]. split; [|done].
    destruct (decide (length t <= i)) as [|Hlt]; [done|exfalso].
    destruct (exists_last (l := t)) as (t' & c & ->); [intros ->; simpl in *; lia|].
    specialize (Hlast _ _ eq_refl). rewrite length_app in *. cbn [length] in *.
    destruct (Hall (length t') ltac:(lia)) as (d & Hd & Hp).
    rewrite <- app_assoc in Hd. rewrite nth_error_app2 in Hd by lia.
    rewrite Nat.sub_diag in Hd. cbn [app nth_error] in Hd. congruence.
  - intros (-> & Hi). split; [done|]. split; [lia|].
    intros k Hk. exists "/"%char. split; [|done].
    apply nth_error_repeat_slash. lia.
Qed.

(** [filePath.replace(/\/+$/, '')] trims the trailing slashes. *)
Lemma remove_first_trailing_slashes (l : list ascii) :
  remove_first (literal "\/+$") l = Spec.trim_trailing_slashes l.
Proof.
  rewrite literal_trailing_slashes.
  destruct (trim_trailing_slashes_decompose l) as (n & Hl & Hlast).
  set (t := Spec.trim_trailing_slashes l) in *. clearbody t. subst l.
  unfold remove_first.
  pose proof (exec_spec false (t ++ repeat "/"%char n) trailing_slashes) as H.
  destruct (exec false (t ++ repeat "/"%char n) trailing_slashes) as [[i e]|].
  - destruct H as (_ & Hm & Hleft).
    apply Matches_trailing_slashes_trimmed in Hm as (-> & Hi); [|done].
    assert (i = length t) as ->.
    { destruct (decide (i = length t)) as [|Hne]; [done|exfalso].
      apply (Hleft (length t) (length t + n)); [lia|].
      apply Matches_trailing_slashes_trimmed; [done|lia]. }
    rewrite take_app_length.
    rewrite drop_ge by (rewrite length_app, repeat_length; lia).
    by rewrite app_nil_r.
  - destruct n as [|n]; [by rewrite app_nil_r|exfalso].
    apply (H (length t) (length t + S n)).
    + rewrite length_app, repeat_length. lia.
    + apply Matches_trailing_slashes_trimmed; [done|lia].
Qed.

Lemma ceqb_sym a b : ceqb a b = ceqb b a.
Proof. apply Ascii.eqb_sym. Qed.

Lemma final_segment_no_slash (l : list ascii) :
  existsb (ceqb "/") l = false -> Spec.final_segment l = l.
Proof.
  destruct l as [|c rest]; [done|]. cbn [existsb Spec.final_segment]. intros H.
  apply orb_false_iff in H as [Hc ->]. rewrite ceqb_sym in Hc. by rewrite Hc.
Qed.

Lemma lastIndexOf_from_spec (l : list ascii) : forall i,
  (0 <= i)%Z ->
  (lastIndexOf_from i "/" l = (-1)%Z /\ existsb (ceqb "/") l = false) \/
  (exists k, lastIndexOf_from i "/" l = (i + Z.of_nat k)%Z /\
             existsb (ceqb "/") l = true /\
             skipn (S k) l = Spec.final_segment l).
Proof.
  induction l as [|c rest IH]; intros i Hi; [by left|].
  cbn [lastIndexOf_from existsb Spec.final_segment].
  destruct (IH (i + 1)%Z ltac:(lia)) as [[Hidx Hno]|(k & Hidx & Hyes & Hseg)].
  - rewrite Hidx, Hno. change (0 <=? -1)%Z with false. cbv iota.
    rewrite (ceqb_sym c "/"), orb_false_r.
    destruct (ceqb "/" c); [right|by left].
    exists 0. split; [f_equal; lia|]. split; [done|]. done.
  - rewrite Hidx, Hyes. right. exists (S k).
    replace (0 <=? i + 1 + Z.of_nat k)%Z with true by (symmetry; apply Z.leb_le; lia).
    split; [lia|]. split; [by rewrite orb_true_r|]. done.
Qed.

(** The program's [basename] is the final path segment after trimming the
    trailing slashes. *)
Theorem basename_spec (filePath : list ascii) :
  Patterns.basename filePath = Spec.basename filePath.
Proof.
  unfold Patterns.basename, Spec.basename.
  rewrite remove_first_trailing_slashes.
  set (t := Spec.trim_trailing_slashes filePath). unfold lastIndexOf.
  destruct (lastIndexOf_from_spec t 0 ltac:(lia)) as [[-> Hno]|(k & -> & _ & Hseg)].
  - simpl. by rewrite final_segment_no_slash.
  - destruct (Z.eqb_spec (0 + Z.of_nat k) (-1)); [lia|].
    unfold slice. rewrite <- Hseg. f_equal. lia.
Qed.
End Basename2.

Section GlobAndTilde.
Import JsStr Patterns.
Local Open Scope string_scope.
Local Open Scope list_scope.

Lemma not_includes_char (l : list ascii) (c : ascii) :
  includes_l l [c] = false -> Forall (fun d => d <> c) l.
Proof.
  induction l as [|d l IH]; [constructor|]. cbn [includes_l starts_with].
  intros H. apply orb_false_iff in H as [Hd Hl]. constructor; [|by apply IH].
  intros ->. rewrite andb_true_r in Hd. unfold ceqb in Hd. by rewrite Ascii.eqb_refl in Hd.
Qed.

(** Except for the question mark, the program escapes what the
    specification says. *)
Lemma escaped_chars_metachars (c : ascii) :
  c <> "?"%char ->
  existsb (ceqb c) escaped_chars
  = existsb (ceqb c) Spec.regex_metachars && negb (ceqb c "*").
Proof.
  destruct c as [[] [] [] [] [] [] [] []]; intros H; try reflexivity; by destruct H.
Qed.

Lemma escape_glob_spec (glob : list ascii) :
  Forall (fun d => d <> "?"%char) glob ->
  escape_glob glob = Spec.escape_all_but_star glob.
Proof.
  unfold escape_glob, Spec.escape_all_but_star.
  induction 1 as [|c l Hc _ IH]; [done|]. cbn [flat_map].
  by rewrite IH, escaped_chars_metachars.
Qed.

Lemma glob_source_spec (glob : string) :
  includes glob "?" = false -> glob_source glob = Spec.glob_regex_source glob.
Proof.
  intros H. unfold glob_source, Spec.glob_regex_source.
  by rewrite escape_glob_spec by by apply not_includes_char.
Qed.

Lemma get_substitution_cons_plain matched before after c repl :
  c <> "$"%char ->
  get_substitution matched before after (c :: repl)
  = c :: get_substitution matched before after repl.
Proof.
  destruct c as [[] [] [] [] [] [] [] []]; intros H; try reflexivity; by destruct H.
Qed.

Lemma get_substitution_plain matched before after repl :
  Forall (fun d => d <> "$"%char) repl ->
  get_substitution matched before after repl = repl.
Proof.
  induction 1 as [|c l Hc _ IH]; [done|].
  by rewrite get_substitution_cons_plain, IH.
Qed.

(** With a home-directory value free of dollar signs, [replace] puts that
    value in the place of the first tilde. *)
Lemma replace_expand_first_tilde (home path : string) :
  includes home "$" = false ->
  replace path "~" home = Spec.expand_first_tilde home path.
Proof.
  intros H. unfold replace, replace_l, Spec.expand_first_tilde.
  change (chars "~") with ["~"%char].
  destruct (split_first ["~"%char] (chars path)) as [[before after]|].
  - by rewrite get_substitution_plain by by apply not_includes_char.
  - apply str_chars.
Qed.

Variable HOME : option string.
Variable filePath : string.

Lemma checkPathProtection_single_glob p :
  isGlobPattern (path p) = true ->
  checkPathProtection HOME filePath [p] = Ok (Some p) <->
  exists regex, RegExp.compile_l (glob_source (path p)) = Some regex /\
                RegExp.test false regex (Patterns.basename (chars filePath)) = true.
Proof.
  intros Hg. cbn [checkPathProtection]. rewrite Hg. unfold globToRegex.
  destruct (RegExp.compile_l (glob_source (path p))) as [regex|].
  - destruct (RegExp.test false regex (Patterns.basename (chars filePath))) eqn:E.
    + split; [eauto|done].
    + split; [done|]. intros (r' & [= <-] & ?). congruence.
  - split; [done|]. by intros (r' & ? & _).
Qed.

Lemma checkPathProtection_single_literal p :
  isGlobPattern (path p) = false ->
  checkPathProtection HOME filePath [p] = Ok (Some p) <->
  includes filePath (replace (path p) "~" (home HOME)) = true \/
  includes filePath (path p) = true.
Proof.
  intros Hg. cbn [checkPathProtection]. rewrite Hg.
  destruct (includes filePath (replace (path p) "~" (home HOME))),
           (includes filePath (path p)); simpl; intuition congruence.
Qed.
End GlobAndTilde.

Section GlobCompiles.
Import JsStr RegExp Patterns.
Local Open Scope list_scope.

(** The regex text of one glob character. *)
Local Abbreviation tok c := (expand_stars (escape_glob [c])).

(** No quantifier, closing parenthesis or bar in front. *)
Local Abbreviation plain_head r :=
  (match r with
   | c :: _ => negb (existsb (ceqb c) [")"; "|"; "*"; "+"; "?"; "{"]%char)
   | [] => true
   end).

Lemma quantify_plain_head a r : plain_head r = true -> quantify a r = (a, r).
Proof.
  destruct r as [|c r]; [done|].
  destruct c as [[] [] [] [] [] [] [] []]; intros H; try reflexivity; discriminate H.
Qed.

Lemma body_cons c l :
  expand_stars (escape_glob (c :: l)) = tok c ++ expand_stars (escape_glob l).
Proof.
  unfold expand_stars, escape_glob. cbn [flat_map]. by rewrite flat_map_app, app_nil_r.
Qed.

Lemma tok_plain_head c r : c <> "?"%char -> plain_head (tok c ++ r) = true.
Proof.
  destruct c as [[] [] [] [] [] [] [] []]; intros H; try reflexivity; by destruct H.
Qed.

Lemma tok_length c : 1 <= length (tok c).
Proof. destruct c as [[] [] [] [] [] [] [] []]; cbn; lia. Qed.

Lemma quantify_star a r :
  plain_head r = true -> quantify a ("*"%char :: r) = (Star true a, r).
Proof.
  destruct r as [|c r]; [done|].
  destruct c as [[] [] [] [] [] [] [] []]; intros H; try reflexivity; discriminate H.
Qed.

(** One glob character is one term. *)
Lemma parse_term_tok c r n :
  c <> "?"%char -> plain_head r = true ->
  exists t, parse_term (S n) (tok c ++ r) = Some (t, r).
Proof.
  intros Hc Hr.
  destruct c as [[] [] [] [] [] [] [] []]; try (by destruct Hc);
    cbn -[quantify is_digit];
    try (match goal with
         | |- context [is_digit ?c] =>
             let b := eval vm_compute in (is_digit c) in change (is_digit c) with b
         end; cbv iota);
    rewrite ?(quantify_star _ r Hr), ?(quantify_plain_head _ r Hr); eauto.
Qed.

(** A term in front of a disjunction. *)
Lemma parse_disj_term n s t r1 :
  plain_head s = true -> s <> [] ->
  parse_term (S n) s = Some (t, r1) ->
  parse_disj (S (S n)) s
  = match parse_disj (S n) r1 with
    | Some (alts, rest) => Some (cons_term t alts, rest)
    | None => None
    end.
Proof.
  destruct s as [|c s']; [done|]. intros Hc _ H.
  destruct c as [[] [] [] [] [] [] [] []]; try discriminate Hc;
    cbn [parse_disj]; by rewrite H.
Qed.

Lemma body_plain_head l :
  Forall (fun c => c <> "?"%char) l ->
  plain_head (expand_stars (escape_glob l) ++ ["$"%char]) = true.
Proof.
  destruct 1 as [|c l Hc _]; [done|]. rewrite body_cons, <- app_assoc.
  by apply tok_plain_head.
Qed.

Lemma body_not_nil l : expand_stars (escape_glob l) ++ ["$"%char] <> [].
Proof. by destruct (expand_stars (escape_glob l)). Qed.

(** The regex text of a glob without question marks, up to the closing
    anchor, is one alternative. *)
Lemma parse_disj_body l :
  Forall (fun c => c <> "?"%char) l ->
  forall n, exists terms,
    parse_disj (length l + 2 + n) (expand_stars (escape_glob l) ++ ["$"%char])
    = Some ([terms], []).
Proof.
  induction 1 as [|c l Hc Hl IH]; intros n.
  - by exists [Eol].
  - destruct (IH n) as [terms Hterms].
    pose proof (body_plain_head l Hl) as Hhead.
    destruct (parse_term_tok c (expand_stars (escape_glob l) ++ ["$"%char])
                (length l + 1 + n) Hc Hhead) as [t Ht].
    exists (t :: terms). rewrite body_cons, <- app_assoc.
    replace (length (c :: l) + 2 + n) with (S (S (length l + 1 + n))) by (cbn; lia).
    rewrite (parse_disj_term _ _ t (expand_stars (escape_glob l) ++ ["$"%char]));
      [|by apply tok_plain_head| |exact Ht].
    + replace (S (length l + 1 + n)) with (length l + 2 + n) by lia. by rewrite Hterms.
    + pose proof (tok_length c) as Hlen. destruct (tok c); [cbn in Hlen; lia|done].
Qed.

Lemma body_length l : length l <= length (expand_stars (escape_glob l)).
Proof.
  induction l as [|c l IH]; [done|]. rewrite body_cons, length_app.
  pose proof (tok_length c). cbn [length]. lia.
Qed.

(** A glob without question marks translates to a well-formed regex. *)
Theorem globToRegex_ok (glob : string) :
  includes glob "?" = false -> is_ok (globToRegex glob) = true.
Proof.
  intros H. apply not_includes_char in H.
  unfold globToRegex, compile_l, glob_source.
  set (body := expand_stars (escape_glob (chars glob))).
  pose proof (body_length (chars glob)) as Hlen. fold body in Hlen.
  destruct (parse_disj_body _ H (2 * length body + 3 - length (chars glob))) as [terms Hterms].
  fold body in Hterms.
  replace (2 * length ("^"%char :: body ++ ["$"%char]) + 2)
    with (S (S (length (chars glob) + 1 + (2 * length body + 3 - length (chars glob)))))
    by (cbn [length]; rewrite length_app; cbn [length]; lia).
  rewrite (parse_disj_term _ _ Bol (body ++ ["$"%char])); [|done|done|done].
  replace (S (length (chars glob) + 1 + (2 * length body + 3 - length (chars glob))))
    with (length (chars glob) + 2 + (2 * length body + 3 - length (chars glob))) by lia.
  by rewrite Hterms.
Qed.
End GlobCompiles.

Lemma globs_compile_no_question_mark (paths : list Patterns.ProtectedPath) :
  Forall (fun p => JsStr.includes (Patterns.path p) "?" = false) paths ->
  Spec.globs_compile paths.
Proof.
  unfold Spec.globs_compile. induction 1 as [|p rest Hp _ IH]; constructor; [|done].
  intros _. by apply globToRegex_ok.
Qed.

Section RuleMatching.
Import JsStr Patterns.
Local Open Scope string_scope.
Local Open Scope list_scope.

(** Claim C4, amended. For a rule whose path contains [*] and no [?], the
    regex of the specification (every metacharacter but [*] escaped, [*]
    turned into [.*], anchored) is well formed, and the rule matches exactly
    when that regex accepts the basename of the file path, the final
    segment after trimming trailing slashes. A rule
    without [*] matches exactly when the file path contains the rule's path
    with its first tilde, wherever it stands, replaced by the home-directory
    value (a value free of dollar signs), or the raw path. So [*.pem]
    matches [/any/deep/path/server.pem] and not
    [/any/deep/path.pem/notes.txt], and [dist/] matches
    [/any/project/dist/index.js]. *)
Theorem checkPathProtection_rule_matching
    (HOME : option string) (filePath : string) (p : ProtectedPath) :
  (includes (path p) "*" = true ->
   includes (path p) "?" = false ->
   exists regex,
     RegExp.compile_l (Spec.glob_regex_source (path p)) = Some regex /\
     checkPathProtection HOME filePath [p]
     = Ok (if RegExp.test false regex (Spec.basename (chars filePath))
           then Some p else None)) /\
  (includes (path p) "*" = false ->
   includes (home HOME) "$" = false ->
   checkPathProtection HOME filePath [p]
   = Ok (if includes filePath (Spec.expand_first_tilde (home HOME) (path p))
            || includes filePath (path p)
         then Some p else None)) /\
  (let pem := {| path := "*.pem"; level := zeroAccess |} in
   let dist := {| path := "dist/"; level := readOnly |} in
   checkPathProtection HOME "/any/deep/path/server.pem" [pem] = Ok (Some pem) /\
   checkPathProtection HOME "/any/deep/path.pem/notes.txt" [pem] = Ok None /\
   checkPathProtection HOME "/any/project/dist/index.js" [dist] = Ok (Some dist)).
Proof.
  split; [|split].
  - intros Hstar Hq. pose proof (globToRegex_ok (path p) Hq) as Hok.
    cbn [checkPathProtection]. change (isGlobPattern (path p)) with (includes (path p) "*").
    rewrite Hstar. unfold globToRegex in *.
    rewrite <- glob_source_spec, <- basename_spec by done.
    destruct (RegExp.compile_l (glob_source (path p))) as [regex|]; [|discriminate Hok].
    exists regex. split; [done|].
    by destruct (RegExp.test false regex (Patterns.basename (chars filePath))).
  - intros Hstar Hd. cbn [checkPathProtection].
    change (isGlobPattern (path p)) with (includes (path p) "*").
    rewrite Hstar, replace_expand_first_tilde by done.
    by destruct (_ || _).
  - cbv zeta. split; [vm_compute; reflexivity|]. split; [vm_compute; reflexivity|].
    by apply checkPathProtection_hit_raw.
Qed.

(** The theorem at the rule [*.pem] and a key file, and at the rule
    [~/.ssh/] and a key under an ordinary home. *)
Lemma checkPathProtection_rule_matching_witness :
  let pem := {| path := "*.pem"; level := zeroAccess |} in
  let ssh := {| path := "~/.ssh/"; level := zeroAccess |} in
  (includes (path pem) "*" = true /\
   includes (path pem) "?" = false /\
   exists regex,
     RegExp.compile_l (Spec.glob_regex_source (path pem)) = Some regex /\
     checkPathProtection (Some "/home/user") "/srv/tls/server.pem" [pem]
     = Ok (if RegExp.test false regex (Spec.basename (chars "/srv/tls/server.pem"))
           then Some pem else None)) /\
  (includes (path ssh) "*" = false /\
   includes (home (Some "/home/user")) "$" = false /\
   checkPathProtection (Some "/home/user") "/home/user/.ssh/id_rsa" [ssh]
   = Ok (if includes "/home/user/.ssh/id_rsa"
               (Spec.expand_first_tilde (home (Some "/home/user")) (path ssh))
            || includes "/home/user/.ssh/id_rsa" (path ssh)
         then Some ssh else None)).
Proof.
  intros pem ssh. split.
  - split; [reflexivity|]. split; [reflexivity|].
    exact (proj1 (checkPathProtection_rule_matching
                    (Some "/home/user") "/srv/tls/server.pem" pem) eq_refl eq_refl).
  - split; [reflexivity|]. split; [reflexivity|].
    exact (proj1 (proj2 (checkPathProtection_rule_matching
                           (Some "/home/user") "/home/user/.ssh/id_rsa" ssh)) eq_refl eq_refl).
Defined.

(** Claim C4 as stated fails: a tilde that is not leading is expanded too.
    The rule [backup~old] matches a path that contains neither the rule's
    path nor, there being no leading tilde, anything the specification
    would expand it to. *)
Lemma checkPathProtection_tilde_not_leading :
  let p := {| path := "backup~old"; level := zeroAccess |} in
  ~ (checkPathProtection (Some "/home/user") "/srv/backup/home/userold" [p] = Ok (Some p) <->
     Spec.rule_matches "/home/user" "/srv/backup/home/userold" p = Some true).
Proof.
  intros p [H _].
  assert (Hcode : checkPathProtection (Some "/home/user") "/srv/backup/home/userold" [p]
                  = Ok (Some p)) by (vm_compute; reflexivity).
  apply H in Hcode. vm_compute in Hcode. discriminate.
Qed.

(** The question mark is not among the escaped characters: the glob [a?*]
    becomes the regex [^a?.*$], which accepts the name [b], and the glob
    [?*] becomes [^?.*$], which is no regex at all. *)
Lemma globToRegex_question_mark :
  let p := {| path := "a?*"; level := zeroAccess |} in
  checkPathProtection None "b" [p] = Ok (Some p) /\
  Spec.rule_matches "" "b" p = Some false /\
  globToRegex "?*" = Throw (SyntaxError "^?.*$").
Proof. cbv zeta. repeat split; vm_compute; reflexivity. Qed.
End RuleMatching.

(** ** The overlay: remove, then override, then add *)

Section Overlay.
Import Patterns Config.
Local Open Scope string_scope.
Local Open Scope list_scope.

Lemma existsb_eqb_In (k : string) (keys : list string) :
  existsb (String.eqb k) keys = true <-> In k keys.
Proof.
  rewrite existsb_exists. split.
  - intros (x & Hx & Heq). apply String.eqb_eq in Heq. by subst.
  - intros H. exists k. split; [done|]. apply String.eqb_refl.
Qed.

Lemma filter_removeSet {A} (key : A -> string) (remove : list string) (entries : list A) :
  filter (fun e => key e ∉ (list_to_set remove : gset string)) entries
  = Spec.remove_step key remove entries.
Proof.
  unfold Spec.remove_step. induction entries as [|e l IH]; [done|].
  rewrite filter_cons. cbn [List.filter]. rewrite IH.
  destruct (existsb (String.eqb (key e)) remove) eqn:E.
  - apply existsb_eqb_In in E. rewrite decide_False; [done|].
    intros H. apply H. apply elem_of_list_to_set. by apply list_elem_of_In.
  - rewrite decide_True; [done|]. intros H.
    apply elem_of_list_to_set, list_elem_of_In, existsb_eqb_In in H. congruence.
Qed.

Lemma override_paths_spec override paths afterOverride :
  override_paths override paths afterOverride
  = afterOverride ++ Spec.override_paths_step override paths.
Proof.
  unfold Spec.override_paths_step.
  revert afterOverride. induction paths as [|p l IH]; intros acc; cbn [override_paths flat_map].
  - by rewrite app_nil_r.
  - destruct (override !! path p) as [[lv|]|]; rewrite IH; [|done|];
      by rewrite <- app_assoc.
Qed.

Lemma remove_step_nil {A} (key : A -> string) (entries : list A) :
  Spec.remove_step key [] entries = entries.
Proof.
  unfold Spec.remove_step. induction entries as [|e l IH]; [done|].
  simpl in *. by rewrite IH.
Qed.

Lemma override_patterns_step_empty entries :
  Spec.override_patterns_step ∅ entries = entries.
Proof.
  unfold Spec.override_patterns_step. induction entries as [|e l IH]; [done|].
  cbn [map]. by rewrite lookup_empty, IH.
Qed.

Lemma override_paths_step_empty entries :
  Spec.override_paths_step ∅ entries = entries.
Proof.
  unfold Spec.override_paths_step. induction entries as [|e l IH]; [done|].
  cbn [flat_map]. by rewrite lookup_empty, IH.
Qed.

(** [applyConfig] is remove, then override, then add, on each list. *)
Lemma applyConfig_spec config defaultPatterns defaultPaths :
  applyConfig config defaultPatterns defaultPaths
  = (Spec.apply_patterns (cfg_patterns config) defaultPatterns,
     Spec.apply_paths (cfg_paths config) defaultPaths).
Proof.
  unfold applyConfig, Spec.apply_patterns, Spec.apply_paths, Spec.add_step. f_equal.
  - destruct (cfg_patterns config) as [[add remove override]|]; cbn.
    + destruct remove as [remove|], override as [override|], add as [add|]; cbn;
        rewrite ?filter_removeSet, ?remove_step_nil, ?override_patterns_step_empty,
                ?app_nil_r; reflexivity.
    + by rewrite remove_step_nil, override_patterns_step_empty, app_nil_r.
  - destruct (cfg_paths config) as [[add remove override]|]; cbn.
    + destruct remove as [remove|], override as [override|], add as [add|]; cbn;
        rewrite ?filter_removeSet, ?override_paths_spec, ?remove_step_nil,
                ?override_paths_step_empty, ?app_nil_r; reflexivity.
    + by rewrite remove_step_nil, override_paths_step_empty, app_nil_r.
Qed.

Lemma remove_step_gone {A} (key : A -> string) X (entries : list A) :
  ~ In X (map key (Spec.remove_step key [X] entries)).
Proof.
  unfold Spec.remove_step. rewrite in_map_iff. intros (e & <- & He).
  apply filter_In in He as [_ He]. cbn in He. by rewrite String.eqb_refl in He.
Qed.

Lemma remove_step_absent {A} (key : A -> string) X (entries : list A) :
  ~ In X (map key entries) -> Spec.remove_step key [X] entries = entries.
Proof.
  unfold Spec.remove_step. induction entries as [|e l IH]; [done|].
  cbn [map In List.filter existsb]. intros H.
  destruct (String.eqb_spec (key e) X) as [Heq|]; [tauto|].
  cbn. f_equal. apply IH. tauto.
Qed.

Lemma override_patterns_step_keys override entries :
  map reason (Spec.override_patterns_step override entries) = map reason entries.
Proof.
  unfold Spec.override_patterns_step. induction entries as [|e l IH]; [done|].
  cbn [map]. rewrite IH. by destruct (override !! reason e).
Qed.

Lemma override_paths_step_keys override entries X :
  In X (map path (Spec.override_paths_step override entries)) -> In X (map path entries).
Proof.
  unfold Spec.override_paths_step. induction entries as [|e l IH]; [done|].
  cbn [flat_map map]. rewrite map_app, in_app_iff. intros [H|H]; [|right; auto].
  destruct (override !! path e) as [[lv|]|]; cbn in H |- *; tauto.
Qed.

Lemma override_patterns_step_absent X v entries :
  ~ In X (map reason entries) ->
  Spec.override_patterns_step {[X := v]} entries = entries.
Proof.
  unfold Spec.override_patterns_step. induction entries as [|e l IH]; [done|].
  cbn [map In]. intros H. rewrite lookup_singleton_ne by (intros Heq; apply H; by left).
  rewrite IH; [done|tauto].
Qed.

Lemma override_paths_step_absent X v entries :
  ~ In X (map path entries) ->
  Spec.override_paths_step {[X := v]} entries = entries.
Proof.
  unfold Spec.override_paths_step. induction entries as [|e l IH]; [done|].
  cbn [map In flat_map]. intros H. rewrite lookup_singleton_ne by (intros Heq; apply H; by left).
  rewrite IH; [done|tauto].
Qed.

End Overlay.


(** ** Merging the two sources *)

Section Merge.
Import Patterns Config.
Local Open Scope string_scope.
Local Open Scope list_scope.

Lemma or_nil_nonempty {A} (l : list A) : or_nil (nonempty l) = l.
Proof. by destruct l. Qed.

Lemma or_empty_nonempty_map {V} (m : gmap string V) : or_empty (nonempty_map m) = m.
Proof. unfold nonempty_map. by destruct (decide (m = ∅)) as [->|]. Qed.

Lemma spread2_lookup {V} (g p : gmap string V) k :
  spread2 g p !! k = match p !! k with
                     | Some v => Some v
                     | None => g !! k
                     end.
Proof.
  unfold spread2. destruct (p !! k) as [v|] eqn:E.
  - by apply lookup_union_Some_l.
  - by rewrite lookup_union_r.
Qed.

(** Claim C7. [mergeConfigs] concatenates the add lists and the remove
    lists, global entries first, and merges the override maps so that a key
    of both takes the project value; an absent field counts as empty. In
    particular a global override of [X] to [ask] and a project override of
    [X] to [block] merge into the override of [X] to [block]. *)
Theorem mergeConfigs_precedence (global project : DamageControlConfig) :
  let merged := mergeConfigs global project in
  (or_nil (cfg_patterns merged ≫= pc_add)
   = or_nil (cfg_patterns global ≫= pc_add) ++ or_nil (cfg_patterns project ≫= pc_add) /\
   or_nil (cfg_patterns merged ≫= pc_remove)
   = or_nil (cfg_patterns global ≫= pc_remove) ++ or_nil (cfg_patterns project ≫= pc_remove) /\
   forall k,
     or_empty (cfg_patterns merged ≫= pc_override) !! k
     = match or_empty (cfg_patterns project ≫= pc_override) !! k with
       | Some v => Some v
       | None => or_empty (cfg_patterns global ≫= pc_override) !! k
       end) /\
  (or_nil (cfg_paths merged ≫= pathc_add)
   = or_nil (cfg_paths global ≫= pathc_add) ++ or_nil (cfg_paths project ≫= pathc_add) /\
   or_nil (cfg_paths merged ≫= pathc_remove)
   = or_nil (cfg_paths global ≫= pathc_remove) ++ or_nil (cfg_paths project ≫= pathc_remove) /\
   forall k,
     or_empty (cfg_paths merged ≫= pathc_override) !! k
     = match or_empty (cfg_paths project ≫= pathc_override) !! k with
       | Some v => Some v
       | None => or_empty (cfg_paths global ≫= pathc_override) !! k
       end) /\
  (let only_override (v : Action) :=
     {| cfg_patterns := Some {| pc_add := None; pc_remove := None;
                                pc_override := Some {["X" := v]} |};
        cfg_paths := None |} in
   mergeConfigs (only_override ask) (only_override block) = only_override block).
Proof.
  intros merged. subst merged. unfold mergeConfigs. split; [|split].
  - destruct (cfg_patterns global) as [gp|], (cfg_patterns project) as [pp|]; cbn;
      rewrite ?or_nil_nonempty, ?or_empty_nonempty_map;
      repeat split; try done; intros k; apply spread2_lookup.
  - destruct (cfg_paths global) as [gp|], (cfg_paths project) as [pp|]; cbn;
      rewrite ?or_nil_nonempty, ?or_empty_nonempty_map;
      repeat split; try done; intros k; apply spread2_lookup.
  - vm_compute. reflexivity.
Qed.
End Merge.

(** ** Validation and what it raises *)

Section Validation.
Import JsStr Patterns Config.
Local Open Scope string_scope.
Local Open Scope list_scope.

Variable source : string.

Lemma includes_append_r (a b sub : string) :
  includes b sub = true -> includes (a +:+ b) sub = true.
Proof.
  unfold includes. rewrite chars_append, !includes_l_spec.
  intros (x & y & ->). exists (chars a ++ x), y. by rewrite <- app_assoc.
Qed.

(** Claim C8, where the program departs from it: an override whose value is
    an object with an own property named [toString] makes [validateConfig]
    raise a [TypeError], when the warning text is built, instead of
    returning a warning. *)
Theorem validateConfig_raises :
  let raw :=
    JObject [("patterns",
              JObject [("override",
                        JObject [("X", JObject [("toString", JNumber "1")])])])] in
  validateConfig source raw
  = Throw (TypeError "Cannot convert object to primitive value").
Proof. reflexivity. Qed.

(** What does hold. A value that is not an object gives the empty config and
    one warning. *)
Lemma validateConfig_not_an_object (raw : json) :
  isObject (Some raw) = false ->
  validateConfig source raw
  = Ok (empty_config, [source +:+ ": config is not an object, ignoring"]).
Proof. intros H. destruct raw; try discriminate H; reflexivity. Qed.

(** The override with an action that is not one: no override is kept, and
    the one warning names the value. *)
Lemma validateConfig_invalid_action :
  let raw :=
    JObject [("patterns",
              JObject [("override", JObject [("X", JString "not-a-real-action")])])] in
  let warning :=
    source +:+ ": " +:+ dq +:+ "patterns.override[" +:+ JSON_stringify "X" +:+ "]" +:+ dq
    +:+ " has invalid action " +:+ dq +:+ "not-a-real-action" +:+ dq +:+ ", skipping" in
  validateConfig source raw
  = Ok ({| cfg_patterns := Some {| pc_add := None; pc_remove := None;
                                   pc_override := None |};
           cfg_paths := None |}, [warning]) /\
  includes warning "not-a-real-action" = true.
Proof.
  cbv zeta. split; [vm_compute; reflexivity|].
  apply includes_append_r. vm_compute. reflexivity.
Qed.

(** One warning for each top-level key other than [patterns], [paths] and
    [$schema], in the order of the keys; nothing else is done with them. *)
Lemma warn_unknown_keys_spec keys : forall ws,
  warn_unknown_keys source keys ws
  = Ok (tt, ws ++ map (fun key => source +:+ ": unknown key " +:+ dq +:+ key +:+ dq
                                  +:+ ", ignoring")
                    (List.filter (fun key => negb (String.eqb key "patterns")
                                             && negb (String.eqb key "paths")
                                             && negb (String.eqb key "$schema")) keys)).
Proof.
  induction keys as [|key rest IH]; intros ws; cbn [warn_unknown_keys List.filter].
  - by rewrite app_nil_r.
  - unfold bind at 1.
    destruct (negb (String.eqb key "patterns") && negb (String.eqb key "paths")
              && negb (String.eqb key "$schema")).
    + unfold warn at 1. rewrite IH. cbn [map]. by rewrite <- app_assoc.
    + unfold ret at 1. by rewrite IH.
Qed.

(** A computation of the validator that cannot raise. *)
Local Abbreviation total c := (forall ws, exists a ws', c ws = Ok (a, ws')).

Lemma total_ret {A} (a : A) : total (ret a).
Proof. intros ws. by exists a, ws. Qed.

Lemma total_warn w : total (warn w).
Proof. intros ws. by exists tt, (ws ++ [w]). Qed.

Lemma total_bind {A B} (c : M A) (f : A -> M B) :
  total c -> (forall a, total (f a)) -> total (bind c f).
Proof.
  intros Hc Hf ws. unfold bind. destruct (Hc ws) as (a & ws' & ->). apply Hf.
Qed.

Lemma total_validate_patterns_add items : forall i valid,
  total (validate_patterns_add source i items valid).
Proof.
  induction items as [|v rest IH]; intros i valid; cbn [validate_patterns_add].
  - apply total_ret.
  - destruct (isValidPattern v); [apply IH|].
    apply total_bind; [apply total_warn|]. intros _. apply IH.
Qed.

Lemma total_validate_paths_add items : forall i valid,
  total (validate_paths_add source i items valid).
Proof.
  induction items as [|v rest IH]; intros i valid; cbn [validate_paths_add].
  - apply total_ret.
  - destruct (isValidProtectedPath v); [apply IH|].
    apply total_bind; [apply total_warn|]. intros _. apply IH.
Qed.

Lemma total_validate_remove field items : total (validate_remove source field items).
Proof.
  unfold validate_remove. apply total_bind; [|intros _; apply total_ret].
  destruct (Nat.eqb _ _); [apply total_ret|apply total_warn].
Qed.

Lemma total_validate_patterns_override entries : forall valid,
  Forall (fun kv => is_ok (ToString kv.2) = true) entries ->
  total (validate_patterns_override source entries valid).
Proof.
  induction entries as [|[key val] rest IH]; intros valid H;
    cbn [validate_patterns_override]; [apply total_ret|].
  inversion_clear H as [|? ? Hval Hrest]. cbn [snd] in Hval.
  destruct (has VALID_ACTIONS (Some val)); [by apply IH|].
  apply total_bind.
  - intros ws. unfold lift. destruct (ToString val); [eauto|discriminate].
  - intros shown. apply total_bind; [apply total_warn|]. intros _. by apply IH.
Qed.

Lemma total_validate_paths_override entries : forall valid,
  Forall (fun kv => is_ok (ToString kv.2) = true) entries ->
  total (validate_paths_override source entries valid).
Proof.
  induction entries as [|[key val] rest IH]; intros valid H;
    cbn [validate_paths_override]; [apply total_ret|].
  inversion_clear H as [|? ? Hval Hrest]. cbn [snd] in Hval.
  destruct (has VALID_LEVELS (Some val)); [by apply IH|].
  apply total_bind.
  - intros ws. unfold lift. destruct (ToString val); [eauto|discriminate].
  - intros shown. apply total_bind; [apply total_warn|]. intros _. by apply IH.
Qed.

Lemma total_warn_unknown_keys keys : total (warn_unknown_keys source keys).
Proof.
  induction keys as [|key rest IH]; cbn [warn_unknown_keys]; [apply total_ret|].
  apply total_bind; [|by intros _].
  destruct (_ && _); [apply total_warn|apply total_ret].
Qed.

(** [validateConfig] returns, with a config and warnings, whenever the
    values of the override entries have a string conversion. *)
Lemma validateConfig_returns (raw : json) :
  Forall (fun kv => is_ok (ToString kv.2) = true) (Spec.override_entries raw "patterns") ->
  Forall (fun kv => is_ok (ToString kv.2) = true) (Spec.override_entries raw "paths") ->
  exists config warnings, validateConfig source raw = Ok (config, warnings).
Proof.
  intros Hpat Hpath. destruct raw as [| | | | |props]; try (cbn; eauto; fail).
  unfold validateConfig.
  apply total_bind; [|intros pats; apply total_bind;
                       [|intros pths; apply total_bind;
                           [apply total_warn_unknown_keys|intros _; apply total_ret]]].
  - unfold validate_patterns, Spec.override_entries in *.
    destruct (prop (JObject props) "patterns") as [[| | | | |section]|];
      try apply total_ret; try (apply total_bind; [apply total_warn|intros _; apply total_ret]).
    apply total_bind; [|intros add; apply total_bind; [|intros remove; apply total_bind;
                                                          [|intros ov; apply total_ret]]].
    + destruct (prop (JObject section) "add") as [[| | | |items|]|];
        try apply total_ret; try (apply total_bind; [apply total_warn|intros _; apply total_ret]).
      apply total_bind; [apply total_validate_patterns_add|intros; apply total_ret].
    + destruct (prop (JObject section) "remove") as [[| | | |items|]|];
        try apply total_ret; try (apply total_bind; [apply total_warn|intros _; apply total_ret]).
      apply total_validate_remove.
    + destruct (prop (JObject section) "override") as [[| | | | |entries]|];
        try apply total_ret; try (apply total_bind; [apply total_warn|intros _; apply total_ret]).
      apply total_bind; [by apply total_validate_patterns_override|intros; apply total_ret].
  - unfold validate_paths, Spec.override_entries in *.
    destruct (prop (JObject props) "paths") as [[| | | | |section]|];
      try apply total_ret; try (apply total_bind; [apply total_warn|intros _; apply total_ret]).
    apply total_bind; [|intros add; apply total_bind; [|intros remove; apply total_bind;
                                                          [|intros ov; apply total_ret]]].
    + destruct (prop (JObject section) "add") as [[| | | |items|]|];
        try apply total_ret; try (apply total_bind; [apply total_warn|intros _; apply total_ret]).
      apply total_bind; [apply total_validate_paths_add|intros; apply total_ret].
    + destruct (prop (JObject section) "remove") as [[| | | |items|]|];
        try apply total_ret; try (apply total_bind; [apply total_warn|intros _; apply total_ret]).
      apply total_validate_remove.
    + destruct (prop (JObject section) "override") as [[| | | | |entries]|];
        try apply total_ret; try (apply total_bind; [apply total_warn|intros _; apply total_ret]).
      apply total_bind; [by apply total_validate_paths_override|intros; apply total_ret].
Qed.
End Validation.

(** ** applyConfig leaves its inputs alone *)

Section Store.
Import Patterns Config ConfigStore.
Local Open Scope list_scope.
Local Open Scope store_scope.

Lemma bind_eq {A B} (c : St A) (f : A -> St B) (h h' : store) a :
  c h = Some (a, h') -> bind c f h = f a h'.
Proof. intros H. unfold bind. by rewrite H. Qed.

Lemma alloc_spec (o : obj) (h : store) :
  exists l, alloc o h = Some (l, <[l := o]> h) /\ h !! l = None.
Proof.
  exists (fresh (dom h)). split; [done|]. apply not_elem_of_dom, is_fresh.
Qed.

Lemma read_spec {A} (view : obj -> option A) l (h : store) a :
  h !! l ≫= view = Some a -> read view l h = Some (a, h).
Proof. intros H. unfold read. by rewrite H. Qed.

Lemma lookup_view_mono {A} (view : obj -> option A) (h h' : store) l a :
  h ⊆ h' -> h !! l ≫= view = Some a -> h' !! l ≫= view = Some a.
Proof.
  intros Hsub H. destruct (h !! l) as [o|] eqn:E; [|done].
  by rewrite (lookup_weaken _ _ _ _ E Hsub).
Qed.

Lemma elems_at_mono {A} (view : obj -> option A) (h h' : store) es ps :
  h ⊆ h' -> elems_at view h es = Some ps -> elems_at view h' es = Some ps.
Proof.
  intros Hsub. revert ps. induction es as [|l rest IH]; intros ps; cbn [elems_at]; [done|].
  destruct (h !! l ≫= view) as [p|] eqn:E; [|done].
  rewrite (lookup_view_mono _ _ _ _ _ Hsub E).
  destruct (elems_at view h rest) as [ps'|]; [|done].
  by rewrite (IH ps' eq_refl).
Qed.

Lemma array_at_mono {A} (view : obj -> option A) (h h' : store) a ps :
  h ⊆ h' -> array_at view h a = Some ps -> array_at view h' a = Some ps.
Proof.
  intros Hsub. unfold array_at.
  destruct (h !! a ≫= as_array) as [es|] eqn:E; [|done].
  rewrite (lookup_view_mono _ _ _ _ _ Hsub E). by apply elems_at_mono.
Qed.

Lemma array_at_elems {A} (view : obj -> option A) (h : store) a ps :
  array_at view h a = Some ps ->
  exists es, h !! a ≫= as_array = Some es /\ elems_at view h es = Some ps.
Proof.
  unfold array_at. destruct (h !! a ≫= as_array) as [es|]; [eauto|done].
Qed.

Lemma elems_at_app {A} (view : obj -> option A) (h : store) es1 es2 ps1 ps2 :
  elems_at view h es1 = Some ps1 -> elems_at view h es2 = Some ps2 ->
  elems_at view h (es1 ++ es2) = Some (ps1 ++ ps2).
Proof.
  revert ps1. induction es1 as [|l rest IH]; intros ps1; cbn [elems_at app].
  - by intros [= <-].
  - destruct (h !! l ≫= view) as [p|]; [|done].
    destruct (elems_at view h rest) as [ps'|]; [|done].
    intros [= <-] H2. by rewrite (IH ps' eq_refl H2).
Qed.

(** A new array over elements that are in the store. *)
Lemma alloc_array_spec {A} (view : obj -> option A) (h : store) es ps :
  elems_at view h es = Some ps ->
  exists l h', alloc (OArray es) h = Some (l, h') /\
               h ⊆ h' /\ h !! l = None /\ array_at view h' l = Some ps.
Proof.
  intros H. destruct (alloc_spec (OArray es) h) as (l & Halloc & Hfresh).
  exists l, (<[l := OArray es]> h). split; [done|].
  assert (Hsub : h ⊆ <[l := OArray es]> h) by by apply insert_subseteq.
  split; [done|]. split; [done|].
  unfold array_at. rewrite lookup_insert_eq. cbn. by apply (elems_at_mono _ h).
Qed.

(** [[...a]] *)
Lemma spread_spec {A} (view : obj -> option A) (h : store) a ps :
  array_at view h a = Some ps ->
  exists l h', (let! elems := read_array a in alloc (OArray elems)) h = Some (l, h') /\
               h ⊆ h' /\ h !! l = None /\ array_at view h' l = Some ps.
Proof.
  intros H. apply array_at_elems in H as (es & Ha & Hes).
  unfold bind, read_array. rewrite (read_spec _ _ _ _ Ha).
  by apply alloc_array_spec.
Qed.

Lemma spread_concat_spec {A} (view : obj -> option A) (h : store) a b ps qs :
  array_at view h a = Some ps -> array_at view h b = Some qs ->
  exists l h', spread_concat a b h = Some (l, h') /\
               h ⊆ h' /\ h !! l = None /\ array_at view h' l = Some (ps ++ qs).
Proof.
  intros Ha Hb. apply array_at_elems in Ha as (ea & Ha & Hea).
  apply array_at_elems in Hb as (eb & Hb & Heb).
  unfold spread_concat, bind, read_array.
  rewrite (read_spec _ _ _ _ Ha), (read_spec _ _ _ _ Hb).
  apply alloc_array_spec. by apply elems_at_app.
Qed.

Lemma filter_elems_spec {A} (view : obj -> option A) (P : A -> Prop)
    `{!forall x, Decision (P x)} (h : store) es ps :
  elems_at view h es = Some ps ->
  exists es',
    filter_elems (fun l => let! p := read view l in ret (bool_decide (P p))) es h
    = Some (es', h) /\
    elems_at view h es' = Some (filter P ps).
Proof.
  revert ps. induction es as [|l rest IH]; intros ps; cbn [elems_at filter_elems].
  - intros [= <-]. by exists [].
  - destruct (h !! l ≫= view) as [p|] eqn:E; [|done].
    destruct (elems_at view h rest) as [ps'|]; [|done]. intros [= <-].
    destruct (IH ps' eq_refl) as (es' & Hrun & Hes').
    unfold bind at 1 2. rewrite (read_spec _ _ _ _ E). unfold ret at 1.
    unfold bind at 1. rewrite Hrun. unfold ret. rewrite filter_cons.
    destruct (decide (P p)) as [Hp|Hp].
    + rewrite bool_decide_eq_true_2 by done. exists (l :: es'). split; [done|].
      cbn [elems_at]. by rewrite E, Hes'.
    + rewrite bool_decide_eq_false_2 by done. by exists es'.
Qed.

Lemma map_elems_override_spec (override : gmap string Action) es : forall (h : store) ps,
  elems_at as_pattern h es = Some ps ->
  exists es' h',
    map_elems (fun l => let! p := read_pattern l in
                        match override !! reason p with
                        | Some newAction => alloc (OPattern (with_action p newAction))
                        | None => ret l
                        end) es h = Some (es', h') /\
    h ⊆ h' /\
    elems_at as_pattern h' es'
    = Some (map (fun p => match override !! reason p with
                          | Some newAction => with_action p newAction
                          | None => p
                          end) ps).
Proof.
  induction es as [|l rest IH]; intros h ps; cbn [elems_at map_elems].
  - intros [= <-]. by exists [], h.
  - destruct (h !! l ≫= as_pattern) as [p|] eqn:E; [|done].
    destruct (elems_at as_pattern h rest) as [ps'|] eqn:Erest; [|done]. intros [= <-].
    assert (Hread : read_pattern l h = Some (p, h)) by by apply read_spec.
    destruct (override !! reason p) as [newAction|] eqn:Eov.
    + destruct (alloc_spec (OPattern (with_action p newAction)) h) as (l' & Halloc & Hfresh).
      assert (Hsub : h ⊆ <[l' := OPattern (with_action p newAction)]> h)
        by by apply insert_subseteq.
      destruct (IH _ ps' (elems_at_mono _ _ _ _ _ Hsub Erest)) as (es' & h' & Hrun & Hsub' & Hes').
      exists (l' :: es'), h'. split; [|split; [by etrans|]].
      * erewrite bind_eq; [|erewrite bind_eq; [|exact Hread]; rewrite Eov; exact Halloc].
        erewrite bind_eq; [|exact Hrun]. done.
      * cbn [elems_at map]. rewrite Hes', Eov.
        rewrite (lookup_view_mono as_pattern _ h' l' (with_action p newAction) Hsub');
          [done|by rewrite lookup_insert_eq].
    + destruct (IH _ ps' Erest) as (es' & h' & Hrun & Hsub' & Hes').
      exists (l :: es'), h'. split; [|split; [done|]].
      * erewrite bind_eq; [|erewrite bind_eq; [|exact Hread]; rewrite Eov; reflexivity].
        erewrite bind_eq; [|exact Hrun]. done.
      * cbn [elems_at map]. by rewrite Hes', Eov, (lookup_view_mono _ _ _ _ _ Hsub' E).
Qed.

Lemma elems_at_insert_other {A} (view : obj -> option A) (h : store) es ps a o :
  elems_at view h es = Some ps ->
  h !! a ≫= view = None ->
  elems_at view (<[a := o]> h) es = Some ps.
Proof.
  intros H Ha. revert ps H. induction es as [|l rest IH]; intros ps; cbn [elems_at]; [done|].
  destruct (h !! l ≫= view) as [p|] eqn:E; [|done].
  destruct (elems_at view h rest) as [ps'|]; [|done]. intros [= <-].
  rewrite lookup_insert_ne by (intros ->; congruence).
  by rewrite E, (IH ps' eq_refl).
Qed.

Lemma push_spec (h : store) a acc x :
  h !! a = Some (OArray acc) ->
  push a x h = Some (tt, <[a := OArray (acc ++ [x])]> h).
Proof. intros H. unfold push. by rewrite H. Qed.

(** The loop of the path override step fills the array at [afterOverride],
    which the base store [hb] does not have, and leaves [hb] as it is. *)
Lemma override_loop_spec (override : gmap string LevelOrNone) es :
  forall (hb h : store) ps a acc accps,
    hb ⊆ h -> hb !! a = None ->
    elems_at as_path h es = Some ps ->
    h !! a = Some (OArray acc) ->
    elems_at as_path h acc = Some accps ->
    exists h' acc',
      override_loop override es a h = Some (tt, h') /\
      hb ⊆ h' /\
      h' !! a = Some (OArray acc') /\
      elems_at as_path h' acc' = Some (override_paths override ps accps).
Proof.
  induction es as [|l rest IH]; intros hb h ps a acc accps Hb Ha;
    cbn [elems_at override_loop].
  - intros [= <-] Harr Hacc. exists h, acc. done.
  - destruct (h !! l ≫= as_path) as [p|] eqn:E; [|done].
    destruct (elems_at as_path h rest) as [ps'|] eqn:Erest; [|done].
    intros [= <-] Harr Hacc.
    assert (Hread : read_path l h = Some (p, h)) by by apply read_spec.
    erewrite bind_eq; [|exact Hread]. cbn [override_paths].
    assert (Hnot : forall h0 : store, h0 !! a = Some (OArray acc) -> h0 !! a ≫= as_path = None)
      by (by intros h0 ->).
    destruct (override !! path p) as [[newLevel|]|] eqn:Eov.
    + destruct (alloc_spec (OPath (with_level p newLevel)) h) as (l' & Halloc & Hfresh).
      set (h1 := <[l' := OPath (with_level p newLevel)]> h) in *.
      assert (Hsub : h ⊆ h1) by by apply insert_subseteq.
      assert (Harr1 : h1 !! a = Some (OArray acc)) by by apply (lookup_weaken h).
      erewrite bind_eq; [|exact Halloc].
      erewrite bind_eq; [|by apply push_spec].
      eapply IH.
      * apply insert_subseteq_r; [done|]. by etrans.
      * done.
      * apply elems_at_insert_other; [by apply (elems_at_mono _ h)|by apply Hnot].
      * by rewrite lookup_insert_eq.
      * apply elems_at_app.
        -- apply elems_at_insert_other; [by apply (elems_at_mono _ h)|by apply Hnot].
        -- cbn [elems_at]. rewrite lookup_insert_ne by (intros ->; congruence).
           unfold h1. by rewrite lookup_insert_eq.
    + by eapply IH.
    + erewrite bind_eq; [|by apply push_spec].
      eapply IH.
      * by apply insert_subseteq_r.
      * done.
      * apply elems_at_insert_other; [done|by apply Hnot].
      * by rewrite lookup_insert_eq.
      * apply elems_at_app.
        -- apply elems_at_insert_other; [done|by apply Hnot].
        -- cbn [elems_at].
           rewrite lookup_insert_ne by (intros ->; rewrite Harr in E; discriminate).
           by rewrite E.
Qed.

(** The stages of a block, each from an array at [l] that the store [hs] at
    the start of the call does not have. *)

Lemma copy_stage {A} (view : obj -> option A) (h : store) a ps :
  array_at view h a = Some ps ->
  exists l h',
    (forall B (k : loc -> St B),
        (let! elems := read_array a in let! l := alloc (OArray elems) in k l) h = k l h') /\
    h ⊆ h' /\ h !! l = None /\ array_at view h' l = Some ps.
Proof.
  intros H. apply array_at_elems in H as (es & Ha & Hes).
  destruct (alloc_array_spec view h es ps Hes) as (l & h' & Halloc & Hrest).
  exists l, h'. split; [|done]. intros B k.
  erewrite bind_eq; [|by apply read_spec]. by erewrite bind_eq.
Qed.

Lemma remove_stage {A} (view : obj -> option A) (key : A -> string)
    (remove : option (list string)) (hs h : store) l ps :
  hs ⊆ h -> hs !! l = None -> array_at view h l = Some ps ->
  exists l' h',
    match remove with
    | None => ret l
    | Some remove =>
        let removeSet : gset string := list_to_set remove in
        let! elems := read_array l in
        let! kept :=
          filter_elems (fun l => let! p := read view l in
                                 ret (bool_decide (key p ∉ removeSet))) elems in
        alloc (OArray kept)
    end h = Some (l', h') /\
    h ⊆ h' /\ hs !! l' = None /\
    array_at view h' l'
    = Some match remove with
           | None => ps
           | Some remove => filter (fun p => key p ∉ (list_to_set remove : gset string)) ps
           end.
Proof.
  intros Hs Hl H. destruct remove as [remove|]; [|by exists l, h].
  apply array_at_elems in H as (es & Ha & Hes). cbv zeta.
  destruct (filter_elems_spec view (fun p => key p ∉ (list_to_set remove : gset string))
              h es ps Hes) as (es' & Hrun & Hes').
  destruct (alloc_array_spec view h es' _ Hes') as (l' & h' & Halloc & Hsub & Hfresh & Harr).
  exists l', h'. split; [|split; [done|split; [|done]]].
  - erewrite bind_eq; [|by apply read_spec]. erewrite bind_eq; [|exact Hrun]. done.
  - by apply (lookup_weaken_None _ h).
Qed.

Lemma add_stage {A} (view : obj -> option A) (add : option loc) (added : option (list A))
    (hs h : store) l ps :
  hs ⊆ h -> hs !! l = None -> array_at view h l = Some ps ->
  match add, added with
  | Some b, Some qs => array_at view h b = Some qs
  | None, None => True
  | _, _ => False
  end ->
  exists l' h',
    match add with
    | None => ret l
    | Some b => spread_concat l b
    end h = Some (l', h') /\
    h ⊆ h' /\ hs !! l' = None /\
    array_at view h' l' = Some match added with
                               | None => ps
                               | Some qs => ps ++ qs
                               end.
Proof.
  intros Hs Hl H Hadd. destruct add as [b|], added as [qs|]; try done; [|by exists l, h].
  destruct (spread_concat_spec view h l b ps qs H Hadd) as (l' & h' & Hrun & Hsub & Hfresh & Harr).
  exists l', h'. split; [done|]. split; [done|]. split; [|done].
  by apply (lookup_weaken_None _ h).
Qed.

Lemma override_patterns_stage (override : option (gmap string Action)) (hs h : store) l ps :
  hs ⊆ h -> hs !! l = None -> pattern_array h l = Some ps ->
  exists l' h',
    match override with
    | None => ret l
    | Some override =>
        let! elems := read_array l in
        let! mapped :=
          map_elems (fun l => let! p := read_pattern l in
                              match override !! reason p with
                              | Some newAction => alloc (OPattern (with_action p newAction))
                              | None => ret l
                              end) elems in
        alloc (OArray mapped)
    end h = Some (l', h') /\
    h ⊆ h' /\ hs !! l' = None /\
    pattern_array h' l'
    = Some match override with
           | None => ps
           | Some override =>
               map (fun p => match override !! reason p with
                             | Some newAction => with_action p newAction
                             | None => p
                             end) ps
           end.
Proof.
  intros Hs Hl H. destruct override as [override|]; [|by exists l, h].
  apply array_at_elems in H as (es & Ha & Hes).
  destruct (map_elems_override_spec override es h ps Hes) as (es' & h1 & Hrun & Hsub1 & Hes').
  destruct (alloc_array_spec as_pattern h1 es' _ Hes') as (l' & h' & Halloc & Hsub & Hfresh & Harr).
  exists l', h'. split; [|split; [by etrans|split; [|done]]].
  - erewrite bind_eq; [|by apply read_spec]. erewrite bind_eq; [|exact Hrun]. done.
  - apply (lookup_weaken_None _ h1); [done|by etrans].
Qed.

Lemma override_paths_stage (override : option (gmap string LevelOrNone)) (hs h : store) l ps :
  hs ⊆ h -> hs !! l = None -> path_array h l = Some ps ->
  exists l' h',
    match override with
    | None => ret l
    | Some override =>
        let! afterOverride := alloc (OArray []) in
        let! elems := read_array l in
        run! override_loop override elems afterOverride in
        ret afterOverride
    end h = Some (l', h') /\
    h ⊆ h' /\ hs !! l' = None /\
    path_array h' l'
    = Some match override with
           | None => ps
           | Some override => override_paths override ps []
           end.
Proof.
  intros Hs Hl H. destruct override as [override|]; [|by exists l, h].
  apply array_at_elems in H as (es & Ha & Hes).
  destruct (alloc_spec (OArray []) h) as (a & Halloc & Hfresh).
  set (h1 := <[a := OArray []]> h) in *.
  assert (Hsub : h ⊆ h1) by by apply insert_subseteq.
  destruct (override_loop_spec override es h h1 ps a [] [])
    as (h' & acc' & Hrun & Hsub' & Harr & Hacc);
    [done|done|by apply (elems_at_mono _ h)|by apply lookup_insert_eq|done|].
  exists a, h'. split; [|split; [done|split]].
  - erewrite bind_eq; [|exact Halloc].
    erewrite bind_eq; [|apply read_spec; by apply (lookup_view_mono _ h)].
    erewrite bind_eq; [|exact Hrun]. done.
  - by apply (lookup_weaken_None _ h).
  - unfold path_array, array_at. by rewrite Harr.
Qed.

Lemma apply_patterns_spec (h : store) pr pc defaultPatterns dps :
  pattern_array h defaultPatterns = Some dps ->
  denotes_patterns h pr pc ->
  exists l h',
    apply_patterns pr defaultPatterns h = Some (l, h') /\
    h ⊆ h' /\ h !! l = None /\
    forall cpaths dpaths,
      pattern_array h' l
      = Some (fst (Config.applyConfig {| cfg_patterns := pc; cfg_paths := cpaths |} dps dpaths)).
Proof.
  intros Hdp Hden. unfold apply_patterns.
  destruct (copy_stage as_pattern h defaultPatterns dps Hdp) as (l0 & h0 & -> & Hsub0 & Hf0 & Harr0).
  assert (Hstages : forall add added rm ov,
    match add, added with
    | Some b, Some qs => pattern_array h b = Some qs
    | None, None => True
    | _, _ => False
    end ->
    exists l h',
      (let! patterns :=
         match rm with
         | None => ret l0
         | Some remove =>
             let removeSet : gset string := list_to_set remove in
             let! elems := read_array l0 in
             let! kept :=
               filter_elems (fun l => let! p := read_pattern l in
                                      ret (bool_decide (reason p ∉ removeSet))) elems in
             alloc (OArray kept)
         end in
       let! patterns :=
         match ov with
         | None => ret patterns
         | Some override =>
             let! elems := read_array patterns in
             let! mapped :=
               map_elems (fun l => let! p := read_pattern l in
                                   match override !! reason p with
                                   | Some newAction =>
                                       alloc (OPattern (with_action p newAction))
                                   | None => ret l
                                   end) elems in
             alloc (OArray mapped)
         end in
       match add with
       | None => ret patterns
       | Some add => spread_concat patterns add
       end) h0 = Some (l, h') /\
      h ⊆ h' /\ h !! l = None /\
      forall cpaths dpaths,
        pattern_array h' l
        = Some (fst (Config.applyConfig
                       {| cfg_patterns := Some {| pc_add := added; pc_remove := rm;
                                                  pc_override := ov |};
                          cfg_paths := cpaths |} dps dpaths))).
  { intros add added rm ov Hadd.
    destruct (remove_stage as_pattern reason rm h h0 l0 dps Hsub0 Hf0 Harr0)
      as (l1 & h1 & Hrun1 & Hsub1 & Hf1 & Harr1).
    destruct (override_patterns_stage ov h h1 l1 _ ltac:(by etrans) Hf1 Harr1)
      as (l2 & h2 & Hrun2 & Hsub2 & Hf2 & Harr2).
    assert (Hsub02 : h ⊆ h2) by (etrans; [|exact Hsub2]; by etrans).
    destruct (add_stage as_pattern add added h h2 l2 _ Hsub02 Hf2 Harr2)
      as (l3 & h3 & Hrun3 & Hsub3 & Hf3 & Harr3).
    { destruct add, added; try done. by apply (array_at_mono _ h). }
    exists l3, h3. split; [|split; [by etrans|split; [done|]]].
    - erewrite bind_eq; [|exact Hrun1]. erewrite bind_eq; [|exact Hrun2]. exact Hrun3.
    - intros cpaths dpaths. unfold pattern_array. rewrite Harr3.
      unfold Config.applyConfig. cbn.
      by destruct added, ov, rm. }
  inversion Hden as [|a added rm ov Hadd|rm ov]; subst.
  - exists l0, h0. split; [done|]. split; [done|]. split; [done|].
    intros cpaths dpaths. unfold pattern_array. by rewrite Harr0.
  - by apply (Hstages (Some a) (Some added)).
  - by apply (Hstages None None).
Qed.

Lemma apply_paths_spec (h : store) pr pc defaultPaths dpaths :
  path_array h defaultPaths = Some dpaths ->
  denotes_paths h pr pc ->
  exists l h',
    apply_paths pr defaultPaths h = Some (l, h') /\
    h ⊆ h' /\ h !! l = None /\
    forall cpatterns dps,
      path_array h' l
      = Some (snd (Config.applyConfig {| cfg_patterns := cpatterns; cfg_paths := pc |}
                     dps dpaths)).
Proof.
  intros Hdp Hden. unfold apply_paths.
  destruct (copy_stage as_path h defaultPaths dpaths Hdp) as (l0 & h0 & -> & Hsub0 & Hf0 & Harr0).
  assert (Hstages : forall add added rm ov,
    match add, added with
    | Some b, Some qs => path_array h b = Some qs
    | None, None => True
    | _, _ => False
    end ->
    exists l h',
      (let! paths :=
         match rm with
         | None => ret l0
         | Some remove =>
             let removeSet : gset string := list_to_set remove in
             let! elems := read_array l0 in
             let! kept :=
               filter_elems (fun l => let! p := read_path l in
                                      ret (bool_decide (path p ∉ removeSet))) elems in
             alloc (OArray kept)
         end in
       let! paths :=
         match ov with
         | None => ret paths
         | Some override =>
             let! afterOverride := alloc (OArray []) in
             let! elems := read_array paths in
             run! override_loop override elems afterOverride in
             ret afterOverride
         end in
       match add with
       | None => ret paths
       | Some add => spread_concat paths add
       end) h0 = Some (l, h') /\
      h ⊆ h' /\ h !! l = None /\
      forall cpatterns dps,
        path_array h' l
        = Some (snd (Config.applyConfig
                       {| cfg_patterns := cpatterns;
                          cfg_paths := Some {| pathc_add := added; pathc_remove := rm;
                                               pathc_override := ov |} |} dps dpaths))).
  { intros add added rm ov Hadd.
    destruct (remove_stage as_path path rm h h0 l0 dpaths Hsub0 Hf0 Harr0)
      as (l1 & h1 & Hrun1 & Hsub1 & Hf1 & Harr1).
    destruct (override_paths_stage ov h h1 l1 _ ltac:(by etrans) Hf1 Harr1)
      as (l2 & h2 & Hrun2 & Hsub2 & Hf2 & Harr2).
    assert (Hsub02 : h ⊆ h2) by (etrans; [|exact Hsub2]; by etrans).
    destruct (add_stage as_path add added h h2 l2 _ Hsub02 Hf2 Harr2)
      as (l3 & h3 & Hrun3 & Hsub3 & Hf3 & Harr3).
    { destruct add, added; try done. by apply (array_at_mono _ h). }
    exists l3, h3. split; [|split; [by etrans|split; [done|]]].
    - erewrite bind_eq; [|exact Hrun1]. erewrite bind_eq; [|exact Hrun2]. exact Hrun3.
    - intros cpatterns dps. unfold path_array. rewrite Harr3.
      unfold Config.applyConfig. cbn.
      by destruct added, ov, rm. }
  inversion Hden as [|a added rm ov Hadd|rm ov]; subst.
  - exists l0, h0. split; [done|]. split; [done|]. split; [done|].
    intros cpatterns dps. unfold path_array. by rewrite Harr0.
  - by apply (Hstages (Some a) (Some added)).
  - by apply (Hstages None None).
Qed.

Lemma denotes_paths_mono (h h' : store) pr pc :
  h ⊆ h' -> denotes_paths h pr pc -> denotes_paths h' pr pc.
Proof.
  intros Hsub. destruct 1; constructor. by apply (array_at_mono _ h).
Qed.

(** Claim C9. In a store where the two default arrays and the config's add
    arrays hold rule objects, [applyConfig] returns two arrays and a store in
    which every object that existed before the call is what it was, so the
    default arrays and their elements hold what they held; the two arrays
    returned did not exist before the call, so they are not the input
    arrays, whatever the config, the empty one included; and they hold the
    rules of the overlay. *)
Theorem applyConfig_store_frame
    (h : store) (config : ConfigRef) (cfg : DamageControlConfig)
    (defaultPatterns defaultPaths : loc)
    (dps : list Pattern) (dpaths : list ProtectedPath) :
  pattern_array h defaultPatterns = Some dps ->
  path_array h defaultPaths = Some dpaths ->
  denotes h config cfg ->
  exists patterns paths h',
    ConfigStore.applyConfig config defaultPatterns defaultPaths h
    = Some ((patterns, paths), h') /\
    (forall l o, h !! l = Some o -> h' !! l = Some o) /\
    pattern_array h' defaultPatterns = Some dps /\
    path_array h' defaultPaths = Some dpaths /\
    h !! patterns = None /\ h !! paths = None /\
    patterns <> defaultPatterns /\ paths <> defaultPaths /\
    pattern_array h' patterns = Some (fst (Config.applyConfig cfg dps dpaths)) /\
    path_array h' paths = Some (snd (Config.applyConfig cfg dps dpaths)).
Proof.
  intros Hdp Hdpath [Hdenp Hdenpath]. destruct cfg as [pc pathc]. cbn in *.
  destruct (apply_patterns_spec h _ _ _ _ Hdp Hdenp) as (l1 & h1 & Hrun1 & Hsub1 & Hf1 & Harr1).
  destruct (apply_paths_spec h1 _ _ _ _ (array_at_mono _ _ _ _ _ Hsub1 Hdpath)
              (denotes_paths_mono _ _ _ _ Hsub1 Hdenpath))
    as (l2 & h2 & Hrun2 & Hsub2 & Hf2 & Harr2).
  assert (Hsub : h ⊆ h2) by by etrans.
  exists l1, l2, h2. split.
  { unfold ConfigStore.applyConfig. erewrite bind_eq; [|exact Hrun1].
    erewrite bind_eq; [|exact Hrun2]. done. }
  split; [intros l o Hl; by apply (lookup_weaken h)|].
  split; [by apply (array_at_mono _ h)|]. split; [by apply (array_at_mono _ h)|].
  split; [done|]. split; [by apply (lookup_weaken_None _ h1)|].
  split.
  { intros ->. apply array_at_elems in Hdp as (es & Hes & _).
    by rewrite Hf1 in Hes. }
  split.
  { intros ->. apply (array_at_mono _ _ _ _ _ Hsub1), array_at_elems in Hdpath as (es & Hes & _).
    by rewrite Hf2 in Hes. }
  split; [apply (array_at_mono _ h1); [done|exact (Harr1 pathc dpaths)]
         |exact (Harr2 pc dps)].
Qed.
End Store.

(** The theorem at a store with two patterns and one path, and a config
    that removes a pattern. *)
Lemma applyConfig_store_frame_witness :
  let p1 := {| Patterns.pattern := "DROP\s+TABLE"; Patterns.reason := "SQL DROP TABLE";
               Patterns.action := Patterns.block |}%string in
  let p2 := {| Patterns.pattern := "npm\s+unpublish"; Patterns.reason := "npm unpublish";
               Patterns.action := Patterns.block |}%string in
  let q1 := {| Patterns.path := "dist/"; Patterns.level := Patterns.readOnly |}%string in
  let h : gmap ConfigStore.loc ConfigStore.obj :=
    <[1%positive := ConfigStore.OPattern p1]>
      (<[2%positive := ConfigStore.OPattern p2]>
         (<[3%positive := ConfigStore.OArray [1%positive; 2%positive]]>
            (<[4%positive := ConfigStore.OPath q1]>
               (<[5%positive := ConfigStore.OArray [4%positive]]> ∅)))) in
  let config :=
    {| ConfigStore.ref_patterns :=
         Some {| ConfigStore.pr_add := None;
                 ConfigStore.pr_remove := Some ["npm unpublish"%string];
                 ConfigStore.pr_override := None |};
       ConfigStore.ref_paths := None |} in
  let cfg :=
    {| Config.cfg_patterns :=
         Some {| Config.pc_add := None;
                 Config.pc_remove := Some ["npm unpublish"%string];
                 Config.pc_override := None |};
       Config.cfg_paths := None |} in
  ConfigStore.pattern_array h 3%positive = Some [p1; p2] /\
  ConfigStore.path_array h 5%positive = Some [q1] /\
  ConfigStore.denotes h config cfg /\
  exists patterns paths h',
    ConfigStore.applyConfig config 3%positive 5%positive h = Some ((patterns, paths), h') /\
    (forall l o, h !! l = Some o -> h' !! l = Some o) /\
    ConfigStore.pattern_array h' 3%positive = Some [p1; p2] /\
    ConfigStore.path_array h' 5%positive = Some [q1] /\
    h !! patterns = None /\ h !! paths = None /\
    patterns <> 3%positive /\ paths <> 5%positive /\
    ConfigStore.pattern_array h' patterns
    = Some (fst (Config.applyConfig cfg [p1; p2] [q1])) /\
    ConfigStore.path_array h' paths
    = Some (snd (Config.applyConfig cfg [p1; p2] [q1])).
Proof.
  intros p1 p2 q1 h config cfg.
  assert (H1 : ConfigStore.pattern_array h 3%positive = Some [p1; p2])
    by (vm_compute; reflexivity).
  assert (H2 : ConfigStore.path_array h 5%positive = Some [q1])
    by (vm_compute; reflexivity).
  assert (H3 : ConfigStore.denotes h config cfg) by (split; constructor).
  split; [exact H1|]. split; [exact H2|]. split; [exact H3|].
  exact (applyConfig_store_frame h config cfg 3%positive 5%positive [p1; p2] [q1] H1 H2 H3).
Defined.

(** ** The write signatures *)

Section LiteralPrefix.
Import JsStr RegExp.
Local Open Scope list_scope.

Variable s : list ascii.

Lemma nth_error_skipn (i : nat) (d : ascii) :
  nth_error s i = Some d -> exists t, skipn i s = d :: t.
Proof.
  revert i. induction s as [|c l IH]; intros [|i] H; try done.
  - injection H as ->. by exists l.
  - by apply IH.
Qed.

Lemma starts_with_skipn_includes (p : list ascii) (i : nat) :
  starts_with p (skipn i s) = true -> includes_l s p = true.
Proof.
  rewrite starts_with_spec, includes_l_spec. intros [t Ht].
  exists (firstn i s), t. by rewrite <- Ht, take_drop.
Qed.

Lemma literal_prefix_sound (r : regex) : forall i j,
  Matches false s r i j ->
  starts_with (fst (literal_prefix r)) (skipn i s) = true /\
  (snd (literal_prefix r) = true -> j = i + length (fst (literal_prefix r))).
Proof.
  induction r as [|c| |inv items| | |neg|a IHa b IHb|a IHa b IHb|g a IHa|g a IHa
                 |g a IHa|a IHa|neg a IHa]; intros i j H;
    cbn [literal_prefix fst snd starts_with length] in *;
    try (split; [done|]; intros _; cbn in H; lia);
    try (split; [done|done]).
  - destruct H as (d & Hd & Hc & ->). apply nth_error_skipn in Hd as [t ->].
    unfold char_matches in Hc. cbn. rewrite Hc. split; [done|]. intros _. lia.
  - destruct H as (x & Ha & Hb).
    destruct (literal_prefix a) as [pa wa], (literal_prefix b) as [pb wb].
    destruct (IHa _ _ Ha) as [Hpa Hwa]. destruct (IHb _ _ Hb) as [Hpb Hwb].
    cbn [fst snd] in *. destruct wa; [|done]. cbn [fst snd].
    specialize (Hwa eq_refl). subst x.
    apply starts_with_spec in Hpa as [t Ht].
    assert (Hskip : skipn (i + length pa) s = t).
    { rewrite <- drop_drop, Ht. by rewrite drop_app_length. }
    rewrite Hskip in Hpb. apply starts_with_spec in Hpb as [t' ->].
    split.
    + apply starts_with_spec. exists t'. by rewrite Ht, <- app_assoc.
    + intros Hw. rewrite (Hwb Hw), length_app. lia.
  - destruct H as (x & Ha & _). destruct (IHa _ _ Ha) as [Hpa _]. done.
  - by apply IHa.
Qed.

(** A regex that matches somewhere brings its literal prefix with it. *)
Lemma test_literal_prefix (r : regex) :
  test false r s = true -> includes_l s (fst (literal_prefix r)) = true.
Proof.
  intros H. apply test_spec in H as (i & j & _ & H).
  apply literal_prefix_sound in H as [H _]. by eapply starts_with_skipn_includes.
Qed.
End LiteralPrefix.

Section WriteSignatures.
Import JsStr RegExp Patterns Spec.
Local Open Scope string_scope.
Local Open Scope list_scope.

Lemma any_op_matches_In ops command :
  any_op_matches ops command = true ->
  exists op, In op ops /\ test false op (chars command) = true.
Proof.
  induction ops as [|op rest IH]; cbn [any_op_matches]; [done|].
  destruct (test false op (chars command)) eqn:E.
  - intros _. exists op. split; [by left|done].
  - intros H. destruct (IH H) as (op' & Hin & Ht). exists op'. split; [by right|done].
Qed.

(** What the first write signature, the redirection, matches. *)
Lemma redirect_signature (c : list ascii) :
  test false (literal "(?:^|[;&|]\s*)(?:>|>>)\s*") c = true -> redirect_recognized c.
Proof.
  intros H. apply test_spec in H as (i & j & _ & H).
  change (literal "(?:^|[;&|]\s*)(?:>|>>)\s*") with
    (Seq (Grp (Alt Bol (Seq (Cls false [CsChar ";"; CsChar "&"; CsChar "|"])
                            (Star true (Cls false [CsSpace false])))))
         (Seq (Grp (Alt (Chr ">") (Seq (Chr ">") (Chr ">"))))
              (Star true (Cls false [CsSpace false])))) in H.
  cbn [Matches] in H. destruct H as (x & Hhead & z & Hgt & _).
  assert (Hx : nth_error c x = Some ">"%char).
  { destruct Hgt as [(d & Hd & Hc & _)|(w & (d & Hd & Hc & _) & _)];
      unfold char_matches in Hc; apply ceqb_eq in Hc as <-; done. }
  destruct Hhead as [[-> ->]|(y & (sep & Hsep & Hclass & ->) & Hspaces)]; [by left|right].
  apply rtc_one_char_elim in Hspaces as [Hle Hall].
  exists i, x, sep. split; [done|]. split; [|split; [lia|split; [|done]]].
  - unfold class_matches, cset_has, char_matches in Hclass. cbn [existsb xorb] in Hclass.
    rewrite !orb_true_iff, !ceqb_eq in Hclass. cbn [In].
    destruct Hclass as [?|[?|[?|?]]]; auto; discriminate.
  - intros k Hk. destruct (Hall k ltac:(lia)) as (d & Hd & Hp). exists d. split; [done|].
    unfold class_matches, cset_has in Hp. cbn [existsb xorb] in Hp.
    by rewrite orb_false_r in Hp.
Qed.

(** Without a separator and without [>] in front there is nothing for the
    first signature. *)
Lemma no_redirect_recognized (c : list ascii) :
  forallb (fun d => negb (ceqb ";" d || ceqb "&" d || ceqb "|" d)) c = true ->
  nth_error c 0 <> Some ">"%char ->
  ~ redirect_recognized c.
Proof.
  intros Hall Hfirst [H|(i & x & sep & Hsep & Hin & _)]; [done|].
  apply nth_error_In in Hsep. apply (proj1 (forallb_forall _ _) Hall) in Hsep.
  cbn [In] in Hin. destruct Hin as [<-|[<-|[<-|[]]]]; discriminate Hsep.
Qed.

Ltac try_words ws H :=
  lazymatch ws with
  | ?w :: ?rest => first [ exists w; split; [cbn; tauto|exact H] | try_words rest H ]
  end.

(** A command that [isShellWrite] classifies as a write has a redirection
    that the first signature recognizes, or one of the command words. *)
Lemma isShellWrite_signature HOME command protPath :
  isShellWrite HOME command protPath = Ok true ->
  redirect_recognized (chars command) \/
  exists word, In word write_words /\ includes command word = true.
Proof.
  unfold isShellWrite.
  destruct (commandReferencesPath HOME command protPath) as [[]|];
    intros H; try discriminate H.
  assert (H' : any_op_matches SHELL_WRITE_OPS command = true) by congruence.
  clear H. apply any_op_matches_In in H' as (op & Hin & Ht).
  unfold SHELL_WRITE_OPS, SHELL_WRITE_OPS_src in Hin. cbn [map In] in Hin.
  destruct Hin as [<-|Hin]; [left; by apply redirect_signature|right].
  repeat (destruct Hin as [<-|Hin];
          [apply test_literal_prefix in Ht;
           match type of Ht with
           | includes_l _ ?p = true =>
               let p' := eval vm_compute in p in change p with p' in Ht
           end;
           let ws := eval cbv in write_words in try_words ws Ht|]).
  destruct Hin.
Qed.

(** Claim C10. A command in which the first write signature recognizes no
    redirection (there is no [>] in front, and none after [;], [&] or [|]
    and white space) and which contains none of the command words of the
    other signatures is not classified as a write. [./generate.sh > yarn.lock]
    is such a command: its redirection follows a space; so [isShellWrite] is
    false for it and, with the single readOnly rule [yarn.lock],
    [checkShellPathViolation] returns [null], whatever the home directory. *)
Theorem redirect_after_space_not_write (HOME : option string) :
  (forall command protPath,
      ~ redirect_recognized (chars command) ->
      (forall word, In word write_words -> includes command word = false) ->
      isShellWrite HOME command protPath <> Ok true) /\
  ~ redirect_recognized (chars "./generate.sh > yarn.lock") /\
  (forall word, In word write_words -> includes "./generate.sh > yarn.lock" word = false) /\
  isShellWrite HOME "./generate.sh > yarn.lock" "yarn.lock" = Ok false /\
  checkShellPathViolation HOME "./generate.sh > yarn.lock"
    [ {| path := "yarn.lock"; level := readOnly |} ] = Ok None.
Proof.
  assert (Hwords : forall word, In word write_words ->
                                includes "./generate.sh > yarn.lock" word = false).
  { intros word Hin. cbv [write_words In] in Hin.
    repeat (destruct Hin as [<-|Hin]; [vm_compute; reflexivity|]). destruct Hin. }
  assert (Hwrite : isShellWrite HOME "./generate.sh > yarn.lock" "yarn.lock" = Ok false).
  { unfold isShellWrite. rewrite commandReferencesPath_raw by reflexivity.
    vm_compute. reflexivity. }
  split; [|split; [|split; [done|split; [done|]]]].
  - intros command protPath Hred Hw H. apply isShellWrite_signature in H as [H|(w & Hin & H)].
    + by apply Hred.
    + rewrite (Hw w Hin) in H. discriminate.
  - apply no_redirect_recognized; [vm_compute; reflexivity|discriminate].
  - cbn [checkShellPathViolation level path]. rewrite Hwrite.
    unfold isShellDelete. rewrite commandReferencesPath_raw by reflexivity.
    vm_compute. reflexivity.
Qed.
End WriteSignatures.

(** The first part of the theorem at the command of the claim. *)
Lemma redirect_after_space_not_write_witness :
  ~ Spec.redirect_recognized (JsStr.chars "./generate.sh > yarn.lock") /\
  (forall word, In word Spec.write_words ->
                JsStr.includes "./generate.sh > yarn.lock" word = false) /\
  Patterns.isShellWrite None "./generate.sh > yarn.lock" "yarn.lock" <> Ok true.
Proof.
  pose proof (redirect_after_space_not_write None) as (Hgeneral & Hredirect & Hwords & _).
  split; [exact Hredirect|]. split; [exact Hwords|].
  exact (Hgeneral "./generate.sh > yarn.lock"%string "yarn.lock"%string Hredirect Hwords).
Defined.

(** ** Configs in normal form, and merging *)

Section NormalForm.
Import JsStr Patterns Config ConfigNotions.
Local Open Scope string_scope.
Local Open Scope list_scope.

Lemma nonempty_not_nil {A} (l : list A) : nonempty l <> Some [].
Proof. by destruct l. Qed.

Lemma nonempty_map_not_empty {V} (m : gmap string V) : nonempty_map m <> Some ∅.
Proof. unfold nonempty_map. destruct (decide (m = ∅)); congruence. Qed.

Lemma nonempty_or_nil {A} (x : option (list A)) : x <> Some [] -> nonempty (or_nil x) = x.
Proof. destruct x as [[|a l]|]; done. Qed.

Lemma nonempty_map_or_empty {V} (x : option (gmap string V)) :
  x <> Some ∅ -> nonempty_map (or_empty x) = x.
Proof.
  destruct x as [m|]; cbn; unfold nonempty_map.
  - intros H. destruct (decide (m = ∅)); congruence.
  - intros _. by destruct (decide _).
Qed.

(** Inversion of a step of the validator. *)
Lemma bind_Ok {A B} (c : M A) (f : A -> M B) ws b ws' :
  bind c f ws = Ok (b, ws') ->
  exists a ws1, c ws = Ok (a, ws1) /\ f a ws1 = Ok (b, ws').
Proof. unfold bind. destruct (c ws) as [[a ws1]|]; [eauto|done]. Qed.

Lemma ret_Ok {A} (a b : A) ws ws' : ret a ws = Ok (b, ws') -> b = a /\ ws' = ws.
Proof. by intros [= -> ->]. Qed.

Ltac invert_validator :=
  repeat match goal with
    | H : bind _ _ _ = Ok _ |- _ =>
        apply bind_Ok in H as (? & ? & ? & H)
    | H : ret _ _ = Ok _ |- _ => apply ret_Ok in H as [-> ->]
    end.

Lemma validate_remove_normal source field items ws r ws' :
  validate_remove source field items ws = Ok (r, ws') -> r <> Some [].
Proof.
  unfold validate_remove. intros H. invert_validator. apply nonempty_not_nil.
Qed.

Lemma validate_patterns_normal source raw ws pc ws' :
  validate_patterns source raw ws = Ok (Some pc, ws') -> normal_patterns pc.
Proof.
  unfold validate_patterns. intros H.
  destruct (prop raw "patterns") as [[| | | | |section]|];
    invert_validator; try discriminate.
  injection H as <-. unfold normal_patterns. cbn [pc_add pc_remove pc_override].
  repeat split.
  - destruct (prop (JObject section) "add") as [[| | | |items|]|];
      invert_validator; try discriminate; try apply nonempty_not_nil.
  - destruct (prop (JObject section) "remove") as [[| | | |items|]|];
      invert_validator; try discriminate. by eapply validate_remove_normal.
  - destruct (prop (JObject section) "override") as [[| | | | |entries]|];
      invert_validator; try discriminate; try apply nonempty_map_not_empty.
Qed.

Lemma validate_paths_normal source raw ws pathc ws' :
  validate_paths source raw ws = Ok (Some pathc, ws') -> normal_paths pathc.
Proof.
  unfold validate_paths. intros H.
  destruct (prop raw "paths") as [[| | | | |section]|];
    invert_validator; try discriminate.
  injection H as <-. unfold normal_paths. cbn [pathc_add pathc_remove pathc_override].
  repeat split.
  - destruct (prop (JObject section) "add") as [[| | | |items|]|];
      invert_validator; try discriminate; try apply nonempty_not_nil.
  - destruct (prop (JObject section) "remove") as [[| | | |items|]|];
      invert_validator; try discriminate. by eapply validate_remove_normal.
  - destruct (prop (JObject section) "override") as [[| | | | |entries]|];
      invert_validator; try discriminate; try apply nonempty_map_not_empty.
Qed.

Lemma validateConfig_normal source raw config warnings :
  validateConfig source raw = Ok (config, warnings) -> normal config.
Proof.
  destruct raw as [| | | | |props]; try (intros [= <- _]; split; intros ? [=]).
  unfold validateConfig. intros H. invert_validator.
  split; cbn [cfg_patterns cfg_paths]; intros ? ->.
  - by eapply validate_patterns_normal.
  - by eapply validate_paths_normal.
Qed.

Lemma mergeConfigs_normal global project : normal (mergeConfigs global project).
Proof.
  unfold mergeConfigs. split; cbn [cfg_patterns cfg_paths].
  - intros pc H. destruct (cfg_patterns global), (cfg_patterns project);
      try discriminate H; injection H as <-;
      (repeat split; [apply nonempty_not_nil|apply nonempty_not_nil|apply nonempty_map_not_empty]).
  - intros pc H. destruct (cfg_paths global), (cfg_paths project);
      try discriminate H; injection H as <-;
      (repeat split; [apply nonempty_not_nil|apply nonempty_not_nil|apply nonempty_map_not_empty]).
Qed.

Lemma mergeConfigs_empty_l config : normal config -> mergeConfigs empty_config config = config.
Proof.
  intros [Hpat Hpath]. destruct config as [[pc|] [pathc|]]; unfold mergeConfigs;
    cbn [cfg_patterns cfg_paths empty_config mbind option_bind or_nil or_empty app] in *;
    unfold spread2; rewrite ?(right_id_L ∅ (∪)).
  all: try (destruct (Hpat pc eq_refl) as (H1 & H2 & H3); destruct pc as [a r o];
            cbn [pc_add pc_remove pc_override] in *;
            rewrite (nonempty_or_nil a H1), (nonempty_or_nil r H2), (nonempty_map_or_empty o H3)).
  all: try (destruct (Hpath pathc eq_refl) as (H4 & H5 & H6); destruct pathc as [a' r' o'];
            cbn [pathc_add pathc_remove pathc_override] in *;
            rewrite (nonempty_or_nil a' H4), (nonempty_or_nil r' H5),
              (nonempty_map_or_empty o' H6)).
  all: reflexivity.
Qed.

Lemma mergeConfigs_empty_r config : normal config -> mergeConfigs config empty_config = config.
Proof.
  intros [Hpat Hpath]. destruct config as [[pc|] [pathc|]]; unfold mergeConfigs;
    cbn [cfg_patterns cfg_paths empty_config mbind option_bind or_nil or_empty app] in *;
    unfold spread2; rewrite ?(left_id_L ∅ (∪)), ?app_nil_r.
  all: try (destruct (Hpat pc eq_refl) as (H1 & H2 & H3); destruct pc as [a r o];
            cbn [pc_add pc_remove pc_override] in *;
            rewrite (nonempty_or_nil a H1), (nonempty_or_nil r H2), (nonempty_map_or_empty o H3)).
  all: try (destruct (Hpath pathc eq_refl) as (H4 & H5 & H6); destruct pathc as [a' r' o'];
            cbn [pathc_add pathc_remove pathc_override] in *;
            rewrite (nonempty_or_nil a' H4), (nonempty_or_nil r' H5),
              (nonempty_map_or_empty o' H6)).
  all: reflexivity.
Qed.

(** What [validateConfig] and [mergeConfigs] return is in normal form: a
    field is absent rather than an empty list or an empty map. *)
Theorem config_normal_form :
  (forall source raw config warnings,
      validateConfig source raw = Ok (config, warnings) -> normal config) /\
  (forall global project, normal (mergeConfigs global project)).
Proof. split; [apply validateConfig_normal|apply mergeConfigs_normal]. Qed.

Lemma config_normal_form_witness :
  validateConfig "damage-control.json" (JObject [("patterns", JObject [("add", JArray [])])])
  = Ok ({| cfg_patterns := Some {| pc_add := None; pc_remove := None; pc_override := None |};
           cfg_paths := None |}, []) /\
  normal {| cfg_patterns := Some {| pc_add := None; pc_remove := None; pc_override := None |};
            cfg_paths := None |}.
Proof.
  split; [reflexivity|].
  exact (proj1 config_normal_form "damage-control.json"
           (JObject [("patterns", JObject [("add", JArray [])])]) _ [] eq_refl).
Defined.

(** The empty config is neutral for merging, on either side, for a config
    in normal form. *)
Theorem mergeConfigs_empty (config : DamageControlConfig) :
  normal config ->
  mergeConfigs empty_config config = config /\ mergeConfigs config empty_config = config.
Proof. intros H. split; [by apply mergeConfigs_empty_l|by apply mergeConfigs_empty_r]. Qed.

(** Merging is associative. *)
Theorem mergeConfigs_assoc (a b c : DamageControlConfig) :
  mergeConfigs (mergeConfigs a b) c = mergeConfigs a (mergeConfigs b c).
Proof.
  unfold mergeConfigs. f_equal.
  - destruct (cfg_patterns a) as [pa|], (cfg_patterns b) as [pb|], (cfg_patterns c) as [pc|];
      cbn [cfg_patterns mbind option_bind pc_add pc_remove pc_override];
      rewrite ?or_nil_nonempty, ?or_empty_nonempty_map; unfold spread2;
      cbn [or_nil or_empty app];
      rewrite ?app_nil_r, ?(left_id_L ∅ (∪)), ?(right_id_L ∅ (∪)), <- ?app_assoc,
        ?(assoc_L (∪)); try reflexivity.
  - destruct (cfg_paths a) as [pa|], (cfg_paths b) as [pb|], (cfg_paths c) as [pc|];
      cbn [cfg_paths mbind option_bind pathc_add pathc_remove pathc_override];
      rewrite ?or_nil_nonempty, ?or_empty_nonempty_map; unfold spread2;
      cbn [or_nil or_empty app];
      rewrite ?app_nil_r, ?(left_id_L ∅ (∪)), ?(right_id_L ∅ (∪)), <- ?app_assoc,
        ?(assoc_L (∪)); try reflexivity.
Qed.

End NormalForm.

Lemma normal_remove_only :
  ConfigNotions.normal
    {| Config.cfg_patterns :=
         Some {| Config.pc_add := None; Config.pc_remove := Some ["Fork bomb"%string];
                 Config.pc_override := None |};
       Config.cfg_paths := None |}.
Proof.
  split; intros pc [= <-]. repeat split; discriminate.
Qed.

Lemma mergeConfigs_empty_witness :
  let config :=
    {| Config.cfg_patterns :=
         Some {| Config.pc_add := None; Config.pc_remove := Some ["Fork bomb"%string];
                 Config.pc_override := None |};
       Config.cfg_paths := None |} in
  ConfigNotions.normal config /\
  Config.mergeConfigs Config.empty_config config = config /\
  Config.mergeConfigs config Config.empty_config = config.
Proof.
  intros config. split; [exact normal_remove_only|].
  exact (mergeConfigs_empty config normal_remove_only).
Defined.

(** ** Validation of a config written out as JSON *)

Section EncodeValidate.
Import JsStr Patterns Config ConfigNotions.
Local Open Scope string_scope.
Local Open Scope list_scope.

Variable source : string.

Lemma asPattern_encode p : asPattern (encode_pattern p) = p.
Proof. by destruct p as [? ? []]. Qed.

Lemma asProtectedPath_encode p : asProtectedPath (encode_path p) = p.
Proof. by destruct p as [? []]. Qed.

Lemma isValidPattern_encode p : isValidPattern (encode_pattern p) = true.
Proof. by destruct p as [? ? []]. Qed.

Lemma isValidProtectedPath_encode p : isValidProtectedPath (encode_path p) = true.
Proof. by destruct p as [? []]. Qed.

Lemma validate_patterns_add_encode l : forall i valid ws,
  validate_patterns_add source i (map encode_pattern l) valid ws = Ok (valid ++ l, ws).
Proof.
  induction l as [|p l IH]; intros i valid ws; cbn [map validate_patterns_add].
  - by rewrite app_nil_r.
  - rewrite isValidPattern_encode, IH, asPattern_encode, <- app_assoc. done.
Qed.

Lemma validate_paths_add_encode l : forall i valid ws,
  validate_paths_add source i (map encode_path l) valid ws = Ok (valid ++ l, ws).
Proof.
  induction l as [|p l IH]; intros i valid ws; cbn [map validate_paths_add].
  - by rewrite app_nil_r.
  - rewrite isValidProtectedPath_encode, IH, asProtectedPath_encode, <- app_assoc. done.
Qed.

Lemma filter_strings l :
  List.filter (fun v => isString (Some v)) (map JString l) = map JString l.
Proof. induction l as [|s l IH]; [done|]. simpl. f_equal. exact IH. Qed.

Lemma validate_remove_encode field l ws :
  validate_remove source field (map JString l) ws = Ok (nonempty l, ws).
Proof.
  unfold validate_remove. rewrite filter_strings, Nat.eqb_refl.
  unfold bind, ret. rewrite map_map. cbn [asString]. by rewrite map_id.
Qed.

Lemma has_action a : has VALID_ACTIONS (Some (JString (action_name a))) = true.
Proof. by destruct a. Qed.

Lemma asAction_name a : asAction (Some (JString (action_name a))) = a.
Proof. by destruct a. Qed.

Lemma has_level l : has VALID_LEVELS (Some (JString (level_or_none_name l))) = true.
Proof. by destruct l as [[]|]. Qed.

Lemma asLevelOrNone_name l : asLevelOrNone (Some (JString (level_or_none_name l))) = l.
Proof. by destruct l as [[]|]. Qed.

Lemma validate_patterns_override_encode entries : forall valid ws,
  validate_patterns_override source
    (map (fun kv => (kv.1, JString (action_name kv.2))) entries) valid ws
  = Ok (list_to_map (rev entries) ∪ valid, ws).
Proof.
  induction entries as [|[k a] entries IH]; intros valid ws;
    cbn [map validate_patterns_override fst snd].
  - cbn. by rewrite (left_id_L ∅ (∪)).
  - rewrite has_action, IH, asAction_name. do 2 f_equal.
    cbn [rev]. rewrite list_to_map_app. cbn [list_to_map foldr uncurry].
    rewrite <- (assoc_L (∪)). f_equal.
    by rewrite insert_union_singleton_l, insert_empty.
Qed.

Lemma validate_paths_override_encode entries : forall valid ws,
  validate_paths_override source
    (map (fun kv => (kv.1, JString (level_or_none_name kv.2))) entries) valid ws
  = Ok (list_to_map (rev entries) ∪ valid, ws).
Proof.
  induction entries as [|[k a] entries IH]; intros valid ws;
    cbn [map validate_paths_override fst snd].
  - cbn. by rewrite (left_id_L ∅ (∪)).
  - rewrite has_level, IH, asLevelOrNone_name. do 2 f_equal.
    cbn [rev]. rewrite list_to_map_app. cbn [list_to_map foldr uncurry].
    rewrite <- (assoc_L (∪)). f_equal.
    by rewrite insert_union_singleton_l, insert_empty.
Qed.

Lemma list_to_map_rev_to_list {V} (m : gmap string V) :
  list_to_map (rev (map_to_list m)) = m.
Proof.
  rewrite <- (list_to_map_to_list m) at 2.
  apply list_to_map_proper.
  - assert (H : (rev (map_to_list m)).*1 ≡ₚ (map_to_list m).*1)
      by (apply fmap_Permutation; symmetry; apply Permutation_rev).
    rewrite H. apply NoDup_fst_map_to_list.
  - symmetry. apply Permutation_rev.
Qed.


Lemma nonempty_app_nil {A} (l : list A) : l <> [] -> nonempty ([] ++ l) = Some l.
Proof. by destruct l. Qed.

Lemma nonempty_map_decoded {V} (m : gmap string V) :
  m <> ∅ -> nonempty_map (list_to_map (rev (map_to_list m)) ∪ ∅) = Some m.
Proof.
  intros H. rewrite (right_id_L ∅ (∪)), list_to_map_rev_to_list.
  unfold nonempty_map. by destruct (decide (m = ∅)).
Qed.

Lemma validate_patterns_encode pc rest ws :
  normal_patterns pc ->
  validate_patterns source (JObject (("patterns", encode_patterns pc) :: rest)) ws
  = Ok (Some pc, ws).
Proof.
  intros (H1 & H2 & H3). destruct pc as [a r o]. cbn [pc_add pc_remove pc_override] in *.
  unfold validate_patterns, encode_patterns, encode_override.
  destruct a as [a|], r as [r|], o as [o|];
    cbn [field app prop lookup_prop String.eqb Ascii.eqb Bool.eqb pc_add pc_remove pc_override];
    unfold bind, ret;
    rewrite ?validate_patterns_add_encode, ?validate_remove_encode,
      ?validate_patterns_override_encode;
    rewrite ?nonempty_app_nil, ?nonempty_map_decoded by congruence;
    try reflexivity.
  all: destruct r; [congruence|reflexivity].
Qed.

Lemma lookup_prop_app_miss k before rest :
  lookup_prop k before = None -> lookup_prop k (before ++ rest) = lookup_prop k rest.
Proof.
  induction before as [|[k' w] before IH]; [done|]. cbn [lookup_prop app].
  destruct (String.eqb k k'); [done|exact IH].
Qed.

Lemma validate_paths_encode pathc before rest ws :
  normal_paths pathc ->
  lookup_prop "paths" before = None ->
  validate_paths source (JObject (before ++ ("paths", encode_paths pathc) :: rest)) ws
  = Ok (Some pathc, ws).
Proof.
  intros (H1 & H2 & H3) Hbefore. destruct pathc as [a r o].
  cbn [pathc_add pathc_remove pathc_override] in *.
  unfold validate_paths, encode_paths, encode_override.
  assert (Hlook : forall v, prop (JObject (before ++ ("paths", v) :: rest)) "paths" = Some v).
  { intros v. cbn [prop]. rewrite lookup_prop_app_miss by done.
    cbn [lookup_prop]. by rewrite String.eqb_refl. }
  rewrite Hlook.
  destruct a as [a|], r as [r|], o as [o|];
    cbn [field app prop lookup_prop String.eqb Ascii.eqb Bool.eqb
         pathc_add pathc_remove pathc_override];
    unfold bind, ret;
    rewrite ?validate_paths_add_encode, ?validate_remove_encode,
      ?validate_paths_override_encode;
    rewrite ?nonempty_app_nil, ?nonempty_map_decoded by congruence;
    try reflexivity.
  all: destruct r; [congruence|reflexivity].
Qed.

Lemma validate_patterns_absent props ws :
  lookup_prop "patterns" props = None ->
  validate_patterns source (JObject props) ws = Ok (None, ws).
Proof. intros H. unfold validate_patterns. cbn [prop]. by rewrite H. Qed.

Lemma validate_paths_absent props ws :
  lookup_prop "paths" props = None ->
  validate_paths source (JObject props) ws = Ok (None, ws).
Proof. intros H. unfold validate_paths. cbn [prop]. by rewrite H. Qed.


End EncodeValidate.


(** ** Merging and applying *)

Section MergeThenApply.
Import JsStr Patterns Config ConfigNotions.
Local Open Scope string_scope.
Local Open Scope list_scope.

Lemma merged_patterns_fields global project :
  let merged := cfg_patterns (mergeConfigs global project) in
  or_nil (merged ≫= pc_add)
    = or_nil (cfg_patterns global ≫= pc_add) ++ or_nil (cfg_patterns project ≫= pc_add) /\
  or_nil (merged ≫= pc_remove)
    = or_nil (cfg_patterns global ≫= pc_remove) ++ or_nil (cfg_patterns project ≫= pc_remove) /\
  or_empty (merged ≫= pc_override)
    = or_empty (cfg_patterns project ≫= pc_override)
      ∪ or_empty (cfg_patterns global ≫= pc_override).
Proof.
  unfold mergeConfigs. cbn [cfg_patterns].
  destruct (cfg_patterns global), (cfg_patterns project);
    cbn [mbind option_bind pc_add pc_remove pc_override];
    rewrite ?or_nil_nonempty, ?or_empty_nonempty_map; unfold spread2;
    cbn [or_nil or_empty app]; rewrite ?(left_id_L ∅ (∪)); done.
Qed.

Lemma merged_paths_fields global project :
  let merged := cfg_paths (mergeConfigs global project) in
  or_nil (merged ≫= pathc_add)
    = or_nil (cfg_paths global ≫= pathc_add) ++ or_nil (cfg_paths project ≫= pathc_add) /\
  or_nil (merged ≫= pathc_remove)
    = or_nil (cfg_paths global ≫= pathc_remove) ++ or_nil (cfg_paths project ≫= pathc_remove) /\
  or_empty (merged ≫= pathc_override)
    = or_empty (cfg_paths project ≫= pathc_override)
      ∪ or_empty (cfg_paths global ≫= pathc_override).
Proof.
  unfold mergeConfigs. cbn [cfg_paths].
  destruct (cfg_paths global), (cfg_paths project);
    cbn [mbind option_bind pathc_add pathc_remove pathc_override];
    rewrite ?or_nil_nonempty, ?or_empty_nonempty_map; unfold spread2;
    cbn [or_nil or_empty app]; rewrite ?(left_id_L ∅ (∪)); done.
Qed.

Lemma remove_step_app_keys {A} (key : A -> string) R1 R2 (l : list A) :
  Spec.remove_step key (R1 ++ R2) l = Spec.remove_step key R2 (Spec.remove_step key R1 l).
Proof.
  unfold Spec.remove_step. induction l as [|e l IH]; [done|].
  cbn [List.filter]. rewrite existsb_app.
  destruct (existsb (String.eqb (key e)) R1); cbn [negb orb List.filter]; [exact IH|].
  destruct (existsb (String.eqb (key e)) R2); cbn [negb]; [exact IH|]. by rewrite IH.
Qed.

Lemma remove_step_app {A} (key : A -> string) R (l1 l2 : list A) :
  Spec.remove_step key R (l1 ++ l2) = Spec.remove_step key R l1 ++ Spec.remove_step key R l2.
Proof. unfold Spec.remove_step. apply List.filter_app. Qed.

Lemma remove_step_untouched {A} (key : A -> string) R (l : list A) :
  (forall k, In k (map key l) -> ~ In k R) -> Spec.remove_step key R l = l.
Proof.
  unfold Spec.remove_step. induction l as [|e l IH]; [done|]. intros H.
  cbn [List.filter]. destruct (existsb (String.eqb (key e)) R) eqn:E.
  - apply existsb_eqb_In in E. destruct (H (key e)); [by left|done].
  - cbn [negb]. f_equal. apply IH. intros k Hk. apply H. by right.
Qed.

Lemma override_patterns_step_app o l1 l2 :
  Spec.override_patterns_step o (l1 ++ l2)
  = Spec.override_patterns_step o l1 ++ Spec.override_patterns_step o l2.
Proof. unfold Spec.override_patterns_step. apply map_app. Qed.

Lemma override_paths_step_app o l1 l2 :
  Spec.override_paths_step o (l1 ++ l2)
  = Spec.override_paths_step o l1 ++ Spec.override_paths_step o l2.
Proof. unfold Spec.override_paths_step. apply flat_map_app. Qed.

Lemma override_patterns_step_untouched o l :
  (forall k, In k (map reason l) -> o !! k = None) -> Spec.override_patterns_step o l = l.
Proof.
  unfold Spec.override_patterns_step. induction l as [|e l IH]; [done|]. intros H.
  cbn [map]. rewrite (H (reason e)) by (by left). f_equal. apply IH.
  intros k Hk. apply H. by right.
Qed.

Lemma override_paths_step_untouched o l :
  (forall k, In k (map path l) -> o !! k = None) -> Spec.override_paths_step o l = l.
Proof.
  unfold Spec.override_paths_step. induction l as [|e l IH]; [done|]. intros H.
  cbn [flat_map]. rewrite (H (path e)) by (by left). cbn [app]. f_equal. apply IH.
  intros k Hk. apply H. by right.
Qed.

Lemma override_patterns_step_union g p l :
  Spec.override_patterns_step (p ∪ g) l
  = Spec.override_patterns_step p (Spec.override_patterns_step g l).
Proof.
  unfold Spec.override_patterns_step. rewrite map_map. apply map_ext. intros e.
  rewrite lookup_union. destruct (g !! reason e) as [a|], (p !! reason e) as [b|] eqn:E;
    cbn [reason union option_union union_with option_union_with]; rewrite ?E; done.
Qed.

Lemma override_paths_step_union g p l :
  (forall k, g !! k = Some none -> forall lv, p !! k <> Some (Level lv)) ->
  Spec.override_paths_step (p ∪ g) l
  = Spec.override_paths_step p (Spec.override_paths_step g l).
Proof.
  intros Hnone. unfold Spec.override_paths_step.
  induction l as [|e l IH]; [done|]. cbn [flat_map]. rewrite flat_map_app, <- IH. f_equal.
  rewrite lookup_union.
  destruct (g !! path e) as [[lg|]|] eqn:Eg, (p !! path e) as [[lp|]|] eqn:Ep;
    cbn [flat_map path app union option_union union_with option_union_with];
    rewrite ?Ep; try done.
  by destruct (Hnone _ Eg lp).
Qed.

Lemma remove_override_patterns R o l :
  Spec.remove_step reason R (Spec.override_patterns_step o l)
  = Spec.override_patterns_step o (Spec.remove_step reason R l).
Proof.
  unfold Spec.remove_step, Spec.override_patterns_step.
  induction l as [|e l IH]; [done|]. cbn [map List.filter].
  replace (reason (match o !! reason e with
                   | Some a => {| pattern := pattern e; reason := reason e; action := a |}
                   | None => e
                   end)) with (reason e) by (by destruct (o !! reason e)).
  destruct (existsb (String.eqb (reason e)) R); cbn [negb map]; by rewrite IH.
Qed.

Lemma remove_override_paths R o l :
  Spec.remove_step path R (Spec.override_paths_step o l)
  = Spec.override_paths_step o (Spec.remove_step path R l).
Proof.
  unfold Spec.remove_step, Spec.override_paths_step.
  induction l as [|e l IH]; [done|]. cbn [flat_map List.filter].
  rewrite List.filter_app, IH.
  destruct (existsb (String.eqb (path e)) R) eqn:E; cbn [negb flat_map];
    destruct (o !! path e) as [[lv|]|]; cbn [List.filter path app]; rewrite ?E; done.
Qed.


End MergeThenApply.


(** ** Warnings and the two configuration files *)

Section Warnings.
Import JsStr Patterns Config ConfigNotions.
Local Open Scope string_scope.
Local Open Scope list_scope.

Variable source : string.

(** The warning starts with the name of its source and a colon. *)
Local Abbreviation named w := (exists rest, w = source +:+ ": " +:+ rest).

(** A computation of the validator that only adds named warnings. *)
Local Abbreviation keeps_named c :=
  (forall ws a ws', Forall (fun w => named w) ws -> c ws = Ok (a, ws') ->
                    Forall (fun w => named w) ws').

Lemma keeps_named_ret {A} (a : A) : keeps_named (ret a).
Proof. by intros ws b ws' H [= _ <-]. Qed.

Lemma keeps_named_warn rest : keeps_named (warn (source +:+ ": " +:+ rest)).
Proof.
  intros ws [] ws' H [= <-]. apply Forall_app. split; [done|]. repeat constructor. eauto.
Qed.

Lemma keeps_named_bind {A B} (c : M A) (f : A -> M B) :
  keeps_named c -> (forall a, keeps_named (f a)) -> keeps_named (bind c f).
Proof.
  intros Hc Hf ws b ws' H Hrun. unfold bind in Hrun.
  destruct (c ws) as [[a ws1]|] eqn:E; [|done]. eapply Hf; [|exact Hrun]. by eapply Hc.
Qed.

Lemma keeps_named_lift {A} (r : result A) : keeps_named (lift r).
Proof. intros ws b ws' H. unfold lift. destruct r; [by intros [= _ <-]|done]. Qed.

Lemma keeps_named_not_an what kind : keeps_named (warn (not_an source what kind)).
Proof. apply keeps_named_warn. Qed.

Lemma keeps_named_patterns_add items : forall i valid,
  keeps_named (validate_patterns_add source i items valid).
Proof.
  induction items as [|v rest IH]; intros i valid; cbn [validate_patterns_add].
  - apply keeps_named_ret.
  - destruct (isValidPattern v); [apply IH|].
    apply keeps_named_bind; [apply keeps_named_warn|]. intros _. apply IH.
Qed.

Lemma keeps_named_paths_add items : forall i valid,
  keeps_named (validate_paths_add source i items valid).
Proof.
  induction items as [|v rest IH]; intros i valid; cbn [validate_paths_add].
  - apply keeps_named_ret.
  - destruct (isValidProtectedPath v); [apply IH|].
    apply keeps_named_bind; [apply keeps_named_warn|]. intros _. apply IH.
Qed.

Lemma keeps_named_remove field items : keeps_named (validate_remove source field items).
Proof.
  unfold validate_remove. apply keeps_named_bind; [|intros _; apply keeps_named_ret].
  destruct (Nat.eqb _ _); [apply keeps_named_ret|].
  apply (keeps_named_warn ("some " +:+ dq +:+ field +:+ dq
                           +:+ " entries are not strings, skipping those")).
Qed.

Lemma keeps_named_patterns_override entries : forall valid,
  keeps_named (validate_patterns_override source entries valid).
Proof.
  induction entries as [|[key val] rest IH]; intros valid;
    cbn [validate_patterns_override]; [apply keeps_named_ret|].
  destruct (has VALID_ACTIONS (Some val)); [apply IH|].
  apply keeps_named_bind; [apply keeps_named_lift|]. intros shown.
  apply keeps_named_bind; [apply keeps_named_warn|]. intros _. apply IH.
Qed.

Lemma keeps_named_paths_override entries : forall valid,
  keeps_named (validate_paths_override source entries valid).
Proof.
  induction entries as [|[key val] rest IH]; intros valid;
    cbn [validate_paths_override]; [apply keeps_named_ret|].
  destruct (has VALID_LEVELS (Some val)); [apply IH|].
  apply keeps_named_bind; [apply keeps_named_lift|]. intros shown.
  apply keeps_named_bind; [apply keeps_named_warn|]. intros _. apply IH.
Qed.

Lemma keeps_named_unknown_keys keys : keeps_named (warn_unknown_keys source keys).
Proof.
  induction keys as [|key rest IH]; cbn [warn_unknown_keys]; [apply keeps_named_ret|].
  apply keeps_named_bind; [|by intros _].
  destruct (_ && _); [|apply keeps_named_ret].
  apply (keeps_named_warn ("unknown key " +:+ dq +:+ key +:+ dq +:+ ", ignoring")).
Qed.

Ltac keeps_named_field :=
  first [ apply keeps_named_ret
        | apply keeps_named_bind; [apply keeps_named_not_an|intros _; apply keeps_named_ret] ].

Lemma keeps_named_patterns raw : keeps_named (validate_patterns source raw).
Proof.
  unfold validate_patterns.
  destruct (prop raw "patterns") as [[| | | | |section]|]; try keeps_named_field.
  apply keeps_named_bind; [|intros add; apply keeps_named_bind;
                              [|intros remove; apply keeps_named_bind;
                                  [|intros ov; apply keeps_named_ret]]].
  - destruct (prop (JObject section) "add") as [[| | | |items|]|]; try keeps_named_field.
    apply keeps_named_bind; [apply keeps_named_patterns_add|intros valid; apply keeps_named_ret].
  - destruct (prop (JObject section) "remove") as [[| | | |items|]|]; try keeps_named_field.
    apply keeps_named_remove.
  - destruct (prop (JObject section) "override") as [[| | | | |entries]|];
      try keeps_named_field.
    apply keeps_named_bind; [apply keeps_named_patterns_override|intros valid; apply keeps_named_ret].
Qed.

Lemma keeps_named_paths raw : keeps_named (validate_paths source raw).
Proof.
  unfold validate_paths.
  destruct (prop raw "paths") as [[| | | | |section]|]; try keeps_named_field.
  apply keeps_named_bind; [|intros add; apply keeps_named_bind;
                              [|intros remove; apply keeps_named_bind;
                                  [|intros ov; apply keeps_named_ret]]].
  - destruct (prop (JObject section) "add") as [[| | | |items|]|]; try keeps_named_field.
    apply keeps_named_bind; [apply keeps_named_paths_add|intros valid; apply keeps_named_ret].
  - destruct (prop (JObject section) "remove") as [[| | | |items|]|]; try keeps_named_field.
    apply keeps_named_remove.
  - destruct (prop (JObject section) "override") as [[| | | | |entries]|];
      try keeps_named_field.
    apply keeps_named_bind; [apply keeps_named_paths_override|intros valid; apply keeps_named_ret].
Qed.

(** Every warning of [validateConfig] starts with the name of the source. *)
Lemma validateConfig_warnings_named raw config warnings :
  validateConfig source raw = Ok (config, warnings) ->
  Forall (fun w => exists rest, w = source +:+ ": " +:+ rest) warnings.
Proof.
  destruct raw as [| | | | |props];
    try (intros [= _ <-]; repeat constructor; by exists "config is not an object, ignoring").
  unfold validateConfig. intros H.
  eapply (keeps_named_bind (validate_patterns source (JObject props))); [| |constructor|exact H].
  - apply keeps_named_patterns.
  - intros pats. apply keeps_named_bind; [apply keeps_named_paths|]. intros pths.
    apply keeps_named_bind; [apply keeps_named_unknown_keys|]. intros _. apply keeps_named_ret.
Qed.

End Warnings.

Section Loading.
Import JsStr Patterns Config ConfigNotions Loader.
Local Open Scope string_scope.
Local Open Scope list_scope.

Variable HOME : option string.
Variable join : list string -> string.
Variable parse_file : string -> option json.

Local Abbreviation loadConfig := (Loader.loadConfig HOME join parse_file).
Local Abbreviation readJsonFile := (Loader.readJsonFile parse_file).
Local Abbreviation globalConfig := (Loader.globalConfig HOME join).
Local Abbreviation projectConfig := (Loader.projectConfig join).

(** What a file contributes: nothing when it reads as [null], the outcome
    of its validation otherwise. *)
Local Abbreviation contribution path :=
  (match readJsonFile path with
   | JNull => Ok (empty_config, [])
   | raw => validateConfig path raw
   end).

Lemma load_one_spec path ws :
  Loader.load_one parse_file path ws
  = match contribution path with
    | Ok (config, warnings) => Ok (config, ws ++ warnings)
    | Throw e => Throw e
    end.
Proof.
  unfold Loader.load_one. destruct (Loader.readJsonFile parse_file path);
    try reflexivity. by rewrite app_nil_r.
Qed.

Lemma contribution_normal path config warnings :
  contribution path = Ok (config, warnings) -> normal config.
Proof.
  destruct (Loader.readJsonFile parse_file path) eqn:E;
    try (by apply validateConfig_normal).
  intros [= <- _]. split; intros ? [=].
Qed.



End Loading.



(** ** The last segment of a path *)

Section BasenameFacts.
Import JsStr Patterns.
Local Open Scope list_scope.

Local Abbreviation has_slash l := (existsb (ceqb "/"%char) l).
Local Abbreviation slashes n := (repeat "/"%char n).

Lemma trim_slashes n : Spec.trim_trailing_slashes (slashes n) = [].
Proof.
  induction n as [|n IH]; [done|]. cbn [repeat]. rewrite trim_trailing_slashes_cons, IH.
  reflexivity.
Qed.

Lemma trim_app_slashes l n :
  Spec.trim_trailing_slashes (l ++ slashes n) = Spec.trim_trailing_slashes l.
Proof.
  induction l as [|c l IH]; [apply trim_slashes|].
  cbn [app]. by rewrite !trim_trailing_slashes_cons, IH.
Qed.

Lemma trim_no_slash l : has_slash l = false -> Spec.trim_trailing_slashes l = l.
Proof.
  induction l as [|c l IH]; [done|]. cbn [existsb]. intros H.
  apply orb_false_iff in H as [Hc Hl]. rewrite trim_trailing_slashes_cons, (IH Hl).
  rewrite ceqb_sym in Hc. rewrite Hc. by destruct l.
Qed.

Lemma trim_ends_no_slash l name :
  name <> [] -> has_slash name = false ->
  Spec.trim_trailing_slashes (l ++ name) = l ++ name.
Proof.
  intros Hne Hname. induction l as [|c l IH]; [by apply trim_no_slash|].
  cbn [app]. rewrite trim_trailing_slashes_cons, IH.
  destruct (l ++ name) eqn:E; [|done]. by destruct l, name.
Qed.

Lemma has_slash_app l1 l2 : has_slash (l1 ++ l2) = has_slash l1 || has_slash l2.
Proof. apply existsb_app. Qed.

Lemma final_segment_after_slash dir name :
  has_slash name = false -> Spec.final_segment (dir ++ "/"%char :: name) = name.
Proof.
  intros Hname. induction dir as [|c dir IH]; cbn [app Spec.final_segment].
  - by rewrite Hname.
  - rewrite has_slash_app. cbn [existsb]. rewrite orb_true_r. exact IH.
Qed.

Lemma final_segment_has_no_slash l : has_slash (Spec.final_segment l) = false.
Proof.
  induction l as [|c l IH]; [done|]. cbn [Spec.final_segment].
  destruct (has_slash l) eqn:E; [exact IH|].
  destruct (ceqb c "/") eqn:Ec; [exact E|]. cbn [existsb]. rewrite E, ceqb_sym, Ec. done.
Qed.

(** [basename] returns the last segment of a path: the name after the last
    slash, trailing slashes apart. Its result has no slash, so taking it
    twice changes nothing; a path of slashes only has the empty name. *)
Theorem basename_last_segment :
  (forall filePath,
      has_slash (basename filePath) = false /\
      basename (basename filePath) = basename filePath) /\
  (forall dir name n,
      name <> [] -> has_slash name = false ->
      basename (dir ++ "/"%char :: name ++ slashes n) = name /\
      basename (name ++ slashes n) = name) /\
  (forall n, basename (slashes n) = []).
Proof.
  split; [|split].
  - intros l. rewrite !basename_spec. unfold Spec.basename.
    pose proof (final_segment_has_no_slash (Spec.trim_trailing_slashes l)) as H.
    split; [exact H|]. by rewrite (trim_no_slash _ H), (final_segment_no_slash _ H).
  - intros dir name n Hne Hname. rewrite !basename_spec. unfold Spec.basename. split.
    + replace (dir ++ "/"%char :: name ++ slashes n)
        with ((dir ++ "/"%char :: name) ++ slashes n) by (by rewrite <- app_assoc).
      rewrite trim_app_slashes.
      replace (dir ++ "/"%char :: name) with ((dir ++ ["/"%char]) ++ name)
        by (by rewrite <- app_assoc).
      rewrite trim_ends_no_slash by done. rewrite <- app_assoc.
      by apply final_segment_after_slash.
    + rewrite trim_app_slashes, trim_no_slash by done. by apply final_segment_no_slash.
  - intros n. rewrite basename_spec. unfold Spec.basename. by rewrite trim_slashes.
Qed.

Lemma basename_last_segment_witness :
  chars "server.pem" <> [] /\
  has_slash (chars "server.pem") = false /\
  basename (chars "/srv/tls" ++ "/"%char :: chars "server.pem" ++ slashes 2) = chars "server.pem".
Proof.
  split; [discriminate|]. split; [reflexivity|].
  exact (proj1 (proj1 (proj2 basename_last_segment) (chars "/srv/tls") (chars "server.pem") 2
                  ltac:(discriminate) eq_refl)).
Defined.
End BasenameFacts.

(** ** What a glob matches *)

Section GlobSemantics.
Import JsStr RegExp Patterns Wildcard.
Local Open Scope list_scope.

Local Abbreviation tok c := (expand_stars (escape_glob [c])).
Local Abbreviation plain_head r :=
  (match r with
   | c :: _ => negb (existsb (ceqb c) [")"; "|"; "*"; "+"; "?"; "{"]%char)
   | [] => true
   end).
Local Abbreviation not_terminator := (fun d => negb (is_line_terminator d)).

(** One glob character is the term [glob_term]. *)
Lemma parse_term_glob_term c r n :
  c <> "?"%char -> plain_head r = true ->
  parse_term (S n) (tok c ++ r) = Some (glob_term c, r).
Proof.
  intros Hc Hr.
  destruct c as [[] [] [] [] [] [] [] []]; try (by destruct Hc);
    cbn -[quantify is_digit];
    try (match goal with
         | |- context [is_digit ?c] =>
             let b := eval vm_compute in (is_digit c) in change (is_digit c) with b
         end; cbv iota);
    rewrite ?(quantify_star _ r Hr), ?(quantify_plain_head _ r Hr); reflexivity.
Qed.

Lemma parse_disj_glob l :
  Forall (fun c => c <> "?"%char) l ->
  forall n,
    parse_disj (length l + 2 + n) (expand_stars (escape_glob l) ++ ["$"%char])
    = Some ([map glob_term l ++ [Eol]], []).
Proof.
  induction 1 as [|c l Hc Hl IH]; intros n.
  - reflexivity.
  - pose proof (body_plain_head l Hl) as Hhead.
    pose proof (parse_term_glob_term c (expand_stars (escape_glob l) ++ ["$"%char])
                  (length l + 1 + n) Hc Hhead) as Ht.
    rewrite body_cons, <- app_assoc.
    replace (length (c :: l) + 2 + n) with (S (S (length l + 1 + n))) by (cbn; lia).
    rewrite (parse_disj_term _ _ (glob_term c) (expand_stars (escape_glob l) ++ ["$"%char]));
      [|by apply tok_plain_head| |exact Ht].
    + replace (S (length l + 1 + n)) with (length l + 2 + n) by lia. by rewrite IH.
    + pose proof (tok_length c) as Hlen. destruct (tok c); [cbn in Hlen; lia|done].
Qed.

(** The regex of a glob without question marks. *)
Lemma globToRegex_terms (glob : string) :
  includes glob "?" = false ->
  globToRegex glob = Ok (seq_of (Bol :: map glob_term (chars glob) ++ [Eol])).
Proof.
  intros H. apply not_includes_char in H.
  unfold globToRegex, compile_l, glob_source.
  set (body := expand_stars (escape_glob (chars glob))).
  pose proof (body_length (chars glob)) as Hlen. fold body in Hlen.
  pose proof (parse_disj_glob _ H (2 * length body + 3 - length (chars glob))) as Hterms.
  fold body in Hterms.
  replace (2 * length ("^"%char :: body ++ ["$"%char]) + 2)
    with (S (S (length (chars glob) + 1 + (2 * length body + 3 - length (chars glob)))))
    by (cbn [length]; rewrite length_app; cbn [length]; lia).
  rewrite (parse_disj_term _ _ Bol (body ++ ["$"%char])); [|done|done|done].
  replace (S (length (chars glob) + 1 + (2 * length body + 3 - length (chars glob))))
    with (length (chars glob) + 2 + (2 * length body + 3 - length (chars glob))) by lia.
  by rewrite Hterms.
Qed.

Variable s : list ascii.

Local Abbreviation Matches := (RegExp.Matches false s).

Lemma seq_of_cons t ts : ts <> [] -> seq_of (t :: ts) = Seq t (seq_of ts).
Proof. by destruct ts. Qed.

Lemma skipn_nth_error_cons i d :
  nth_error s i = Some d -> skipn i s = d :: skipn (S i) s.
Proof.
  revert i. induction s as [|c l IH]; intros [|i] H; try done.
  - by injection H as ->.
  - cbn [skipn]. by apply IH.
Qed.

Lemma forallb_firstn_skipn (p : ascii -> bool) i k :
  forallb p (firstn k (skipn i s)) = true <->
  forall x, i <= x < i + k -> x < length s -> exists d, nth_error s x = Some d /\ p d = true.
Proof.
  rewrite forallb_forall. split.
  - intros H x Hx Hlen. destruct (nth_error s x) as [d|] eqn:E;
      [|apply nth_error_None in E; lia].
    exists d. split; [done|]. apply H.
    apply (nth_error_In _ (x - i)). rewrite nth_error_firstn.
    replace (Nat.ltb (x - i) k) with true by (symmetry; apply Nat.ltb_lt; lia).
    rewrite List.nth_error_skipn. by replace (i + (x - i)) with x by lia.
  - intros H d Hd. apply (In_nth_error) in Hd as [n Hn].
    assert (n < k).
    { destruct (Nat.ltb_spec n k); [done|]. rewrite nth_error_firstn in Hn.
      replace (Nat.ltb n k) with false in Hn by (symmetry; apply Nat.ltb_ge; lia). done. }
    rewrite nth_error_firstn in Hn.
    replace (Nat.ltb n k) with true in Hn by (symmetry; apply Nat.ltb_lt; lia).
    rewrite List.nth_error_skipn in Hn.
    destruct (H (i + n)) as (d' & Hd' & Hp); [lia|apply nth_error_Some; congruence|].
    congruence.
Qed.

(** What the terms of a glob match: the rest of the subject, as the
    wildcard reading has it. *)
Lemma Matches_glob_terms l : forall i j,
  i <= length s ->
  Matches (seq_of (map glob_term l ++ [Eol])) i j <->
  j = length s /\ wildcard l (skipn i s) = true.
Proof.
  induction l as [|c l IH]; intros i j Hi.
  - cbn [map app seq_of RegExp.Matches wildcard]. split.
    + intros [-> ->]. split; [done|]. by rewrite skipn_all.
    + intros [-> H]. destruct (skipn i s) eqn:E; [|done].
      apply (f_equal length) in E. rewrite length_skipn in E. cbn in E. split; lia.
  - cbn [map app]. rewrite seq_of_cons by (by destruct (map glob_term l)).
    cbn [RegExp.Matches wildcard]. unfold glob_term at 1.
    destruct (ceqb c "*") eqn:Ec.
    + cbn [RegExp.Matches]. rewrite existsb_exists. split.
      * intros (x & Hstar & Hrest).
        apply rtc_one_char_elim in Hstar as [Hle Hall].
        assert (Hx : x <= length s).
        { destruct (decide (x = i)) as [->|]; [done|].
          destruct (Hall (x - 1)) as (d & Hd & _); [lia|].
          assert (x - 1 < length s) by (apply nth_error_Some; congruence). lia. }
        apply IH in Hrest as [-> Hrest]; [|done]. split; [done|].
        exists (x - i). split.
        -- apply in_seq. rewrite length_skipn. lia.
        -- apply andb_true_iff. split.
           ++ apply forallb_firstn_skipn. intros y Hy _. apply Hall. lia.
           ++ rewrite skipn_skipn. by replace (x - i + i) with x by lia.
      * intros [-> (k & Hk & H)]. apply in_seq in Hk. rewrite length_skipn in Hk.
        apply andb_true_iff in H as [Hall Hrest]. exists (i + k). split.
        -- apply rtc_one_char_intro. intros y Hy.
           apply (proj1 (forallb_firstn_skipn _ i k) Hall); lia.
        -- apply IH; [lia|]. split; [done|].
           rewrite skipn_skipn in Hrest. by replace (i + k) with (k + i) by lia.
    + cbn [RegExp.Matches]. unfold one_char, char_matches. split.
      * intros (x & (d & Hd & Hcd & ->) & Hrest).
        assert (i < length s) by (apply nth_error_Some; congruence).
        apply IH in Hrest as [-> Hrest]; [|lia]. split; [done|].
        rewrite (skipn_nth_error_cons i d Hd). by rewrite Hcd, Hrest.
      * intros [-> H]. destruct (skipn i s) as [|d rest] eqn:E; [done|].
        apply andb_true_iff in H as [Hcd Hrest].
        assert (Hd : nth_error s i = Some d).
        { rewrite <- (Nat.add_0_r i), <- List.nth_error_skipn, E. done. }
        rewrite (skipn_nth_error_cons i d Hd) in E. injection E as <-.
        exists (S i). split; [by exists d|].
        apply IH; [apply Nat.le_succ_l, nth_error_Some; congruence|]. done.
Qed.

End GlobSemantics.

Section GlobTheorem.
Import JsStr RegExp Patterns Wildcard.
Local Open Scope list_scope.

(** The regex of a glob without question marks accepts a name exactly when
    the glob, read as a wildcard pattern, matches the whole name: every
    character but the star stands for itself, case-sensitively. *)
Theorem globToRegex_wildcard (glob : string) :
  includes glob "?" = false ->
  exists regex,
    globToRegex glob = Ok regex /\
    forall name, RegExp.test false regex name = wildcard (chars glob) name.
Proof.
  intros H. eexists. split; [by apply globToRegex_terms|]. intros name.
  apply eq_true_iff_eq. rewrite test_spec.
  rewrite seq_of_cons by (by destruct (map glob_term (chars glob))).
  cbn [RegExp.Matches]. split.
  - intros (i & j & Hi & x & [-> ->] & Hrest).
    by apply Matches_glob_terms in Hrest as [_ Hrest]; [|lia].
  - intros Hw. exists 0, (length name). split; [lia|]. exists 0. split; [done|].
    apply Matches_glob_terms; [lia|]. done.
Qed.

Lemma globToRegex_wildcard_witness :
  includes "*.pem" "?" = false /\
  exists regex,
    globToRegex "*.pem" = Ok regex /\
    forall name, RegExp.test false regex name = wildcard (chars "*.pem") name.
Proof. split; [reflexivity|]. exact (globToRegex_wildcard "*.pem" eq_refl). Defined.

End GlobTheorem.

(** ** The case of letters in a command *)

Section CaseInsensitive.
Import JsStr RegExp Patterns Letters.
Local Open Scope list_scope.

(** Every code unit. *)
Local Abbreviation all_ascii := (map ascii_of_nat (seq 0 256)).

Lemma In_all_ascii (a : ascii) : In a all_ascii.
Proof.
  rewrite <- (ascii_nat_embedding a). apply in_map, in_seq.
  pose proof (nat_ascii_bounded a). lia.
Qed.

(** What the matcher looks at in a code unit does not change with the case
    of an ASCII letter; checked on all pairs of code units. *)
Local Abbreviation alike a b :=
  (ceqb (canonicalize a) (canonicalize b)
   && Bool.eqb (is_word a) (is_word b)
   && Bool.eqb (is_digit a) (is_digit b)
   && Bool.eqb (is_space a) (is_space b)
   && Bool.eqb (is_line_terminator a) (is_line_terminator b)
   && forallb (fun x => existsb (ceqb x) (candidates true b)) (candidates true a)).

Lemma alike_check :
  forallb (fun a => alike a (ascii_upper a) && alike (ascii_upper a) a) all_ascii = true.
Proof. vm_compute. reflexivity. Qed.

Lemma alike_upper a : alike a (ascii_upper a) = true /\ alike (ascii_upper a) a = true.
Proof.
  pose proof alike_check as Hall. rewrite forallb_forall in Hall.
  apply andb_true_iff, Hall, In_all_ascii.
Qed.

Local Abbreviation R := (fun a b => ascii_upper a = ascii_upper b).

(** The components of [alike], for a code unit and its upper-case form. *)
Lemma alike_parts a b :
  alike a b = true ->
  canonicalize a = canonicalize b /\ is_word a = is_word b /\ is_digit a = is_digit b /\
  is_space a = is_space b /\ is_line_terminator a = is_line_terminator b /\
  forall lo hi, existsb (in_range lo hi) (candidates true a) = true ->
                existsb (in_range lo hi) (candidates true b) = true.
Proof.
  intros H. repeat (apply andb_true_iff in H as [H ?]).
  apply ceqb_eq in H. repeat (split; [by (done || apply eqb_prop)|]).
  intros lo hi. rewrite !existsb_exists. intros (x & Hx & Hr).
  match goal with Hc : forallb _ _ = true |- _ => rewrite forallb_forall in Hc;
    apply Hc in Hx end.
  apply existsb_exists in Hx as (y & Hy & Hxy). apply ceqb_eq in Hxy as ->. eauto.
Qed.

Lemma R_parts a b :
  R a b ->
  canonicalize a = canonicalize b /\ is_word a = is_word b /\ is_digit a = is_digit b /\
  is_space a = is_space b /\ is_line_terminator a = is_line_terminator b /\
  forall lo hi, existsb (in_range lo hi) (candidates true a) = true ->
                existsb (in_range lo hi) (candidates true b) = true.
Proof.
  intros H.
  destruct (alike_parts _ _ (proj1 (alike_upper a))) as (A1 & A2 & A3 & A4 & A5 & A6).
  destruct (alike_parts _ _ (proj2 (alike_upper b))) as (B1 & B2 & B3 & B4 & B5 & B6).
  rewrite H in A1, A2, A3, A4, A5, A6.
  repeat (split; [congruence|]). intros lo hi Hc. by apply B6, A6.
Qed.

Lemma cset_has_alike it a b : R a b -> cset_has true it a = cset_has true it b.
Proof.
  intros H. destruct (R_parts a b H) as (H1 & H2 & H3 & H4 & H5 & H6).
  assert (H' : R b a) by done.
  destruct (R_parts b a H') as (_ & _ & _ & _ & _ & H6').
  destruct it as [c|lo hi|neg|neg|neg]; cbn [cset_has].
  - unfold char_matches. by rewrite H1.
  - apply eq_true_iff_eq. split; [apply H6|apply H6'].
  - by rewrite H3.
  - by rewrite H4.
  - by rewrite H2.
Qed.

Lemma class_matches_alike invert items a b :
  R a b -> class_matches true invert items a = class_matches true invert items b.
Proof.
  intros H. unfold class_matches. f_equal.
  induction items as [|it items IH]; [done|]. cbn [existsb]. by rewrite IH, (cset_has_alike it a b).
Qed.

Lemma char_matches_alike c a b : R a b -> char_matches true c a = char_matches true c b.
Proof.
  intros H. destruct (R_parts a b H) as (H1 & _). unfold char_matches. by rewrite H1.
Qed.

Lemma not_terminator_alike a b :
  R a b -> negb (is_line_terminator a) = negb (is_line_terminator b).
Proof. intros H. destruct (R_parts a b H) as (_ & _ & _ & _ & H5 & _). by rewrite H5. Qed.

Lemma is_word_alike a b : R a b -> is_word a = is_word b.
Proof. intros H. by destruct (R_parts a b H) as (_ & H2 & _). Qed.

Variables s s' : list ascii.
Hypothesis Hss : Forall2 R s s'.

Lemma alike_nth_error i d :
  nth_error s i = Some d -> exists d', nth_error s' i = Some d' /\ R d d'.
Proof.
  revert i. induction Hss as [|a b l l' Hab Hl IH]; intros [|i] H; try done.
  - injection H as <-. by exists b.
  - by apply IH.
Qed.

Lemma alike_nth_error_None i : nth_error s i = None -> nth_error s' i = None.
Proof.
  rewrite !nth_error_None. by rewrite (Forall2_length _ _ _ Hss).
Qed.

Lemma one_char_alike (p : ascii -> bool) i j :
  (forall a b, R a b -> p a = p b) ->
  one_char s p i j -> one_char s' p i j.
Proof.
  intros Hp (d & Hd & Hpd & ->). destruct (alike_nth_error i d Hd) as (d' & Hd' & Hr).
  exists d'. split; [done|]. split; [|done]. by rewrite <- (Hp d d' Hr).
Qed.

Lemma word_at_alike i : word_at s i = word_at s' i.
Proof.
  unfold word_at. destruct (nth_error s i) as [d|] eqn:E.
  - destruct (alike_nth_error i d E) as (d' & -> & Hr). by apply is_word_alike.
  - by rewrite (alike_nth_error_None i E).
Qed.

Lemma at_boundary_alike i : at_boundary s i = at_boundary s' i.
Proof. unfold at_boundary. destruct i; by rewrite !word_at_alike. Qed.

End CaseInsensitive.

Section CaseInsensitiveMatch.
Import JsStr RegExp Patterns Letters.
Local Open Scope list_scope.

Local Abbreviation R := (fun a b => ascii_upper a = ascii_upper b).

Lemma alike_sym s s' : Forall2 R s s' -> Forall2 R s' s.
Proof. induction 1; constructor; done. Qed.

Lemma rtc_iff (A : Type) (P Q : A -> A -> Prop) x y :
  (forall a b, P a b <-> Q a b) -> rtc P x y <-> rtc Q x y.
Proof.
  intros H. split; apply rtc_subrel; intros a b; apply H.
Qed.

(** With the [i] flag, a regex matches the same spans of two subjects that
    differ in the case of ASCII letters only. *)
Lemma Matches_alike r : forall s s' i j,
  Forall2 R s s' -> RegExp.Matches true s r i j <-> RegExp.Matches true s' r i j.
Proof.
  induction r as [|c| |invert items| | |neg|a IHa b IHb|a IHa b IHb|g a IHa|g a IHa|g a IHa
                  |a IHa|neg a IHa];
    intros s s' i j H; pose proof (alike_sym _ _ H) as H'; cbn [RegExp.Matches].
  - done.
  - split; apply one_char_alike; try done; intros x y Hxy; by apply char_matches_alike.
  - split; apply one_char_alike; try done; intros x y Hxy; by apply not_terminator_alike.
  - split; apply one_char_alike; try done; intros x y Hxy; by apply class_matches_alike.
  - done.
  - by rewrite (Forall2_length _ _ _ H).
  - by rewrite (at_boundary_alike s s' H).
  - split; intros (x & Ha & Hb); exists x; split;
      first [by apply (IHa s s')|by apply (IHb s s')].
  - by rewrite (IHa s s' i j H), (IHb s s' i j H).
  - apply rtc_iff. intros x y. by apply IHa.
  - split; intros (x & Ha & Hb); exists x; (split; [by apply (IHa s s')|]);
      revert Hb; apply rtc_iff; intros u v; by apply IHa.
  - by rewrite (IHa s s' i j H).
  - by apply IHa.
  - destruct neg.
    + split; intros [-> Hn]; (split; [done|]); intros [e He]; apply Hn; exists e;
        by apply (IHa s s').
    + split; intros [-> [e He]]; (split; [done|]); exists e; by apply (IHa s s').
Qed.

Lemma test_alike r s s' :
  Forall2 R s s' -> RegExp.test true r s = RegExp.test true r s'.
Proof.
  intros H. apply eq_true_iff_eq. rewrite !test_spec, (Forall2_length _ _ _ H).
  split; intros (i & j & Hi & Hm); exists i, j; (split; [done|]);
    by apply (Matches_alike r s s').
Qed.

Lemma same_letters_alike (a b : list ascii) :
  map ascii_upper a = map ascii_upper b -> Forall2 R a b.
Proof.
  revert b. induction a as [|x a IH]; intros [|y b] H; try done.
  injection H as Hxy Hab. constructor; [done|by apply IH].
Qed.



End CaseInsensitiveMatch.

(** ** Stricter levels *)

Section StricterLevels.
Import JsStr Patterns Spec Levels.
Local Open Scope string_scope.
Local Open Scope list_scope.

Variable HOME : option string.
Variable command : string.

(** One rule: it raises, or the stricter rule is violated, or both rules
    are respected and the loop goes on. *)
Lemma checkShellPathViolation_tightened_step p q rest rest' :
  tightened p q ->
  (exists e, checkShellPathViolation HOME command (p :: rest) = Throw e) \/
  (exists v, checkShellPathViolation HOME command (q :: rest') = Ok (Some v)) \/
  (checkShellPathViolation HOME command (p :: rest)
     = checkShellPathViolation HOME command rest /\
   checkShellPathViolation HOME command (q :: rest')
     = checkShellPathViolation HOME command rest').
Proof.
  intros [Hpath Hlevel]. cbn [checkShellPathViolation].
  unfold isShellWrite, isShellDelete. rewrite Hpath.
  destruct (commandReferencesPath HOME command (path p)) as [[]|];
    destruct (level p), (level q); cbn [strictness] in Hlevel; try lia;
    destruct (any_op_matches SHELL_WRITE_OPS command),
             (any_op_matches SHELL_DELETE_OPS command);
    first [ left; eexists; reflexivity
          | right; left; eexists; reflexivity
          | right; right; split; reflexivity ].
Qed.

(** Making the rules of a list stricter never turns a violation into a
    pass. *)
Theorem checkShellPathViolation_tightened (ps qs : list ProtectedPath) :
  Forall2 tightened ps qs ->
  forall v, checkShellPathViolation HOME command ps = Ok (Some v) ->
            exists v', checkShellPathViolation HOME command qs = Ok (Some v').
Proof.
  induction 1 as [|p q ps qs Hpq Hrest IH]; intros v Hv; [done|].
  destruct (checkShellPathViolation_tightened_step p q ps qs Hpq)
    as [[e He]|[Hq|[Hp Hq]]]; [congruence|done|].
  rewrite Hq. apply (IH v). by rewrite <- Hp.
Qed.

End StricterLevels.

Lemma checkShellPathViolation_tightened_witness :
  let ps := [ {| Patterns.path := "Makefile"; Patterns.level := Patterns.noDelete |} ]%string in
  let qs := [ {| Patterns.path := "Makefile"; Patterns.level := Patterns.zeroAccess |} ]%string in
  Forall2 Levels.tightened ps qs /\
  Patterns.checkShellPathViolation None "rm Makefile" ps
  = Ok (Some ({| Patterns.path := "Makefile"; Patterns.level := Patterns.noDelete |},
              Patterns.OpDelete)) /\
  exists v', Patterns.checkShellPathViolation None "rm Makefile" qs = Ok (Some v').
Proof.
  intros ps qs.
  assert (H : Forall2 Levels.tightened ps qs).
  { repeat constructor. }
  assert (Hv : Patterns.checkShellPathViolation None "rm Makefile" ps
               = Ok (Some ({| Patterns.path := "Makefile"; Patterns.level := Patterns.noDelete |},
                           Patterns.OpDelete))) by (vm_compute; reflexivity).
  split; [exact H|]. split; [exact Hv|].
  exact (checkShellPathViolation_tightened None "rm Makefile" ps qs H _ Hv).
Defined.

Section StrictestFirst.
Import JsStr Patterns Spec Levels.
Local Open Scope string_scope.
Local Open Scope list_scope.

Variable HOME : option string.
Variable filePath : string.

Lemma strict_first_head p rest q :
  strict_first (p :: rest) = true -> In q (p :: rest) ->
  strictness (level q) <= strictness (level p).
Proof.
  cbn [strict_first]. intros H [<-|Hq]; [done|].
  apply andb_true_iff in H as [H _]. rewrite forallb_forall in H.
  by apply Nat.leb_le, H.
Qed.

(** One turn of the loop: a hit, a miss, or an exception. *)
Lemma checkPathProtection_one p rest :
  checkPathProtection HOME filePath (p :: rest) = Ok (Some p) \/
  (checkPathProtection HOME filePath (p :: rest) = checkPathProtection HOME filePath rest /\
   ~ path_matches HOME filePath p) \/
  (exists e, checkPathProtection HOME filePath (p :: rest) = Throw e).
Proof.
  unfold path_matches. cbn [checkPathProtection]. destruct (isGlobPattern (path p)).
  - destruct (globToRegex (path p)) as [regex|e]; [|eauto].
    destruct (RegExp.test false regex (Patterns.basename (chars filePath))) eqn:E; [by left|].
    right. left. split; [done|]. intros (r' & [= <-] & H). congruence.
  - destruct (includes filePath (replace (path p) "~" (home HOME))) eqn:E1; [by left|].
    destruct (includes filePath (path p)) eqn:E2; [by left|].
    right. left. split; [done|]. intros [?|?]; congruence.
Qed.

Lemma first_match_strictest (protectedPaths : list ProtectedPath) :
  strict_first protectedPaths = true ->
  forall r, checkPathProtection HOME filePath protectedPaths = Ok (Some r) ->
  In r protectedPaths /\
  forall q, In q protectedPaths -> path_matches HOME filePath q ->
            strictness (level q) <= strictness (level r).
Proof.
  induction protectedPaths as [|p rest IH]; intros Hsorted r Hr; [done|].
  destruct (checkPathProtection_one p rest) as [Hp|[[Hstep Hmiss]|[e He]]]; [| |congruence].
  - rewrite Hp in Hr. injection Hr as <-. split; [by left|].
    intros q Hq _. by apply (strict_first_head p rest).
  - rewrite Hstep in Hr. cbn [strict_first] in Hsorted.
    apply andb_true_iff in Hsorted as [_ Hsorted].
    destruct (IH Hsorted r Hr) as [Hin Hmax]. split; [by right|].
    intros q [<-|Hq] Hm; [done|by apply Hmax].
Qed.

Lemma first_match_matches (protectedPaths : list ProtectedPath) :
  forall r, checkPathProtection HOME filePath protectedPaths = Ok (Some r) ->
            path_matches HOME filePath r.
Proof.
  induction protectedPaths as [|p rest IH]; intros r Hr; [done|].
  revert Hr. unfold path_matches at 1. cbn [checkPathProtection].
  destruct (isGlobPattern (path p)) eqn:Hg.
  - destruct (globToRegex (path p)) as [regex|e] eqn:Hre; [|done].
    destruct (RegExp.test false regex (Patterns.basename (chars filePath))) eqn:E; [|apply IH].
    intros [= <-]. rewrite Hg. eauto.
  - destruct (includes filePath (replace (path p) "~" (home HOME))) eqn:E1;
      [intros [= <-]; rewrite Hg; by left|].
    destruct (includes filePath (path p)) eqn:E2; [intros [= <-]; rewrite Hg; by right|].
    apply IH.
Qed.

(** In a list where no rule is stricter than a rule before it, the rule
    that [checkPathProtection] returns matches the path and is as strict as
    any rule of the list that matches it. *)
Theorem checkPathProtection_strictest (protectedPaths : list ProtectedPath) :
  strict_first protectedPaths = true ->
  forall r, checkPathProtection HOME filePath protectedPaths = Ok (Some r) ->
  In r protectedPaths /\ path_matches HOME filePath r /\
  forall q, In q protectedPaths -> path_matches HOME filePath q ->
            strictness (level q) <= strictness (level r).
Proof.
  intros Hsorted r Hr. destruct (first_match_strictest _ Hsorted r Hr) as [Hin Hmax].
  split; [done|]. split; [by eapply first_match_matches|done].
Qed.

End StrictestFirst.

Lemma checkPathProtection_strictest_witness :
  Levels.strict_first Patterns.DEFAULT_PROTECTED_PATHS = true /\
  Patterns.checkPathProtection None "/etc/passwd" Patterns.DEFAULT_PROTECTED_PATHS
  = Ok (Some {| Patterns.path := "/etc/passwd"; Patterns.level := Patterns.zeroAccess |}) /\
  In {| Patterns.path := "/etc/passwd"; Patterns.level := Patterns.zeroAccess |}
    Patterns.DEFAULT_PROTECTED_PATHS.
Proof.
  assert (Hs : Levels.strict_first Patterns.DEFAULT_PROTECTED_PATHS = true)
    by (vm_compute; reflexivity).
  assert (Hr : Patterns.checkPathProtection None "/etc/passwd" Patterns.DEFAULT_PROTECTED_PATHS
               = Ok (Some {| Patterns.path := "/etc/passwd";
                             Patterns.level := Patterns.zeroAccess |}))
    by apply etc_passwd_zeroAccess.
  split; [exact Hs|]. split; [exact Hr|].
  exact (proj1 (checkPathProtection_strictest None "/etc/passwd"
                  Patterns.DEFAULT_PROTECTED_PATHS Hs _ Hr)).
Defined.

(** ** The reported text, exceptions, and a missing home directory *)

Section ReportedText.
Import JsStr Patterns Spec.
Local Open Scope string_scope.
Local Open Scope list_scope.

Lemma includes_l_segment (l : list ascii) i n :
  includes_l l (firstn n (skipn i l)) = true.
Proof.
  apply includes_l_spec. exists (firstn i l), (skipn n (skipn i l)).
  by rewrite firstn_skipn, firstn_skipn.
Qed.

(** The text that [matchPattern] reports with a rule is a piece of the
    command that is not empty, or else the source of the rule's pattern;
    and the rule is one of the list. *)
Theorem matchPattern_reported_text (command : string) (patterns : list Pattern) :
  forall matched p,
    matchPattern command patterns = Ok (Some (matched, p)) ->
    In p patterns /\
    ((matched <> "" /\ includes command matched = true) \/ matched = pattern p).
Proof.
  induction patterns as [|q rest IH]; intros matched p H; [done|].
  cbn [matchPattern] in H. destruct (RegExp.compile (pattern q)) as [regex|]; [|done].
  destruct (RegExp.test true regex (chars command)) eqn:Ht.
  - injection H as <- <-. split; [by left|].
    unfold RegExp.match0. destruct (RegExp.exec true (chars command) regex) as [[i e]|];
      [|by right].
    cbn [or_default]. destruct (firstn (e - i) (skipn i (chars command))) as [|c l] eqn:E;
      [by right|].
    left. split; [done|]. unfold includes. rewrite chars_str, <- E.
    apply includes_l_segment.
  - destruct (IH matched p H) as [Hin Htext]. split; [by right|done].
Qed.

Lemma matchPattern_reported_text_witness :
  matchPattern "sudo DROP TABLE users" DEFAULT_PATTERNS
  = Ok (Some ("DROP TABLE",
              {| pattern := "DROP\s+TABLE"; reason := "SQL DROP TABLE"; action := block |})) /\
  In {| pattern := "DROP\s+TABLE"; reason := "SQL DROP TABLE"; action := block |}
    DEFAULT_PATTERNS.
Proof.
  assert (H : matchPattern "sudo DROP TABLE users" DEFAULT_PATTERNS
              = Ok (Some ("DROP TABLE",
                          {| pattern := "DROP\s+TABLE"; reason := "SQL DROP TABLE";
                             action := block |}))) by (vm_compute; reflexivity).
  split; [exact H|].
  exact (proj1 (matchPattern_reported_text "sudo DROP TABLE users" DEFAULT_PATTERNS _ _ H)).
Defined.

End ReportedText.

Section NoException.
Import JsStr Patterns Spec.
Local Open Scope string_scope.
Local Open Scope list_scope.

Lemma matchPattern_ok command patterns :
  patterns_compile patterns -> is_ok (matchPattern command patterns) = true.
Proof.
  induction 1 as [|p rest [regex Hp] _ IH]; [done|]. cbn [matchPattern]. rewrite Hp.
  by destruct (RegExp.test true regex (chars command)).
Qed.

Lemma checkPathProtection_ok HOME filePath paths :
  globs_compile paths -> is_ok (checkPathProtection HOME filePath paths) = true.
Proof.
  induction 1 as [|p rest Hp _ IH]; [done|]. cbn [checkPathProtection].
  destruct (isGlobPattern (path p)).
  - specialize (Hp eq_refl). destruct (globToRegex (path p)) as [regex|]; [|done].
    by destruct (RegExp.test false regex _).
  - by destruct (_ || _).
Qed.

Lemma checkShellPathViolation_ok HOME command paths :
  globs_compile paths -> is_ok (checkShellPathViolation HOME command paths) = true.
Proof.
  induction 1 as [|p rest Hp _ IH]; [done|].
  destruct (commandReferencesPath_ok HOME command (path p) Hp) as [refs Hrefs].
  cbn [checkShellPathViolation]. unfold isShellWrite, isShellDelete. rewrite Hrefs.
  destruct (level p), refs;
    repeat match goal with
      | |- context [any_op_matches ?ops ?c] => destruct (any_op_matches ops c)
      end; done.
Qed.

(** With the default rules nothing raises: whatever the command, the file
    path and the home directory, [matchPattern], [checkPathProtection] and
    [checkShellPathViolation] return a result. *)
Theorem default_rules_never_raise (HOME : option string) (text : string) :
  is_ok (matchPattern text DEFAULT_PATTERNS) = true /\
  is_ok (checkPathProtection HOME text DEFAULT_PROTECTED_PATHS) = true /\
  is_ok (checkShellPathViolation HOME text DEFAULT_PROTECTED_PATHS) = true.
Proof.
  assert (Hp : patterns_compile DEFAULT_PATTERNS)
    by (apply patterns_compile_check; vm_compute; reflexivity).
  assert (Hg : globs_compile DEFAULT_PROTECTED_PATHS)
    by (apply globs_compile_check; vm_compute; reflexivity).
  split; [by apply matchPattern_ok|].
  split; [by apply checkPathProtection_ok|by apply checkShellPathViolation_ok].
Qed.

End NoException.

Section HomeUnset.
Import JsStr Patterns Spec.
Local Open Scope string_scope.
Local Open Scope list_scope.

Lemma replace_l_leading_tilde_empty rest :
  replace_l ("~"%char :: rest) ["~"%char] [] = rest.
Proof. unfold replace_l. cbn. by rewrite drop_0. Qed.

Lemma includes_l_cons_r (s sub : list ascii) c :
  includes_l s (c :: sub) = true -> includes_l s sub = true.
Proof. apply (includes_l_app_r s [c] sub). Qed.

(** With [HOME] unset or empty, a rule that starts with a tilde protects
    every path that contains the rest of the rule: [~/.ssh] then matches
    whatever contains [/.ssh]. The same holds of commands. *)
Theorem tilde_without_home (HOME : option string) (text rest : string) (lv : ProtectionLevel) :
  home HOME = "" ->
  includes rest "*" = false ->
  let p := {| path := "~" +:+ rest; level := lv |} in
  checkPathProtection HOME text [p] = Ok (if includes text rest then Some p else None) /\
  commandReferencesPath HOME text (path p) = Ok (includes text rest).
Proof.
  intros Hhome Hstar p.
  assert (Hglob : isGlobPattern (path p) = false).
  { unfold isGlobPattern, includes. cbn [path p]. rewrite chars_append.
    change (chars "~") with ["~"%char]. cbn [app includes_l starts_with]. exact Hstar. }
  assert (Hexp : replace (path p) "~" (home HOME) = rest).
  { rewrite Hhome. unfold replace. cbn [path p]. rewrite chars_append.
    change (chars "~") with ["~"%char]. change (chars "") with (@nil ascii). cbn [app].
    rewrite replace_l_leading_tilde_empty. apply str_chars. }
  assert (Hor : includes text rest || includes text (path p) = includes text rest).
  { destruct (includes text rest) eqn:E; [done|]. cbn [orb].
    destruct (includes text (path p)) eqn:E'; [|done].
    unfold includes in E'. cbn [path p] in E'. rewrite chars_append in E'.
    apply includes_l_cons_r in E'. unfold includes in E. congruence. }
  split.
  - cbn [checkPathProtection]. rewrite Hglob, Hexp, Hor. by destruct (includes text rest).
  - unfold commandReferencesPath. by rewrite Hglob, Hexp, Hor.
Qed.

Lemma tilde_without_home_witness :
  home None = "" /\ includes "/.ssh" "*" = false /\
  checkPathProtection None "/srv/project/.ssh/config"
    [ {| path := "~" +:+ "/.ssh"; level := zeroAccess |} ]
  = Ok (if includes "/srv/project/.ssh/config" "/.ssh"
        then Some {| path := "~" +:+ "/.ssh"; level := zeroAccess |} else None).
Proof.
  split; [reflexivity|]. split; [reflexivity|].
  exact (proj1 (tilde_without_home None "/srv/project/.ssh/config" "/.ssh" zeroAccess
                  eq_refl eq_refl)).
Defined.

End HomeUnset.

(** ** Deletes without a delete word, and the filter of added rules *)

Section DeleteWords.
Import JsStr RegExp Patterns Spec Levels.
Local Open Scope string_scope.
Local Open Scope list_scope.

Variable HOME : option string.
Variable command : string.

Lemma isShellDelete_word protPath :
  isShellDelete HOME command protPath = Ok true ->
  exists word, In word delete_words /\ includes command word = true.
Proof.
  unfold isShellDelete.
  destruct (commandReferencesPath HOME command protPath) as [[]|];
    intros H; try discriminate H.
  assert (H' : any_op_matches SHELL_DELETE_OPS command = true) by congruence.
  clear H. apply any_op_matches_In in H' as (op & Hin & Ht).
  unfold SHELL_DELETE_OPS, SHELL_DELETE_OPS_src in Hin. cbn [map In] in Hin.
  apply test_literal_prefix in Ht.
  destruct Hin as [<-|[<-|[<-|[<-|[]]]]];
    match type of Ht with
    | includes_l _ ?p = true =>
        let p' := eval vm_compute in p in change p with p' in Ht
    end.
  - exists "rm". split; [cbn; tauto|exact Ht].
  - exists "unlink". split; [cbn; tauto|exact Ht].
  - exists "rmdir". split; [cbn; tauto|exact Ht].
  - exists "shred". split; [cbn; tauto|exact Ht].
Qed.

(** A command without any of the words [rm], [unlink], [rmdir] and [shred]
    is never classified as a delete, so it violates no noDelete rule,
    whatever else it does to the file. *)
Theorem delete_needs_a_delete_word (protectedPaths : list ProtectedPath) :
  (forall word, In word delete_words -> includes command word = false) ->
  (forall protPath, isShellDelete HOME command protPath <> Ok true) /\
  (Forall (fun p => level p = noDelete) protectedPaths ->
   forall v, checkShellPathViolation HOME command protectedPaths <> Ok (Some v)).
Proof.
  intros Hwords.
  assert (Hdel : forall protPath, isShellDelete HOME command protPath <> Ok true).
  { intros protPath H. apply isShellDelete_word in H as (word & Hin & H).
    rewrite (Hwords word Hin) in H. discriminate. }
  split; [exact Hdel|].
  induction 1 as [|p rest Hp _ IH]; intros v; [done|].
  cbn [checkShellPathViolation]. rewrite Hp.
  specialize (Hdel (path p)). destruct (isShellDelete HOME command (path p)) as [[]|];
    [done|apply IH|done].
Qed.

End DeleteWords.

(** The theorem at a command that deletes with [find]. *)
Lemma delete_needs_a_delete_word_witness :
  let command := "find . -name LICENSE -delete"%string in
  let rules := [ {| Patterns.path := "LICENSE*"; Patterns.level := Patterns.noDelete |} ]%string in
  (forall word, In word Levels.delete_words -> JsStr.includes command word = false) /\
  Forall (fun p => Patterns.level p = Patterns.noDelete) rules /\
  Patterns.checkShellPathViolation None command rules = Ok None.
Proof.
  intros command rules.
  assert (Hwords : forall word, In word Levels.delete_words ->
                                JsStr.includes command word = false).
  { intros word Hin. cbv [Levels.delete_words In] in Hin.
    repeat (destruct Hin as [<-|Hin]; [vm_compute; reflexivity|]). destruct Hin. }
  assert (Hrules : Forall (fun p => Patterns.level p = Patterns.noDelete) rules)
    by (repeat constructor).
  split; [exact Hwords|]. split; [exact Hrules|].
  pose proof (proj2 (delete_needs_a_delete_word None command rules Hwords) Hrules) as Hnone.
  destruct (Patterns.checkShellPathViolation None command rules) as [[v|]|] eqn:E.
  - by destruct (Hnone v).
  - reflexivity.
  - exfalso. revert E. vm_compute. discriminate.
Defined.

Section AddArrays.
Import JsStr Patterns Config.
Local Open Scope string_scope.
Local Open Scope list_scope.

Variable source : string.

(** The warning for the entry at index [i] of [patterns.add]. *)
Local Abbreviation add_warning i :=
  (source +:+ ": " +:+ dq +:+ "patterns.add[" +:+ pretty i +:+ "]" +:+ dq
   +:+ " is invalid (need pattern, reason, action), skipping").

(** The warnings for the invalid entries of [items], numbered from [i]. *)
Local Abbreviation add_warnings i items :=
  (omap (fun '(k, v) => if isValidPattern v then None else Some (add_warning k))
        (zip (seq i (length items)) items)).

Lemma validate_patterns_add_spec items : forall i valid ws,
  validate_patterns_add source i items valid ws
  = Ok (valid ++ map asPattern (List.filter isValidPattern items),
        ws ++ add_warnings i items).
Proof.
  induction items as [|v rest IH]; intros i valid ws;
    cbn [validate_patterns_add length seq zip zip_with omap list_omap List.filter map].
  - by rewrite !app_nil_r.
  - destruct (isValidPattern v).
    + rewrite IH. cbn [map]. by rewrite <- app_assoc.
    + unfold bind at 1, warn at 1. rewrite IH. by rewrite <- app_assoc.
Qed.

(** [patterns.add] is filtered: the valid entries are kept, in their
    order; each invalid entry is dropped with one warning that carries its
    index in the array as given; and the field is left out when nothing is
    kept. *)
Theorem validateConfig_add_filters (items : list json) :
  validateConfig source (JObject [("patterns", JObject [("add", JArray items)])])
  = Ok ({| cfg_patterns :=
             Some {| pc_add := nonempty (map asPattern (List.filter isValidPattern items));
                     pc_remove := None; pc_override := None |};
           cfg_paths := None |},
        add_warnings 0 items).
Proof.
  unfold validateConfig, validate_patterns, validate_paths.
  cbn [prop lookup_prop String.eqb Ascii.eqb Bool.eqb map fst warn_unknown_keys].
  unfold bind. rewrite validate_patterns_add_spec. reflexivity.
Qed.

End AddArrays.

(** ** Commands that only read *)

Section ReadsOnly.
Import JsStr RegExp Patterns Spec Levels.
Local Open Scope string_scope.
Local Open Scope list_scope.

Variable HOME : option string.
Variable command : string.

(** The zeroAccess rules of a list. *)
Local Abbreviation zeroAccess_only paths :=
  (List.filter (fun p => match level p with zeroAccess => true | _ => false end) paths).

(** A command in which no write signature and no delete signature finds
    anything (no recognized redirection, none of the write words, none of
    the delete words) is checked against the zeroAccess rules only: the
    readOnly and noDelete rules of the list make no difference. *)
Theorem plain_commands_meet_zeroAccess_only (protectedPaths : list ProtectedPath) :
  globs_compile protectedPaths ->
  ~ redirect_recognized (chars command) ->
  (forall word, In word write_words -> includes command word = false) ->
  (forall word, In word delete_words -> includes command word = false) ->
  checkShellPathViolation HOME command protectedPaths
  = checkShellPathViolation HOME command (zeroAccess_only protectedPaths).
Proof.
  intros Hglobs Hred Hwrite Hdelete.
  assert (Hw : forall protPath, isShellWrite HOME command protPath <> Ok true).
  { intros protPath H. apply isShellWrite_signature in H as [H|(w & Hin & H)]; [done|].
    rewrite (Hwrite w Hin) in H. discriminate. }
  assert (Hd : forall protPath, isShellDelete HOME command protPath <> Ok true).
  { intros protPath H. apply isShellDelete_word in H as (w & Hin & H).
    rewrite (Hdelete w Hin) in H. discriminate. }
  induction Hglobs as [|p rest Hp _ IH]; [done|].
  cbn [checkShellPathViolation List.filter].
  destruct (commandReferencesPath_ok HOME command (path p) Hp) as [refs Hrefs].
  specialize (Hw (path p)). specialize (Hd (path p)).
  unfold isShellWrite, isShellDelete in *. rewrite Hrefs in *.
  destruct (level p) eqn:Hl; cbn [checkShellPathViolation]; rewrite ?Hl, ?Hrefs.
  - destruct refs; [done|exact IH].
  - destruct refs; [|exact IH].
    destruct (any_op_matches SHELL_WRITE_OPS command); [done|].
    destruct (any_op_matches SHELL_DELETE_OPS command); [done|exact IH].
  - destruct refs; [|exact IH].
    destruct (any_op_matches SHELL_DELETE_OPS command); [done|exact IH].
Qed.

End ReadsOnly.

(** The theorem at a command that only reads, on the default rules. *)
Lemma plain_commands_meet_zeroAccess_only_witness :
  let command := "wc -l package-lock.json"%string in
  Spec.globs_compile Patterns.DEFAULT_PROTECTED_PATHS /\
  ~ Spec.redirect_recognized (JsStr.chars command) /\
  (forall word, In word Spec.write_words -> JsStr.includes command word = false) /\
  (forall word, In word Levels.delete_words -> JsStr.includes command word = false) /\
  Patterns.checkShellPathViolation None command Patterns.DEFAULT_PROTECTED_PATHS
  = Patterns.checkShellPathViolation None command
      (List.filter (fun p => match Patterns.level p with
                             | Patterns.zeroAccess => true
                             | _ => false
                             end) Patterns.DEFAULT_PROTECTED_PATHS).
Proof.
  intros command.
  assert (Hg : Spec.globs_compile Patterns.DEFAULT_PROTECTED_PATHS)
    by (apply globs_compile_check; vm_compute; reflexivity).
  assert (Hr : ~ Spec.redirect_recognized (JsStr.chars command))
    by (apply no_redirect_recognized; [vm_compute; reflexivity|discriminate]).
  assert (Hw : forall word, In word Spec.write_words -> JsStr.includes command word = false).
  { intros word Hin. cbv [Spec.write_words In] in Hin.
    repeat (destruct Hin as [<-|Hin]; [vm_compute; reflexivity|]). destruct Hin. }
  assert (Hd : forall word, In word Levels.delete_words -> JsStr.includes command word = false).
  { intros word Hin. cbv [Levels.delete_words In] in Hin.
    repeat (destruct Hin as [<-|Hin]; [vm_compute; reflexivity|]). destruct Hin. }
  split; [exact Hg|]. split; [exact Hr|]. split; [exact Hw|]. split; [exact Hd|].
  exact (plain_commands_meet_zeroAccess_only None command Patterns.DEFAULT_PROTECTED_PATHS
           Hg Hr Hw Hd).
Defined.

(** ** Rules that a config adds or overrides *)

Section AddedRules.
Import JsStr Patterns Config Compose.
Local Open Scope string_scope.
Local Open Scope list_scope.

Lemma matchPattern_app command ps qs :
  matchPattern command (ps ++ qs)
  = or_else_result (matchPattern command ps) (matchPattern command qs).
Proof.
  induction ps as [|p ps IH]; [reflexivity|].
  cbn [app matchPattern]. destruct (RegExp.compile (pattern p)) as [regex|]; [|done].
  by destruct (RegExp.test true regex (chars command)).
Qed.

Lemma checkPathProtection_app HOME filePath ps qs :
  checkPathProtection HOME filePath (ps ++ qs)
  = or_else_result (checkPathProtection HOME filePath ps) (checkPathProtection HOME filePath qs).
Proof.
  induction ps as [|p ps IH]; [reflexivity|].
  cbn [app checkPathProtection]. destruct (isGlobPattern (path p)).
  - destruct (globToRegex (path p)) as [regex|]; [|done].
    by destruct (RegExp.test false regex _).
  - by destruct (_ || _).
Qed.

Lemma checkShellPathViolation_app HOME command ps qs :
  checkShellPathViolation HOME command (ps ++ qs)
  = or_else_result (checkShellPathViolation HOME command ps)
      (checkShellPathViolation HOME command qs).
Proof.
  induction ps as [|p ps IH]; [reflexivity|].
  cbn [app checkShellPathViolation]. unfold isShellWrite, isShellDelete.
  destruct (commandReferencesPath HOME command (path p)) as [[]|];
    destruct (level p);
    repeat match goal with
      | |- context [any_op_matches ?ops ?c] => destruct (any_op_matches ops c)
      end; done.
Qed.


Lemma matchPattern_override (override : gmap string Action) (command : string)
    (patterns : list Pattern) :
  matchPattern command (Spec.override_patterns_step override patterns)
  = match matchPattern command patterns with
    | Ok (Some (matched, p)) => Ok (Some (matched, overridden override p))
    | Ok None => Ok None
    | Throw e => Throw e
    end.
Proof.
  unfold Spec.override_patterns_step.
  induction patterns as [|p rest IH]; [done|]. cbn [map matchPattern].
  replace (pattern (match override !! reason p with
                    | Some a => {| pattern := pattern p; reason := reason p; action := a |}
                    | None => p
                    end)) with (pattern p) by (by destruct (override !! reason p)).
  destruct (RegExp.compile (pattern p)) as [regex|]; [|done].
  destruct (RegExp.test true regex (chars command)); [|exact IH].
  unfold overridden, with_action. by destruct (override !! reason p).
Qed.


(** Star in front has nothing to repeat: no such source compiles. *)
Lemma compile_star_head rest : RegExp.compile_l ("*"%char :: rest) = None.
Proof.
  unfold RegExp.compile_l.
  replace (2 * length ("*"%char :: rest) + 2) with (S (S (2 * length rest + 2)))
    by (cbn [length]; lia).
  reflexivity.
Qed.

(** The validator does not compile the patterns it accepts. A config that
    adds a rule whose pattern starts with a star passes validation without
    a warning, and with it [matchPattern] raises a [SyntaxError] for every
    command that none of the rules before it matches. *)
Theorem invalid_added_pattern_raises (source why : string) (a : Action) (body : string)
    (defaultPatterns : list Pattern) (defaultPaths : list ProtectedPath) (command : string) :
  let bad := {| pattern := "*" +:+ body; reason := why; action := a |} in
  let raw := JObject [("patterns",
                       JObject [("add", JArray [JObject [("pattern", JString (pattern bad));
                                                         ("reason", JString why);
                                                         ("action", JString match a with
                                                                            | block => "block"
                                                                            | ask => "ask"
                                                                            end)]])])] in
  let config := {| cfg_patterns := Some {| pc_add := Some [bad]; pc_remove := None;
                                           pc_override := None |};
                   cfg_paths := None |} in
  validateConfig source raw = Ok (config, []) /\
  (matchPattern command defaultPatterns = Ok None ->
   matchPattern command (fst (applyConfig config defaultPatterns defaultPaths))
   = Throw (SyntaxError (pattern bad))).
Proof.
  cbv zeta. split.
  - by destruct a.
  - intros H. rewrite applyConfig_spec. cbn [fst].
    unfold Spec.apply_patterns, Spec.add_step.
    cbn [cfg_patterns mbind option_bind pc_add pc_remove pc_override or_nil or_empty].
    rewrite remove_step_nil, override_patterns_step_empty, matchPattern_app, H.
    cbn [or_else_result matchPattern pattern]. unfold RegExp.compile.
    change (chars ("*" +:+ body)) with ("*"%char :: chars body).
    by rewrite compile_star_head.
Qed.

End AddedRules.

(** The theorem at the default rules and a harmless command. *)
Lemma invalid_added_pattern_raises_witness :
  let bad := {| Patterns.pattern := "*.tmp"; Patterns.reason := "Temporary files";
                Patterns.action := Patterns.ask |}%string in
  let config :=
    {| Config.cfg_patterns := Some {| Config.pc_add := Some [bad]; Config.pc_remove := None;
                                      Config.pc_override := None |};
       Config.cfg_paths := None |} in
  Patterns.matchPattern "ls -la" Patterns.DEFAULT_PATTERNS = Ok None /\
  Patterns.matchPattern "ls -la"
    (fst (Config.applyConfig config Patterns.DEFAULT_PATTERNS Patterns.DEFAULT_PROTECTED_PATHS))
  = Throw (SyntaxError "*.tmp").
Proof.
  intros bad config.
  assert (H : Patterns.matchPattern "ls -la" Patterns.DEFAULT_PATTERNS = Ok None)
    by (vm_compute; reflexivity).
  split; [exact H|].
  exact (proj2 (invalid_added_pattern_raises "damage-control.json" "Temporary files"
                  Patterns.ask ".tmp" Patterns.DEFAULT_PATTERNS Patterns.DEFAULT_PROTECTED_PATHS
                  "ls -la") H).
Defined.

(** ** The hooks of the plugin *)

Section Hooks.
Import JsStr Patterns Spec Plugin Levels.
Local Open Scope string_scope.
Local Open Scope list_scope.

Variable HOME : option string.

Local Abbreviation is_shell t :=
  (String.eqb t "bash" || String.eqb t "shell" || String.eqb t "cmd").
Local Abbreviation is_read t :=
  (String.eqb t "read" || String.eqb t "glob" || String.eqb t "grep").
Local Abbreviation is_write t :=
  (String.eqb t "edit" || String.eqb t "write" || String.eqb t "create").

(** The state after one more entry in the log. *)
Local Abbreviation logging st level message extra :=
  {| pendingAsks := pendingAsks st;
     logged := logged st ++ [ {| log_service := "damage-control"; log_level := level;
                                 log_message := message; log_extra := extra |} ] |}.

(** The entry that opens every call of the hook. *)
Local Abbreviation entered st call :=
  (logging st "debug" "tool.execute.before"
     [("tool", tool call); ("args", slice_to 200 (args_text (args call)))]).


(** A tool of one family is of no other. *)
Lemma shell_tool t : In t ["bash"; "shell"; "cmd"] ->
  is_shell t = true /\ is_read t = false /\ is_write t = false.
Proof. cbn [In]. intros [<-|[<-|[<-|[]]]]; done. Qed.

Lemma read_tool t : In t ["read"; "glob"; "grep"] ->
  is_shell t = false /\ is_read t = true /\ is_write t = false.
Proof. cbn [In]. intros [<-|[<-|[<-|[]]]]; done. Qed.

Lemma write_tool t : In t ["edit"; "write"; "create"] ->
  is_shell t = false /\ is_read t = false /\ is_write t = true.
Proof. cbn [In]. intros [<-|[<-|[<-|[]]]]; done. Qed.

(** The loop over the protected paths is a search for the first path whose
    text, as written or with the tilde expanded, occurs in the command. *)
Lemma check_command_paths_find command paths st :
  check_command_paths HOME command paths st
  = match find (fun prot => includes command (expandHome HOME (path prot))
                            || includes command (path prot)) paths with
    | Some prot =>
        (Throws (Error ("DAMAGE_CONTROL_BLOCKED: Protected path " +:+ Config.dq +:+ path prot
                        +:+ Config.dq +:+ " cannot be accessed" +:+ nl
                        +:+ "Protection level: " +:+ level_name (level prot))),
         logging st "warn" "Blocked access to protected path in command"
           [("command", slice_to 100 command); ("path", path prot)])
    | None => (Next tt, st)
    end.
Proof.
  induction paths as [|prot rest IH]; [done|]. cbn [check_command_paths find].
  by destruct (includes command (expandHome HOME (path prot)) || includes command (path prot)).
Qed.

(** A shell command that a pattern matches is decided by the pattern
    alone: a block rule throws, and an ask rule lets the call through with
    a note for the permission hook, without a look at the protected
    paths. *)
Theorem shell_pattern_decides (call : ToolCall) (st : PluginState)
    (text matched : string) (p : Pattern) :
  In (tool call) ["bash"; "shell"; "cmd"] ->
  command (args call) = Some text -> text <> "" ->
  matchPattern text DEFAULT_PATTERNS = Ok (Some (matched, p)) ->
  run (tool_execute_before HOME call) st
  = match action p with
    | block =>
        (Threw (Error ("DAMAGE_CONTROL_BLOCKED: " +:+ reason p +:+ nl +:+ nl
                       +:+ "Command: " +:+ matched)),
         logging (entered st call) "warn" "Blocked dangerous command"
           [("command", slice_to 100 text); ("reason", reason p)])
    | ask =>
        (Returned,
         {| pendingAsks :=
              <[callID call := {| pa_reason := reason p; pa_match := matched;
                                  pa_tool := tool call |}]> (pendingAsks st);
            logged :=
              logged (logging (entered st call) "warn" "Flagged command for confirmation"
                        [("command", slice_to 100 text); ("reason", reason p)]) |})
    end.
Proof.
  intros Htool Hcmd Hne Hmatch. destruct (shell_tool _ Htool) as (Hs & _ & _).
  unfold tool_execute_before, shell_branch. rewrite Hs, Hcmd.
  destruct text as [|c text']; [exfalso; by apply Hne|]. rewrite Hmatch. cbv [run bind lift ret log throw stash return_]. by destruct (action p).
Qed.

(** A shell command that no pattern matches is blocked exactly when the
    text of a protected path, as written or with the tilde expanded,
    occurs in it; the first such path is the one named, whatever its level,
    and a glob counts by its text. *)
Theorem shell_paths_decide (call : ToolCall) (st : PluginState) (text : string) :
  In (tool call) ["bash"; "shell"; "cmd"] ->
  command (args call) = Some text -> text <> "" ->
  matchPattern text DEFAULT_PATTERNS = Ok None ->
  run (tool_execute_before HOME call) st
  = match find (fun prot => includes text (expandHome HOME (path prot))
                            || includes text (path prot)) DEFAULT_PROTECTED_PATHS with
    | Some prot =>
        (Threw (Error ("DAMAGE_CONTROL_BLOCKED: Protected path " +:+ Config.dq +:+ path prot
                       +:+ Config.dq +:+ " cannot be accessed" +:+ nl
                       +:+ "Protection level: " +:+ level_name (level prot))),
         logging (entered st call) "warn" "Blocked access to protected path in command"
           [("command", slice_to 100 text); ("path", path prot)])
    | None => (Returned, entered st call)
    end.
Proof.
  intros Htool Hcmd Hne Hmatch. destruct (shell_tool _ Htool) as (Hs & Hr & Hw).
  unfold tool_execute_before, shell_branch, read_branch, write_branch.
  rewrite Hs, Hr, Hw, Hcmd. destruct text as [|c text']; [exfalso; by apply Hne|]. rewrite Hmatch.
  unfold run, bind, log, lift, ret. cbn [fst snd].
  rewrite check_command_paths_find.
  by destruct (find _ DEFAULT_PROTECTED_PATHS).
Qed.

Lemma path_misses_not_matches filePath q :
  path_misses HOME filePath q -> ~ path_matches HOME filePath q.
Proof.
  unfold path_misses, path_matches. destruct (isGlobPattern (path q)).
  - intros (regex & Hr & Ht) (regex' & Hr' & Ht'). congruence.
  - intros [H1 H2] [?|?]; congruence.
Qed.

Lemma default_paths_result filePath :
  (exists r, checkPathProtection HOME filePath DEFAULT_PROTECTED_PATHS = Ok (Some r) /\
             In r DEFAULT_PROTECTED_PATHS /\ path_matches HOME filePath r /\
             forall q, In q DEFAULT_PROTECTED_PATHS -> path_matches HOME filePath q ->
                       strictness (level q) <= strictness (level r)) \/
  (checkPathProtection HOME filePath DEFAULT_PROTECTED_PATHS = Ok None /\
   forall q, In q DEFAULT_PROTECTED_PATHS -> ~ path_matches HOME filePath q).
Proof.
  assert (Hg : globs_compile DEFAULT_PROTECTED_PATHS)
    by (apply globs_compile_check; vm_compute; reflexivity).
  assert (Hs : strict_first DEFAULT_PROTECTED_PATHS = true) by (vm_compute; reflexivity).
  pose proof (checkPathProtection_ok HOME filePath _ Hg) as Hok.
  destruct (checkPathProtection HOME filePath DEFAULT_PROTECTED_PATHS) as [[r|]|] eqn:E;
    [| |done].
  - left. exists r. destruct (first_match_strictest HOME filePath _ Hs r E) as [Hin Hmax].
    split; [done|]. split; [done|]. split; [by eapply first_match_matches|done].
  - right. split; [done|]. intros q Hq.
    apply (checkPathProtection_spec HOME filePath _ Hg) in E.
    apply path_misses_not_matches. rewrite List.Forall_forall in E. by apply E.
Qed.

(** The file tools with the default rules. A read, glob or grep is let
    through exactly when no zeroAccess rule matches the path; an edit,
    write or create exactly when no rule at all matches it, whatever the
    level of the rule. *)
Theorem file_tools_decide (call : ToolCall) (st : PluginState) (file : string) :
  filePath (args call) = Some file -> file <> "" ->
  (In (tool call) ["read"; "glob"; "grep"] ->
   fst (run (tool_execute_before HOME call) st) = Returned <->
   forall q, In q DEFAULT_PROTECTED_PATHS -> level q = zeroAccess ->
             ~ path_matches HOME file q) /\
  (In (tool call) ["edit"; "write"; "create"] ->
   fst (run (tool_execute_before HOME call) st) = Returned <->
   forall q, In q DEFAULT_PROTECTED_PATHS -> ~ path_matches HOME file q).
Proof.
  intros Hfile Hne. destruct file as [|c file']; [exfalso; by apply Hne|]. clear Hne.
  split; intros Htool.
  - destruct (read_tool _ Htool) as (Hs & Hr & Hw).
    unfold tool_execute_before, shell_branch, read_branch, write_branch.
    rewrite Hs, Hr, Hw, Hfile. lazy beta iota.
    destruct (default_paths_result (String c file'))
      as [(r & -> & Hin & Hm & Hmax)|[-> Hnone]].
    + cbv [run bind lift ret log throw return_ fst snd].
      destruct r as [p []]; cbn [fst]; split; try done.
      * intros H. by destruct (H _ Hin eq_refl).
      * intros _ q Hq Hz Hmq. apply (Hmax q Hq) in Hmq. rewrite Hz in Hmq. cbn in Hmq. lia.
      * intros _ q Hq Hz Hmq. apply (Hmax q Hq) in Hmq. rewrite Hz in Hmq. cbn in Hmq. lia.
    + cbv [run bind lift ret log throw return_ fst snd]. split; [|done].
      intros _ q Hq _. by apply Hnone.
  - destruct (write_tool _ Htool) as (Hs & Hr & Hw).
    unfold tool_execute_before, shell_branch, read_branch, write_branch.
    rewrite Hs, Hr, Hw, Hfile. lazy beta iota.
    destruct (default_paths_result (String c file'))
      as [(r & -> & Hin & Hm & Hmax)|[-> Hnone]].
    + cbv [run bind lift ret log throw return_ fst snd]. split; [done|].
      intros H. by destruct (H _ Hin).
    + cbv [run bind lift ret log throw return_ fst snd]. split; [|done].
      intros _ q Hq. by apply Hnone.
Qed.

(** The permission hook. It forces the dialog for a call that the first
    hook has flagged, and for that call only once: the note is consumed.
    For any other call it leaves the status and the notes as they are. *)
Theorem permission_ask_consumes (call : ToolCall) (st : PluginState)
    (text matched status : string) (p : Pattern) :
  In (tool call) ["bash"; "shell"; "cmd"] ->
  command (args call) = Some text -> text <> "" ->
  matchPattern text DEFAULT_PATTERNS = Ok (Some (matched, p)) ->
  action p = ask ->
  callID call <> "" ->
  let flagged := snd (run (tool_execute_before HOME call) st) in
  let asked := permission_ask (Some (callID call)) status flagged in
  fst asked = "ask" /\
  pendingAsks (snd asked) = delete (callID call) (pendingAsks st) /\
  permission_ask (Some (callID call)) status (snd asked) = (status, snd asked).
Proof.
  intros Htool Hcmd Hne Hmatch Hask Hid flagged asked.
  assert (Hflagged : pendingAsks flagged
                     = <[callID call := {| pa_reason := reason p; pa_match := matched;
                                           pa_tool := tool call |}]> (pendingAsks st)).
  { subst flagged. destruct (shell_tool _ Htool) as (Hs & _ & _).
    unfold tool_execute_before, shell_branch. rewrite Hs, Hcmd.
    destruct text as [|c text']; [exfalso; by apply Hne|]. rewrite Hmatch.
    cbv [run bind lift ret log throw stash return_]. by rewrite Hask. }
  subst asked. unfold permission_ask.
  destruct (callID call) as [|c id] eqn:Eid; [done|].
  rewrite Hflagged, lookup_insert_eq. cbn [fst snd unstash log pendingAsks].
  rewrite Hflagged, delete_insert_eq, lookup_delete_eq. done.
Qed.

(** The permission hook changes the status to [ask] or not at all, never
    adds a note, and leaves everything alone when the call is not flagged
    or has no identifier. *)
Theorem permission_ask_frame (callID : option string) (status : string) (st : PluginState) :
  let asked := permission_ask callID status st in
  (fst asked = status \/ fst asked = "ask") /\
  pendingAsks (snd asked) ⊆ pendingAsks st /\
  ((forall id, callID = Some id -> id = "" \/ pendingAsks st !! id = None) ->
   asked = (status, st)).
Proof.
  unfold permission_ask. destruct callID as [[|c id]|].
  - cbn. split; [by left|]. split; [done|done].
  - destruct (pendingAsks st !! String c id) eqn:E.
    + cbn [fst snd unstash log pendingAsks]. split; [by right|]. split; [apply delete_subseteq|].
      intros H. destruct (H _ eq_refl); congruence.
    + cbn. split; [by left|]. split; [done|done].
  - cbn. split; [by left|]. split; [done|done].
Qed.

End Hooks.

Section HookExamples.
Import JsStr Patterns Spec Plugin Levels.
Local Open Scope string_scope.
Local Open Scope list_scope.

Local Abbreviation home_user := (Some "/home/user").
Local Abbreviation started := (DamageControl "/srv/project").


(** A command that an ask rule matches and that reads a key: the call goes
    on to the permission dialog. *)
Lemma shell_pattern_decides_witness :
  let text := "git stash drop && cat ~/.ssh/id_rsa" in
  let rule := {| pattern := "git\s+stash\s+drop"; reason := "Permanently deletes a stash";
                 action := ask |} in
  let call := {| tool := "bash"; callID := "call_1";
                 args := {| command := Some text; filePath := None; args_text := "{}" |} |} in
  In (tool call) ["bash"; "shell"; "cmd"] /\
  command (args call) = Some text /\ text <> "" /\
  matchPattern text DEFAULT_PATTERNS = Ok (Some ("git stash drop", rule)) /\
  fst (run (tool_execute_before home_user call) started) = Returned.
Proof.
  intros text rule call.
  assert (Hm : matchPattern text DEFAULT_PATTERNS = Ok (Some ("git stash drop", rule)))
    by (vm_compute; reflexivity).
  split; [by left|]. split; [done|]. split; [done|]. split; [exact Hm|].
  by rewrite (shell_pattern_decides home_user call started text "git stash drop" rule
                ltac:(by left) eq_refl ltac:(done) Hm).
Defined.

(** A command that names a key file matched by a glob rule only. *)
Lemma shell_paths_decide_witness :
  let text := "cat server.pem" in
  let call := {| tool := "bash"; callID := "call_1";
                 args := {| command := Some text; filePath := None; args_text := "{}" |} |} in
  In (tool call) ["bash"; "shell"; "cmd"] /\
  command (args call) = Some text /\ text <> "" /\
  matchPattern text DEFAULT_PATTERNS = Ok None /\
  fst (run (tool_execute_before home_user call) started) = Returned.
Proof.
  intros text call.
  assert (Hm : matchPattern text DEFAULT_PATTERNS = Ok None) by (vm_compute; reflexivity).
  split; [by left|]. split; [done|]. split; [done|]. split; [exact Hm|].
  rewrite (shell_paths_decide home_user call started text ltac:(by left) eq_refl ltac:(done) Hm).
  vm_compute. reflexivity.
Defined.

(** An edit of a file under a noDelete rule. *)
Lemma file_tools_decide_witness :
  let call := {| tool := "edit"; callID := "call_1";
                 args := {| command := None; filePath := Some "/srv/project/README.md";
                            args_text := "{}" |} |} in
  filePath (args call) = Some "/srv/project/README.md" /\
  "/srv/project/README.md" <> "" /\
  In (tool call) ["edit"; "write"; "create"] /\
  (fst (run (tool_execute_before home_user call) started) = Returned <->
   forall q, In q DEFAULT_PROTECTED_PATHS ->
             ~ path_matches home_user "/srv/project/README.md" q).
Proof.
  intros call. split; [done|]. split; [done|]. split; [by left|].
  exact (proj2 (file_tools_decide home_user call started "/srv/project/README.md"
                  eq_refl ltac:(done)) ltac:(by left)).
Defined.

(** The flagged call of above, then the permission hook twice. *)
Lemma permission_ask_consumes_witness :
  let text := "git stash drop && cat ~/.ssh/id_rsa" in
  let rule := {| pattern := "git\s+stash\s+drop"; reason := "Permanently deletes a stash";
                 action := ask |} in
  let call := {| tool := "bash"; callID := "call_1";
                 args := {| command := Some text; filePath := None; args_text := "{}" |} |} in
  let flagged := snd (run (tool_execute_before home_user call) started) in
  matchPattern text DEFAULT_PATTERNS = Ok (Some ("git stash drop", rule)) /\
  action rule = ask /\ callID call <> "" /\
  fst (permission_ask (Some (callID call)) "allow" flagged) = "ask".
Proof.
  intros text rule call flagged.
  assert (Hm : matchPattern text DEFAULT_PATTERNS = Ok (Some ("git stash drop", rule)))
    by (vm_compute; reflexivity).
  split; [exact Hm|]. split; [done|]. split; [done|].
  exact (proj1 (permission_ask_consumes home_user call started text "git stash drop" "allow"
                  rule ltac:(by left) eq_refl ltac:(done) Hm eq_refl ltac:(done))).
Defined.

(** A call without identifier. *)
Lemma permission_ask_frame_witness :
  (forall id, @None string = Some id -> id = "" \/ pendingAsks started !! id = None) /\
  permission_ask None "allow" started = ("allow", started).
Proof.
  assert (H : forall id, @None string = Some id -> id = "" \/ pendingAsks started !! id = None)
    by (intros id [=]).
  split; [exact H|].
  exact (proj2 (proj2 (permission_ask_frame None "allow" started)) H).
Defined.

End HookExamples.
